(** * Checkpoint creation and column-family export

    A shallow embedding of [utilities/checkpoint/checkpoint_impl.cc]:
    [CheckpointImpl::CleanStagingDirectory], [CreateCheckpoint],
    [CreateCustomCheckpoint], [ExportColumnFamily], [ExportFilesInMetaData]
    and [CopyOptionsFile].

    The storage engine ([DB]) and the file system ([Env], [FileSystem]) are
    external collaborators.  They are an interface here (the class
    [Collaborators]): every call is a state transformer on an abstract world
    [W], and every call leaves an [Event] (the call, its arguments and what it
    returned) in the trace of the run.  The properties are stated on the value
    a run returns and on the trace it leaves. *)

From Stdlib Require Import String Ascii List NArith Bool Lia.
From stdpp Require Import base strings gmap.
Import ListNotations.

Local Open Scope string_scope.
Local Open Scope list_scope.
Local Open Scope N_scope.

(** ** Machine integers and std::string *)

(** [uint64_t] and [size_t] are 64 bits wide. *)
Definition two64 : N := 2 ^ 64.
Definition kMaxUint64 : N := two64 - 1.
(** [std::string::npos] is [size_t(-1)]. *)
Definition npos : N := two64 - 1.
(** Addition on [uint64_t] / [size_t] wraps around. *)
Definition add64 (a b : N) : N := (a + b) mod two64.

Fixpoint find_last_not_of_from (s : string) (c : ascii) (i acc : N) : N :=
  match s with
  | EmptyString => acc
  | String a s' =>
      find_last_not_of_from s' c (i + 1) (if Ascii.eqb a c then acc else i)
  end.

(** [s.find_last_not_of(c)]: the index of the last character different from
    [c], [npos] when there is none. *)
Definition find_last_not_of (s : string) (c : ascii) : N :=
  find_last_not_of_from s c 0 npos.

(** [s.substr(pos, len)]; every call site has [pos <= s.size()], so the
    [std::out_of_range] case does not arise. *)
Definition substr (s : string) (pos len : N) : string :=
  String.substring (N.to_nat pos) (N.to_nat len) s.

(** [s.substr(pos)], the suffix from [pos] on. *)
Fixpoint substr_from (s : string) (pos : nat) : string :=
  match pos, s with
  | O, _ => s
  | S p, String _ s' => substr_from s' p
  | S _, EmptyString => EmptyString
  end.

Definition empty (s : string) : bool :=
  match s with EmptyString => true | _ => false end.

(** [s.rfind(p, 0)]: the only position a match may start at is 0. *)
Definition rfind_at0 (s p : string) : N :=
  if String.prefix p s then 0 else npos.

Definition slash : ascii := "/"%char.
Definition newline : string := String "010"%char EmptyString.

(** ** rocksdb::Status *)

Inductive Code :=
| kOk | kNotFound | kCorruption | kNotSupported | kInvalidArgument
| kIOError | kIncomplete | kShutdownInProgress | kTimedOut | kAborted
| kBusy | kTryAgain.

Record Status := mkStatus { code : Code; state : string }.

Definition Code_eqb (a b : Code) : bool :=
  match a, b with
  | kOk, kOk | kNotFound, kNotFound | kCorruption, kCorruption
  | kNotSupported, kNotSupported | kInvalidArgument, kInvalidArgument
  | kIOError, kIOError | kIncomplete, kIncomplete
  | kShutdownInProgress, kShutdownInProgress | kTimedOut, kTimedOut
  | kAborted, kAborted | kBusy, kBusy | kTryAgain, kTryAgain => true
  | _, _ => false
  end.

Module St.
Definition OK : Status := mkStatus kOk "".
Definition NotFound (m : string) : Status := mkStatus kNotFound m.
Definition Corruption (m : string) : Status := mkStatus kCorruption m.
Definition NotSupported (m : string) : Status := mkStatus kNotSupported m.
Definition InvalidArgument (m : string) : Status :=
    mkStatus kInvalidArgument m.
Definition IOError (m : string) : Status := mkStatus kIOError m.
End St.

Definition ok (s : Status) : bool := Code_eqb (code s) kOk.
Definition IsNotFound (s : Status) : bool := Code_eqb (code s) kNotFound.
Definition IsNotSupported (s : Status) : bool :=
  Code_eqb (code s) kNotSupported.
Definition IsInvalidArgument (s : Status) : bool :=
  Code_eqb (code s) kInvalidArgument.
Definition IsIOError (s : Status) : bool := Code_eqb (code s) kIOError.

(** ** Engine data *)

Inductive FileType :=
| kWalFile | kDBLockFile | kTableFile | kDescriptorFile | kCurrentFile
| kTempFile | kInfoLogFile | kMetaDatabase | kIdentityFile | kOptionsFile
| kBlobFile.

Definition FileType_eqb (a b : FileType) : bool :=
  match a, b with
  | kWalFile, kWalFile | kDBLockFile, kDBLockFile | kTableFile, kTableFile
  | kDescriptorFile, kDescriptorFile | kCurrentFile, kCurrentFile
  | kTempFile, kTempFile | kInfoLogFile, kInfoLogFile
  | kMetaDatabase, kMetaDatabase | kIdentityFile, kIdentityFile
  | kOptionsFile, kOptionsFile | kBlobFile, kBlobFile => true
  | _, _ => false
  end.

Inductive WalFileType := kArchivedLogFile | kAliveLogFile.

(** [LogFile] of rocksdb/transaction_log.h. *)
Record LogFile := mkLogFile {
  PathName : string;
  LogNumber : N;
  Type_ : WalFileType;
  StartSequence : N;
  SizeFileBytes : N
}.

Definition is_alive (w : LogFile) : bool :=
  match Type_ w with kAliveLogFile => true | kArchivedLogFile => false end.

(** The fields of [DBOptions] the checkpoint code reads or writes. *)
Record DBOptions := mkDBOptions {
  allow_2pc : bool;
  use_fsync : bool;
  db_log_dir : string;
  wal_dir : string
}.

Record ColumnFamilyDescriptor := mkCFDescriptor {
  cfd_name : string;
  cfd_options : N
}.

(** [SstFileMetaData], [LevelMetaData], [ColumnFamilyMetaData],
    [LiveFileMetaData] and [ExportImportFilesMetaData] of rocksdb/metadata.h. *)
Record SstFileMetaData := mkSst {
  sst_size : N;
  sst_name : string;
  sst_file_number : N;
  sst_smallest_seqno : N;
  sst_largest_seqno : N;
  sst_smallestkey : string;
  sst_largestkey : string;
  sst_oldest_blob_file_number : N
}.

Record LevelMetaData := mkLevel {
  level : N;
  files : list SstFileMetaData
}.

Record ColumnFamilyMetaData := mkCFMeta {
  levels : list LevelMetaData
}.

Record LiveFileMetaData := mkLive {
  lf_size : N;
  lf_name : string;
  lf_file_number : N;
  lf_db_path : string;
  lf_smallest_seqno : N;
  lf_largest_seqno : N;
  lf_smallestkey : string;
  lf_largestkey : string;
  lf_oldest_blob_file_number : N;
  lf_level : N
}.

Record ExportImportFilesMetaData := mkExport {
  db_comparator_name : string;
  exp_files : list LiveFileMetaData
}.

(** [kUnknownFileChecksum] and [kUnknownFileChecksumFuncName]. *)
Definition kUnknownFileChecksum : string := "".
Definition kUnknownFileChecksumFuncName : string := "Unknown".

(** A [FileChecksumList]: file number to (checksum value, function name). *)
Abbreviation FileChecksumList := (gmap N (string * string)).

(** [SearchOneFileChecksum]: the outputs are written only when the number is
    in the list, otherwise the call returns NotFound and leaves them alone. *)
Definition SearchOneFileChecksum (l : FileChecksumList) (number : N)
    (checksum_value checksum_name : string) : Status * string * string :=
  match l !! number with
  | Some (v, n) => (St.OK, v, n)
  | None => (St.NotFound "", checksum_value, checksum_name)
  end.

(** A [Directory] handle returned by [NewDirectory]. *)
Definition Directory := string.

(** ** Events: one per call to a collaborator *)

Inductive Event :=
(* Env / FileSystem *)
| EFileExists (path : string) (r : Status)
| EGetChildren (path : string) (r : Status) (children : list string)
| EDeleteFile (path : string) (r : Status)
| EDeleteDir (path : string) (r : Status)
| ECreateDir (path : string) (r : Status)
| ERenameFile (src dst : string) (r : Status)
| ENewDirectory (path : string) (r : Status) (d : option Directory)
| EFsync (d : Directory) (r : Status)
| ELinkFile (src dst : string) (r : Status)
| ECopyFile (src dst : string) (size_limit : N) (fsync : bool) (r : Status)
| ECreateFile (path contents : string) (fsync : bool) (r : Status)
| ELoadOptionsFromFile (path : string) (r : Status) (o : DBOptions)
    (cfs : list ColumnFamilyDescriptor)
| EPersistRocksDBOptions (o : DBOptions) (names : list string)
    (opts : list N) (path : string) (r : Status)
(* DB *)
| EGetDBOptions (o : DBOptions)
| EDisableFileDeletions (r : Status)
| EEnableFileDeletions (force : bool) (r : Status)
| EGetLatestSequenceNumber (n : N)
| EGetSortedWalFiles (r : Status) (wals : list LogFile)
| EGetLiveFiles (flush_memtable : bool) (r : Status) (live : list string)
    (manifest_file_size : N)
| EGetMinLogNumberToKeep (found : bool) (n : N)
| EFlushWAL (sync : bool) (r : Status)
| EFlush (cf : string) (r : Status)
| EGetColumnFamilyMetaData (cf : string) (m : ColumnFamilyMetaData)
| EGetFileChecksumsFromManifest (path : string) (size : N) (r : Status)
    (l : FileChecksumList)
(* the std::function callbacks handed to CreateCustomCheckpoint *)
| ELinkCb (src_dirname fname : string) (type : FileType) (r : Status)
| ECopyCb (src_dirname fname : string) (size_limit_bytes : N)
    (type : FileType) (checksum_func_name checksum_val : string) (r : Status)
| ECreateCb (fname contents : string) (type : FileType) (r : Status)
(* the std::function callbacks handed to ExportFilesInMetaData *)
| EExportLinkCb (src_dirname fname : string) (r : Status)
| EExportCopyCb (src_dirname fname : string) (r : Status).

Abbreviation Trace := (list Event).

(** A [ColumnFamilyHandle]: its name and the name of its comparator. *)
Record ColumnFamilyHandle := mkHandle {
  cf_name : string;
  comparator_name : string
}.

(** ** The collaborators

    [GetName] is the directory of the source database (constant for an open
    DB).  [ParseFileName] (file/filename.h) and
    [ImmutableDBOptions::GetWalDir] are pure functions of the engine;
    [default_get_live_table_checksum] is the default argument of
    [CreateCustomCheckpoint] declared in checkpoint_impl.h.  The
    other members are the calls of [DB], [Env] and [FileSystem] the checkpoint
    code makes; each may read and change the world.  The last five are the
    callbacks a caller of [CreateCustomCheckpoint] or [ExportFilesInMetaData]
    supplies. *)
Class Collaborators (W : Type) := {
  GetName : string;
  ParseFileName : string -> option (N * FileType);
  GetWalDir : DBOptions -> string;
  default_get_live_table_checksum : bool;
  GetDBOptions_h : W -> DBOptions * W;
  FileExists_h : string -> W -> Status * W;
  GetChildren_h : string -> W -> (Status * list string) * W;
  DeleteFile_h : string -> W -> Status * W;
  DeleteDir_h : string -> W -> Status * W;
  CreateDir_h : string -> W -> Status * W;
  RenameFile_h : string -> string -> W -> Status * W;
  NewDirectory_h : string -> W -> (Status * option Directory) * W;
  Fsync_h : Directory -> W -> Status * W;
  LinkFile_h : string -> string -> W -> Status * W;
  CopyFile_h : string -> string -> N -> bool -> W -> Status * W;
  CreateFile_h : string -> string -> bool -> W -> Status * W;
  LoadOptionsFromFile_h :
    string -> W -> (Status * DBOptions * list ColumnFamilyDescriptor) * W;
  PersistRocksDBOptions_h :
    DBOptions -> list string -> list N -> string -> W -> Status * W;
  DisableFileDeletions_h : W -> Status * W;
  EnableFileDeletions_h : bool -> W -> Status * W;
  GetLatestSequenceNumber_h : W -> N * W;
  GetSortedWalFiles_h : W -> (Status * list LogFile) * W;
  GetLiveFiles_h : bool -> W -> (Status * list string * N) * W;
  GetMinLogNumberToKeep_h : W -> (bool * N) * W;
  FlushWAL_h : bool -> W -> Status * W;
  Flush_h : string -> W -> Status * W;
  GetColumnFamilyMetaData_h : string -> W -> ColumnFamilyMetaData * W;
  GetFileChecksumsFromManifest_h :
    string -> N -> W -> (Status * FileChecksumList) * W;
  link_cb_h : string -> string -> FileType -> W -> Status * W;
  copy_cb_h :
    string -> string -> N -> FileType -> string -> string -> W -> Status * W;
  create_cb_h : string -> string -> FileType -> W -> Status * W;
  export_link_cb_h : string -> string -> W -> Status * W;
  export_copy_cb_h : string -> string -> W -> Status * W
}.

(** ** The monad of a run: world passing, plus the trace of calls *)

Definition M (W A : Type) : Type := W -> A * W * Trace.

Definition ret {W A} (a : A) : M W A := fun w => (a, w, []).

Definition bind {W A B} (m : M W A) (f : A -> M W B) : M W B :=
  fun w =>
    let '(a, w1, t1) := m w in
    let '(b, w2, t2) := f a w1 in
    (b, w2, t1 ++ t2).

(** A call to a collaborator: run the handler, record the event. *)
Definition call {W R} (h : W -> R * W) (ev : R -> Event) : M W R :=
  fun w => let '(r, w') := h w in (r, w', [ev r]).

Definition result {W A} (x : A * W * Trace) : A := fst (fst x).
Definition world {W A} (x : A * W * Trace) : W := snd (fst x).
Definition trace {W A} (x : A * W * Trace) : Trace := snd x.

Declare Scope run_scope.
Delimit Scope run_scope with run.
Notation "x <- c ;; k" := (bind c (fun x => k))
  (at level 100, c at next level, k at level 200, right associativity)
  : run_scope.
Notation "'let*' p <- c ;; k" := (bind c (fun x => match x with p => k end))
  (at level 100, p pattern, c at next level, k at level 200,
   right associativity) : run_scope.
Notation "c ;;; k" := (bind c (fun _ => k))
  (at level 100, k at level 200, right associativity) : run_scope.
Local Open Scope run_scope.

(** [for (auto& x : l) body(x);] with a body that neither breaks nor
    continues. *)
Fixpoint for_each {W A} (l : list A) (body : A -> M W unit) : M W unit :=
  match l with
  | [] => ret tt
  | x :: l' => body x ;;; for_each l' body
  end.

(** ** The calls, as actions of the monad *)

Section Program.
Context {W : Type} {C : Collaborators W}.

Definition GetDBOptions : M W DBOptions := call GetDBOptions_h EGetDBOptions.
Definition FileExists (p : string) : M W Status :=
  call (FileExists_h p) (EFileExists p).
Definition GetChildren (p : string) : M W (Status * list string) :=
  call (GetChildren_h p) (fun r => EGetChildren p (fst r) (snd r)).
Definition DeleteFile (p : string) : M W Status :=
  call (DeleteFile_h p) (EDeleteFile p).
Definition DeleteDir (p : string) : M W Status :=
  call (DeleteDir_h p) (EDeleteDir p).
Definition CreateDir (p : string) : M W Status :=
  call (CreateDir_h p) (ECreateDir p).
Definition RenameFile (src dst : string) : M W Status :=
  call (RenameFile_h src dst) (ERenameFile src dst).
Definition NewDirectory (p : string) : M W (Status * option Directory) :=
  call (NewDirectory_h p) (fun r => ENewDirectory p (fst r) (snd r)).
Definition Fsync (d : Directory) : M W Status :=
  call (Fsync_h d) (EFsync d).
Definition LinkFile (src dst : string) : M W Status :=
  call (LinkFile_h src dst) (ELinkFile src dst).
Definition CopyFile (src dst : string) (size_limit : N) (fsync : bool)
    : M W Status :=
  call (CopyFile_h src dst size_limit fsync) (ECopyFile src dst size_limit fsync).
Definition CreateFile (path contents : string) (fsync : bool) : M W Status :=
  call (CreateFile_h path contents fsync) (ECreateFile path contents fsync).
Definition LoadOptionsFromFile (path : string)
    : M W (Status * DBOptions * list ColumnFamilyDescriptor) :=
  call (LoadOptionsFromFile_h path)
       (fun r => ELoadOptionsFromFile path (fst (fst r)) (snd (fst r)) (snd r)).
Definition PersistRocksDBOptions (o : DBOptions) (names : list string)
    (opts : list N) (path : string) : M W Status :=
  call (PersistRocksDBOptions_h o names opts path)
       (EPersistRocksDBOptions o names opts path).
Definition DisableFileDeletions : M W Status :=
  call DisableFileDeletions_h EDisableFileDeletions.
Definition EnableFileDeletions (force : bool) : M W Status :=
  call (EnableFileDeletions_h force) (EEnableFileDeletions force).
Definition GetLatestSequenceNumber : M W N :=
  call GetLatestSequenceNumber_h EGetLatestSequenceNumber.
Definition GetSortedWalFiles : M W (Status * list LogFile) :=
  call GetSortedWalFiles_h (fun r => EGetSortedWalFiles (fst r) (snd r)).
Definition GetLiveFiles (flush_memtable : bool)
    : M W (Status * list string * N) :=
  call (GetLiveFiles_h flush_memtable)
       (fun r => EGetLiveFiles flush_memtable (fst (fst r)) (snd (fst r))
                   (snd r)).
Definition GetMinLogNumberToKeep : M W (bool * N) :=
  call GetMinLogNumberToKeep_h
       (fun r => EGetMinLogNumberToKeep (fst r) (snd r)).
Definition FlushWAL (sync : bool) : M W Status :=
  call (FlushWAL_h sync) (EFlushWAL sync).
Definition Flush (cf : string) : M W Status := call (Flush_h cf) (EFlush cf).
Definition GetColumnFamilyMetaData (cf : string) : M W ColumnFamilyMetaData :=
  call (GetColumnFamilyMetaData_h cf) (EGetColumnFamilyMetaData cf).
Definition GetFileChecksumsFromManifest (path : string) (size : N)
    : M W (Status * FileChecksumList) :=
  call (GetFileChecksumsFromManifest_h path size)
       (fun r => EGetFileChecksumsFromManifest path size (fst r) (snd r)).

(** Callbacks that are opaque to the checkpoint code: all it sees of them is
    the status they return. *)
Definition link_cb (src_dirname fname : string) (type : FileType)
    : M W Status :=
  call (link_cb_h src_dirname fname type) (ELinkCb src_dirname fname type).
Definition copy_cb (src_dirname fname : string) (size_limit_bytes : N)
    (type : FileType) (checksum_func_name checksum_val : string)
    : M W Status :=
  call (copy_cb_h src_dirname fname size_limit_bytes type checksum_func_name
          checksum_val)
       (ECopyCb src_dirname fname size_limit_bytes type checksum_func_name
          checksum_val).
Definition create_cb (fname contents : string) (type : FileType)
    : M W Status :=
  call (create_cb_h fname contents type) (ECreateCb fname contents type).
Definition export_link_cb (src_dirname fname : string) : M W Status :=
  call (export_link_cb_h src_dirname fname) (EExportLinkCb src_dirname fname).
Definition export_copy_cb (src_dirname fname : string) : M W Status :=
  call (export_copy_cb_h src_dirname fname) (EExportCopyCb src_dirname fname).

(** ** CheckpointImpl::CleanStagingDirectory *)

Definition CleanStagingDirectory (full_private_path : string) : M W unit :=
  s <- FileExists full_private_path ;;
  if IsNotFound s then ret tt
  else
    let* (s, subchildren) <- GetChildren full_private_path ;;
    (if ok s then
       for_each subchildren (fun subchild =>
         let subchild_path := full_private_path +:+ "/" +:+ subchild in
         _ <- DeleteFile subchild_path ;; ret tt)
     else ret tt) ;;;
    (* finally delete the private dir *)
    _ <- DeleteDir full_private_path ;;
    ret tt.

(** ** CheckpointImpl::CopyOptionsFile *)

Definition CopyOptionsFile (src_file target_file db_log_dir wal_dir : string)
    : M W Status :=
  let* (s, src_db_options, src_cf_descs) <- LoadOptionsFromFile src_file ;;
  if negb (ok s) then ret s
  else
    (* Override these 2 options *)
    let src_db_options :=
      {| allow_2pc := allow_2pc src_db_options;
         use_fsync := use_fsync src_db_options;
         db_log_dir := db_log_dir;
         wal_dir := wal_dir |} in
    let src_cf_names := map cfd_name src_cf_descs in
    let src_cf_opts := map cfd_options src_cf_descs in
    PersistRocksDBOptions src_db_options src_cf_names src_cf_opts target_file.

(** ** CheckpointImpl::CreateCustomCheckpoint *)

(** The accumulation [total_wal_size += wal->SizeFileBytes()] on [uint64_t]. *)
Definition total_wal_size (live_wal_files : list LogFile) : N :=
  fold_left (fun total wal => add64 total (SizeFileBytes wal))
            live_wal_files 0.

(** The flush decision (the block that sets [flush_memtable]).  The status is
    the one of [GetSortedWalFiles] when that call was made and failed, in
    which case [CreateCustomCheckpoint] returns it at once. *)
Definition decide_flush_memtable (db_options : DBOptions)
    (log_size_for_flush : N) : M W (Status * bool) :=
  let flush_memtable := true in
  if negb (allow_2pc db_options) then
    if log_size_for_flush =? kMaxUint64 then ret (St.OK, false)
    else if 0 <? log_size_for_flush then
      (* If out standing log files are small, we skip the flush. *)
      let* (s, live_wal_files) <- GetSortedWalFiles ;;
      if negb (ok s) then ret (s, flush_memtable)
      else
        if total_wal_size live_wal_files <? log_size_for_flush
        then ret (s, false)
        else ret (s, flush_memtable)
    else ret (St.OK, flush_memtable)
  else ret (St.OK, flush_memtable).

Section Transfer.
Variable link_file_cb : string -> string -> FileType -> M W Status.
Variable copy_file_cb :
  string -> string -> N -> FileType -> string -> string -> M W Status.
Variable create_file_cb : string -> string -> FileType -> M W Status.

(** The state of the loop over [live_files]: the status, [manifest_fname],
    [current_fname] and [live_table_and_blob_files]. *)
Definition LiveState : Type :=
  Status * string * string * list (string * N * FileType).

(** process live files, non-table, non-blob files first *)
Fixpoint process_live_files (manifest_file_size : N)
    (live_files : list string) (st : LiveState) : M W LiveState :=
  match live_files with
  | [] => ret st
  | live_file :: rest =>
      let '(s, manifest_fname, current_fname, live_table_and_blob_files) :=
        st in
      if negb (ok s) then ret st
      else
        match ParseFileName live_file with
        | None =>
            ret (St.Corruption "Can't parse file name. This is very bad",
                 manifest_fname, current_fname, live_table_and_blob_files)
        | Some (number, type) =>
            if FileType_eqb type kCurrentFile then
              (* the current file is crafted manually later *)
              process_live_files manifest_file_size rest
                (s, manifest_fname, live_file, live_table_and_blob_files)
            else
              let manifest_fname :=
                if FileType_eqb type kDescriptorFile then live_file
                else manifest_fname in
              if negb (FileType_eqb type kTableFile)
                 && negb (FileType_eqb type kBlobFile) then
                (* copy non-table, non-blob files here *)
                s <- copy_file_cb GetName live_file
                       (if FileType_eqb type kDescriptorFile
                        then manifest_file_size else 0)
                       type kUnknownFileChecksumFuncName kUnknownFileChecksum ;;
                process_live_files manifest_file_size rest
                  (s, manifest_fname, current_fname, live_table_and_blob_files)
              else
                (* process table and blob files below *)
                process_live_files manifest_file_size rest
                  (s, manifest_fname, current_fname,
                   live_table_and_blob_files ++ [(live_file, number, type)])
        end
  end.

(** The body shared by the table/blob loop and the WAL loop:
    [if (same_fs) { s = link...; if (s.IsNotSupported()) { same_fs = false;
    s = Status::OK(); } }]. *)
Definition try_link (src_dirname fname : string) (type : FileType)
    (s : Status) (same_fs : bool) : M W (Status * bool) :=
  if same_fs then
    s <- link_file_cb src_dirname fname type ;;
    if IsNotSupported s then ret (St.OK, false) else ret (s, same_fs)
  else ret (s, same_fs).

(** copy/hard link live table and blob files *)
Fixpoint transfer_table_and_blob_files (get_live_table_checksum : bool)
    (checksum_list : FileChecksumList)
    (live_table_and_blob_files : list (string * N * FileType))
    (st : Status * bool) : M W (Status * bool) :=
  match live_table_and_blob_files with
  | [] => ret st
  | (src_fname, number, type) :: rest =>
      let '(s, same_fs) := st in
      if negb (ok s) then ret st
      else
        let* (s, same_fs) <- try_link GetName src_fname type s same_fs ;;
        s <- (if negb same_fs then
                let checksum_name := kUnknownFileChecksumFuncName in
                let checksum_value := kUnknownFileChecksum in
                let '(_, checksum_value, checksum_name) :=
                  if get_live_table_checksum
                  then SearchOneFileChecksum checksum_list number
                         checksum_value checksum_name
                  else (St.OK, checksum_value, checksum_name) in
                copy_file_cb GetName src_fname 0 type checksum_name
                  checksum_value
              else ret s) ;;
        transfer_table_and_blob_files get_live_table_checksum checksum_list
          rest (s, same_fs)
  end.

(** Link WAL files. Copy exact size of last one because it is the only one
    that has changes after the last flush.  [i] is the index of the head of
    [live_wal_files] in the whole vector, [wal_size] the size of the vector. *)
Fixpoint transfer_wal_files (wal_dir : string) (flush_memtable : bool)
    (min_log_num : N) (wal_size : N) (i : N) (live_wal_files : list LogFile)
    (st : Status * bool) : M W (Status * bool) :=
  match live_wal_files with
  | [] => ret st
  | wal :: rest =>
      let '(s, same_fs) := st in
      if negb (ok s) then ret st
      else if is_alive wal
              && (negb flush_memtable || (min_log_num <=? LogNumber wal)) then
        if i + 1 =? wal_size then
          s <- copy_file_cb wal_dir (PathName wal) (SizeFileBytes wal)
                 kWalFile kUnknownFileChecksumFuncName kUnknownFileChecksum ;;
          ret (s, same_fs)
        else
          (* we only care about live log files *)
          let* (s, same_fs) <- try_link wal_dir (PathName wal) kWalFile s
                                 same_fs ;;
          s <- (if negb same_fs then
                  copy_file_cb wal_dir (PathName wal) 0 kWalFile
                    kUnknownFileChecksumFuncName kUnknownFileChecksum
                else ret s) ;;
          transfer_wal_files wal_dir flush_memtable min_log_num wal_size
            (i + 1) rest (s, same_fs)
      else
        transfer_wal_files wal_dir flush_memtable min_log_num wal_size
          (i + 1) rest (s, same_fs)
  end.

(** The second half of [CreateCustomCheckpoint], from [size_t wal_size =
    live_wal_files.size()] to the end: the transfer of the files listed by
    the enumeration before it.  [s] is the status on entry. *)
Definition transfer_live_files (db_options : DBOptions)
    (get_live_table_checksum flush_memtable : bool)
    (min_log_num manifest_file_size : N) (live_files : list string)
    (live_wal_files : list LogFile) (s : Status) : M W Status :=
  let same_fs := true in
  let wal_size := N.of_nat (List.length live_wal_files) in
  let* (s, manifest_fname, current_fname, live_table_and_blob_files) <-
    process_live_files manifest_file_size live_files (s, "", "", []) ;;
  (* get checksum info for table and blob files *)
  let* (s, checksum_list) <-
    (if ok s && get_live_table_checksum then
       GetFileChecksumsFromManifest (GetName +:+ manifest_fname)
         manifest_file_size
     else ret (s, ∅)) ;;
  let* (s, same_fs) <-
    transfer_table_and_blob_files get_live_table_checksum checksum_list
      live_table_and_blob_files (s, same_fs) ;;
  s <- (if ok s && negb (empty current_fname) && negb (empty manifest_fname)
        then create_file_cb current_fname
               (substr_from manifest_fname 1 +:+ newline) kCurrentFile
        else ret s) ;;
  let wal_dir := GetWalDir db_options in
  let* (s, same_fs) <-
    transfer_wal_files wal_dir flush_memtable min_log_num wal_size 0
      live_wal_files (s, same_fs) ;;
  ret s.

(** The result is the returned status and the value stored through
    [sequence_number]. *)
Definition CreateCustomCheckpoint (db_options : DBOptions)
    (log_size_for_flush : N) (get_live_table_checksum : bool)
    : M W (Status * N) :=
  sequence_number <- GetLatestSequenceNumber ;;
  let* (s, flush_memtable) <-
    decide_flush_memtable db_options log_size_for_flush ;;
  if negb (ok s) then ret (s, sequence_number)
  else
  (* this will return live_files prefixed with "/" *)
  let* (s, live_files, manifest_file_size) <- GetLiveFiles flush_memtable ;;
  let* (found, min_log_num) <- GetMinLogNumberToKeep ;;
  if negb found then
    ret (St.InvalidArgument "cannot get the min log number to keep.",
         sequence_number)
  else
  let* (s, live_files, manifest_file_size) <- GetLiveFiles flush_memtable ;;
  s <- (if ok s then FlushWAL false else ret s) ;;
  (* if we have more than one column family, we need to also get WAL files *)
  let* (s, live_wal_files) <-
    (if ok s then GetSortedWalFiles else ret (s, [])) ;;
  if negb (ok s) then ret (s, sequence_number)
  else
  s <- transfer_live_files db_options get_live_table_checksum flush_memtable
         min_log_num manifest_file_size live_files live_wal_files s ;;
  ret (s, sequence_number).

End Transfer.

(** ** CheckpointImpl::CreateCheckpoint *)

(** Remove the last [/]s if needed:
    [dir.empty() ? "" : dir.substr(0, dir.find_last_not_of('/') + 1)]. *)
Definition strip_slashes (dir : string) : string :=
  if empty dir then ""
  else substr dir 0 (add64 (find_last_not_of dir slash) 1).

(** Info log files are not copied or linked, just update the option value. *)
Definition value_log_dir (parsed_log_dir parsed_checkpoint_dir : string)
    : string :=
  if String.eqb parsed_log_dir GetName
     || String.eqb parsed_log_dir parsed_checkpoint_dir
  then "" else parsed_log_dir.

(** The test [parsed_wal_dir.empty() || parsed_wal_dir == db_->GetName() ||
    parsed_wal_dir == parsed_checkpoint_dir]. *)
Definition wal_dir_is_local (parsed_wal_dir parsed_checkpoint_dir : string)
    : bool :=
  empty parsed_wal_dir || String.eqb parsed_wal_dir GetName
  || String.eqb parsed_wal_dir parsed_checkpoint_dir.

(** Option value to override *)
Definition value_wal_dir (parsed_wal_dir parsed_checkpoint_dir : string)
    : string :=
  if wal_dir_is_local parsed_wal_dir parsed_checkpoint_dir
  then parsed_checkpoint_dir else parsed_wal_dir.

(** The target location to copy/link WAL files *)
Definition new_wal_dir (parsed_wal_dir parsed_checkpoint_dir : string)
    : string :=
  let full_private_path := parsed_checkpoint_dir +:+ ".tmp" in
  if wal_dir_is_local parsed_wal_dir parsed_checkpoint_dir
  then full_private_path (* Copy to the temp dir *)
  else
    let prefix := parsed_checkpoint_dir +:+ "/" in
    (* If checkpoint_dir is parent of wal_dir, create the wal dir inside the
       tmp dir; otherwise, create it directly. *)
    if rfind_at0 parsed_wal_dir prefix =? 0
    then full_private_path +:+ "/"
         +:+ substr_from parsed_wal_dir (String.length prefix)
    else parsed_wal_dir.

(** The three lambdas handed to [CreateCustomCheckpoint]. *)
Definition checkpoint_link_file_cb (full_private_path new_wal_dir : string)
    (src_dirname fname : string) (type : FileType) : M W Status :=
  (* WAL file links may be created in another location. *)
  LinkFile (src_dirname +:+ fname)
    ((if FileType_eqb type kWalFile then new_wal_dir else full_private_path)
     +:+ fname).

Definition checkpoint_copy_file_cb (db_options : DBOptions)
    (full_private_path new_wal_dir value_log_dir value_wal_dir : string)
    (src_dirname fname : string) (size_limit_bytes : N) (type : FileType)
    (checksum_func_name checksum_val : string) : M W Status :=
  if FileType_eqb type kOptionsFile then
    (* Modify and rewrite option files *)
    CopyOptionsFile (src_dirname +:+ fname) (full_private_path +:+ fname)
      value_log_dir value_wal_dir
  else
    (* Copy other files. WAL files may be copied to another location. *)
    CopyFile (src_dirname +:+ fname)
      ((if FileType_eqb type kWalFile then new_wal_dir else full_private_path)
       +:+ fname)
      size_limit_bytes (use_fsync db_options).

Definition checkpoint_create_file_cb (db_options : DBOptions)
    (full_private_path : string) (fname contents : string) (type : FileType)
    : M W Status :=
  CreateFile (full_private_path +:+ fname) contents (use_fsync db_options).

(** The steps after the transfer: move the staging directory into place and
    fsync it, or clean up.  [sequence_number_ptr] tells whether the caller
    passed a non-null pointer; the second component of the result is the value
    stored through it, if any. *)
Definition finish_checkpoint (full_private_path parsed_checkpoint_dir : string)
    (sequence_number_ptr : bool) (s : Status) (sequence_number : N)
    : M W (Status * option N) :=
  s <- (if ok s then
          (* move tmp private backup to real snapshot directory *)
          RenameFile full_private_path parsed_checkpoint_dir
        else ret s) ;;
  s <- (if ok s then
          let* (s, checkpoint_directory) <-
            NewDirectory parsed_checkpoint_dir ;;
          match checkpoint_directory with
          | Some d => if ok s then Fsync d else ret s
          | None => ret s
          end
        else ret s) ;;
  if ok s then
    (* here we know that we succeeded and installed the new snapshot *)
    ret (s, if sequence_number_ptr then Some sequence_number else None)
  else
    (* clean all the files we might have created *)
    CleanStagingDirectory full_private_path ;;;
    ret (s, None).

Definition CreateCheckpoint (checkpoint_dir : string) (log_size_for_flush : N)
    (sequence_number_ptr : bool) (db_log_dir wal_dir : string)
    : M W (Status * option N) :=
  db_options <- GetDBOptions ;;
  s <- FileExists checkpoint_dir ;;
  if ok s then ret (St.InvalidArgument "Directory exists", None)
  else if negb (IsNotFound s) then ret (s, None)
  else
  let final_nonslash_idx := find_last_not_of checkpoint_dir slash in
  if final_nonslash_idx =? npos then
    (* npos means it's only slashes or empty. *)
    ret (St.InvalidArgument "invalid checkpoint directory name", None)
  else
  let parsed_checkpoint_dir :=
    substr checkpoint_dir 0 (add64 final_nonslash_idx 1) in
  let full_private_path := parsed_checkpoint_dir +:+ ".tmp" in
  CleanStagingDirectory full_private_path ;;;
  (* create snapshot directory *)
  s <- CreateDir full_private_path ;;
  let parsed_log_dir := strip_slashes db_log_dir in
  let parsed_wal_dir := strip_slashes wal_dir in
  let value_log_dir := value_log_dir parsed_log_dir parsed_checkpoint_dir in
  let value_wal_dir := value_wal_dir parsed_wal_dir parsed_checkpoint_dir in
  let new_wal_dir := new_wal_dir parsed_wal_dir parsed_checkpoint_dir in
  s <- (if wal_dir_is_local parsed_wal_dir parsed_checkpoint_dir then ret s
        else
          s <- FileExists new_wal_dir ;;
          if IsNotFound s then CreateDir new_wal_dir else ret s) ;;
  let* (s, sequence_number) <-
    (if ok s then
       s <- DisableFileDeletions ;;
       let disabled_file_deletions := ok s in
       if ok s || IsNotSupported s then
         let* (s, sequence_number) <-
           CreateCustomCheckpoint
             (checkpoint_link_file_cb full_private_path new_wal_dir)
             (checkpoint_copy_file_cb db_options full_private_path new_wal_dir
                value_log_dir value_wal_dir)
             (checkpoint_create_file_cb db_options full_private_path)
             db_options log_size_for_flush default_get_live_table_checksum ;;
         (* we copied all the files, enable file deletions *)
         (if disabled_file_deletions then
            _ <- EnableFileDeletions false ;; ret tt
          else ret tt) ;;;
         ret (s, sequence_number)
       else ret (s, 0)
     else ret (s, 0)) ;;
  finish_checkpoint full_private_path parsed_checkpoint_dir
    sequence_number_ptr s sequence_number.

(** ** CheckpointImpl::ExportFilesInMetaData *)

Section Exporting.
Variable link_file_cb : string -> string -> M W Status.
Variable copy_file_cb : string -> string -> M W Status.

(** The state of the loops: the status, [hardlink_file] and [num_files]
    (a [size_t] that counts elements of vectors, so it never wraps). *)
Definition ExportState : Type := Status * bool * N.

(** The inner loop, over the files of one level.  A [break] leaves this loop
    only: the loop over the levels goes on with the next level. *)
Fixpoint export_level_files (level_files : list SstFileMetaData)
    (st : ExportState) : M W ExportState :=
  match level_files with
  | [] => ret st
  | file_metadata :: rest =>
      let '(s, hardlink_file, num_files) := st in
      match ParseFileName (sst_name file_metadata) with
      | None =>
          ret (St.Corruption "Could not parse file name", hardlink_file,
               num_files)
      | Some (number, type) =>
          (* We should only get sst files here. *)
          let src_fname := sst_name file_metadata in
          let num_files := num_files + 1 in
          let* (s, hardlink_file) <-
            (if hardlink_file then
               s <- link_file_cb GetName src_fname ;;
               if (num_files =? 1) && IsNotSupported s then
                 (* Fallback to copy if link failed due to cross-device
                    directories. *)
                 ret (St.OK, false)
               else ret (s, hardlink_file)
             else ret (s, hardlink_file)) ;;
          s <- (if negb hardlink_file then copy_file_cb GetName src_fname
                else ret s) ;;
          if negb (ok s) then ret (s, hardlink_file, num_files)
          else export_level_files rest (s, hardlink_file, num_files)
      end
  end.

Fixpoint export_levels (lvls : list LevelMetaData) (st : ExportState)
    : M W ExportState :=
  match lvls with
  | [] => ret st
  | level_metadata :: rest =>
      st <- export_level_files (files level_metadata) st ;;
      export_levels rest st
  end.

Definition ExportFilesInMetaData (db_options : DBOptions)
    (metadata : ColumnFamilyMetaData) : M W Status :=
  let hardlink_file := true in
  (* Copy/hard link files in metadata. *)
  let num_files := 0 in
  let* (s, _, _) <-
    export_levels (levels metadata) (St.OK, hardlink_file, num_files) ;;
  ret s.

End Exporting.

(** ** CheckpointImpl::ExportColumnFamily *)

(** The memory the out-parameter [ExportImportFilesMetaData** metadata] lives
    in: the heap of [ExportImportFilesMetaData] objects and the caller's
    pointer [*metadata] ([None] is [nullptr]). *)
Record Memory := mkMemory {
  heap : gmap positive ExportImportFilesMetaData;
  metadata_ptr : option positive
}.

(** [new ExportImportFilesMetaData()] *)
Definition new_metadata (m : Memory) : positive * Memory :=
  let p := fresh (dom (heap m)) in
  (p, {| heap := <[p := mkExport "" []]> (heap m);
         metadata_ptr := metadata_ptr m |}).

(** [p->db_comparator_name = name] *)
Definition set_comparator_name (p : positive) (name : string) (m : Memory)
    : Memory :=
  {| heap := alter (fun o => mkExport name (exp_files o)) p (heap m);
     metadata_ptr := metadata_ptr m |}.

(** [p->files.push_back(f)] *)
Definition push_back_file (p : positive) (f : LiveFileMetaData) (m : Memory)
    : Memory :=
  {| heap := alter (fun o => mkExport (db_comparator_name o)
                                      (exp_files o ++ [f])) p (heap m);
     metadata_ptr := metadata_ptr m |}.

(** [*metadata = p] *)
Definition store_metadata_ptr (p : positive) (m : Memory) : Memory :=
  {| heap := heap m; metadata_ptr := Some p |}.

(** What the caller reads through [*metadata] afterwards. *)
Definition read_metadata (m : Memory) : option ExportImportFilesMetaData :=
  match metadata_ptr m with
  | Some p => heap m !! p
  | None => None
  end.

Definition live_file_metadata_of (export_dir : string)
    (level_metadata : LevelMetaData) (file_metadata : SstFileMetaData)
    : LiveFileMetaData :=
  {| lf_size := sst_size file_metadata;
     lf_name := sst_name file_metadata;
     lf_file_number := sst_file_number file_metadata;
     lf_db_path := export_dir;
     lf_smallest_seqno := sst_smallest_seqno file_metadata;
     lf_largest_seqno := sst_largest_seqno file_metadata;
     lf_smallestkey := sst_smallestkey file_metadata;
     lf_largestkey := sst_largestkey file_metadata;
     lf_oldest_blob_file_number := sst_oldest_blob_file_number file_metadata;
     lf_level := level level_metadata |}.

Fixpoint fill_level_files (export_dir : string) (result_metadata : positive)
    (level_metadata : LevelMetaData) (level_files : list SstFileMetaData)
    (m : Memory) : Memory :=
  match level_files with
  | [] => m
  | file_metadata :: rest =>
      let live_file_metadata :=
        live_file_metadata_of export_dir level_metadata file_metadata in
      fill_level_files export_dir result_metadata level_metadata rest
        (push_back_file result_metadata live_file_metadata m)
  end.

(** The loop over [db_metadata.levels]; the assignment
    [*metadata = result_metadata] is the last statement of its body. *)
Fixpoint fill_levels (export_dir : string) (result_metadata : positive)
    (lvls : list LevelMetaData) (m : Memory) : Memory :=
  match lvls with
  | [] => m
  | level_metadata :: rest =>
      let m := fill_level_files export_dir result_metadata level_metadata
                 (files level_metadata) m in
      let m := store_metadata_ptr result_metadata m in
      fill_levels export_dir result_metadata rest m
  end.

Definition export_link_file_cb (tmp_export_dir : string)
    (src_dirname fname : string) : M W Status :=
  LinkFile (src_dirname +:+ fname) (tmp_export_dir +:+ fname).

Definition export_copy_file_cb (db_options : DBOptions)
    (tmp_export_dir : string) (src_dirname fname : string) : M W Status :=
  CopyFile (src_dirname +:+ fname) (tmp_export_dir +:+ fname) 0
    (use_fsync db_options).

(** Failure: Clean up all the files/directories created. *)
Definition export_cleanup (cleanup_dir : string) : M W unit :=
  let* (_, subchildren) <- GetChildren cleanup_dir ;;
  for_each subchildren (fun subchild =>
    let subchild_path := cleanup_dir +:+ "/" +:+ subchild in
    _ <- DeleteFile subchild_path ;; ret tt) ;;;
  _ <- DeleteDir cleanup_dir ;;
  ret tt.

Definition ExportColumnFamily (handle : ColumnFamilyHandle)
    (export_dir : string) (mem : Memory) : M W (Status * Memory) :=
  let cf_name := cf_name handle in
  db_options <- GetDBOptions ;;
  s <- FileExists export_dir ;;
  if ok s then ret (St.InvalidArgument "Specified export_dir exists", mem)
  else if negb (IsNotFound s) then ret (s, mem)
  else
  let final_nonslash_idx := find_last_not_of export_dir slash in
  if final_nonslash_idx =? npos then
    ret (St.InvalidArgument "Specified export_dir invalid", mem)
  else
  (* Create a temporary export directory. *)
  let tmp_export_dir :=
    substr export_dir 0 (add64 final_nonslash_idx 1) +:+ ".tmp" in
  s <- CreateDir tmp_export_dir ;;
  s <- (if ok s then Flush cf_name else ret s) ;;
  let db_metadata := mkCFMeta [] in
  let* (s, db_metadata) <-
    (if ok s then
       (* Export live sst files with file deletions disabled. *)
       s <- DisableFileDeletions ;;
       if ok s then
         db_metadata <- GetColumnFamilyMetaData cf_name ;;
         s <- ExportFilesInMetaData (export_link_file_cb tmp_export_dir)
                (export_copy_file_cb db_options tmp_export_dir)
                db_options db_metadata ;;
         enable_status <- EnableFileDeletions false ;;
         ret (if ok s then enable_status else s, db_metadata)
       else ret (s, db_metadata)
     else ret (s, db_metadata)) ;;
  let moved_to_user_specified_dir := false in
  s <- (if ok s then
          (* Move temporary export directory to the actual export directory. *)
          RenameFile tmp_export_dir export_dir
        else ret s) ;;
  let* (s, moved_to_user_specified_dir) <-
    (if ok s then
       (* Fsync export directory. *)
       let* (s, dir_ptr) <- NewDirectory export_dir ;;
       s <- (match dir_ptr with
             | Some d => if ok s then Fsync d else ret s
             | None => ret s
             end) ;;
       ret (s, true)
     else ret (s, moved_to_user_specified_dir)) ;;
  if ok s then
    (* Export of files succeeded. Fill in the metadata information. *)
    let '(result_metadata, mem) := new_metadata mem in
    let mem :=
      set_comparator_name result_metadata (comparator_name handle) mem in
    let mem := fill_levels export_dir result_metadata (levels db_metadata)
                 mem in
    ret (s, mem)
  else
    let cleanup_dir :=
      if moved_to_user_specified_dir then export_dir else tmp_export_dir in
    export_cleanup cleanup_dir ;;;
    ret (s, mem).

End Program.

(** ** A simulated engine and file system *)

(** Modelled from the spec: the collaborators of section 6 (the engine's
    live-file, WAL and metadata queries, and the file-system primitives:
    existence check, create directory, delete file, delete directory, rename,
    hard link, copy, create).  Their code is not part of the checkpoint
    source.  This is one small deterministic instance of the interface, used
    to run the checkpoint code on concrete inputs. *)
Module Sim.

Record World := mkWorld {
  dirs : list string;           (* directories that exist *)
  regular : list string;        (* regular files that exist *)
  other_device : list string;   (* files that cannot be hard-linked *)
  broken : list string;         (* paths on which every operation fails *)
  live_files : list string;
  manifest_file_size : N;
  wal_files : list LogFile;
  min_log_number_to_keep : N;
  latest_sequence_number : N;
  options : DBOptions;
  cf_metadata : ColumnFamilyMetaData;
  deletions_disabled : bool
}.

Definition mem (p : string) (l : list string) : bool :=
  existsb (String.eqb p) l.

Definition set_fs (w : World) (d r : list string) : World :=
  mkWorld d r (other_device w) (broken w) (live_files w)
    (manifest_file_size w) (wal_files w) (min_log_number_to_keep w)
    (latest_sequence_number w) (options w) (cf_metadata w)
    (deletions_disabled w).

Definition set_deletions_disabled (w : World) (b : bool) : World :=
  mkWorld (dirs w) (regular w) (other_device w) (broken w) (live_files w)
    (manifest_file_size w) (wal_files w) (min_log_number_to_keep w)
    (latest_sequence_number w) (options w) (cf_metadata w) b.

Definition exists_path (w : World) (p : string) : bool :=
  mem p (dirs w) || mem p (regular w).

Fixpoint has_slash (s : string) : bool :=
  match s with
  | EmptyString => false
  | String c s' => Ascii.eqb c slash || has_slash s'
  end.

(** The name of [p] inside directory [d], when [p] is directly inside it. *)
Definition child_name (d p : string) : option string :=
  if String.prefix (d +:+ "/") p then
    let n := substr_from p (String.length d + 1) in
    if empty n || has_slash n then None else Some n
  else None.

Definition children (w : World) (d : string) : list string :=
  omap (child_name d) (dirs w ++ regular w).

Definition remove (p : string) (l : list string) : list string :=
  filter (fun q => negb (String.eqb p q)) l.

(** [p] after the directory [src] was renamed to [dst]. *)
Definition moved (src dst p : string) : string :=
  if String.eqb p src then dst
  else if String.prefix (src +:+ "/") p
       then dst +:+ substr_from p (String.length src)
       else p.

Definition io_error : Status := St.IOError "simulated".

Definition FileExists (p : string) (w : World) : Status * World :=
  if mem p (broken w) then (io_error, w)
  else if exists_path w p then (St.OK, w) else (St.NotFound "", w).

Definition GetChildren (p : string) (w : World)
    : (Status * list string) * World :=
  if mem p (broken w) then ((io_error, []), w)
  else if mem p (dirs w) then ((St.OK, children w p), w)
  else ((St.NotFound "", []), w).

Definition DeleteFile (p : string) (w : World) : Status * World :=
  if mem p (broken w) then (io_error, w)
  else if mem p (regular w)
       then (St.OK, set_fs w (dirs w) (remove p (regular w)))
       else (St.NotFound "", w).

Definition DeleteDir (p : string) (w : World) : Status * World :=
  if mem p (broken w) then (io_error, w)
  else if mem p (dirs w) && match children w p with [] => true | _ => false end
       then (St.OK, set_fs w (remove p (dirs w)) (regular w))
       else (io_error, w).

Definition CreateDir (p : string) (w : World) : Status * World :=
  if mem p (broken w) || exists_path w p then (io_error, w)
  else (St.OK, set_fs w (p :: dirs w) (regular w)).

Definition RenameFile (src dst : string) (w : World) : Status * World :=
  if mem src (broken w) || mem dst (broken w) || negb (exists_path w src)
     || exists_path w dst
  then (io_error, w)
  else (St.OK, set_fs w (map (moved src dst) (dirs w))
                        (map (moved src dst) (regular w))).

Definition NewDirectory (p : string) (w : World)
    : (Status * option Directory) * World :=
  if mem p (broken w) || negb (mem p (dirs w)) then ((io_error, None), w)
  else ((St.OK, Some p), w).

Definition Fsync (d : Directory) (w : World) : Status * World :=
  if mem (d +:+ "/") (broken w) then (io_error, w) else (St.OK, w).

Definition add_file (src dst : string) (w : World) : Status * World :=
  if mem dst (broken w) || negb (mem src (regular w)) || exists_path w dst
  then (io_error, w)
  else (St.OK, set_fs w (dirs w) (dst :: regular w)).

Definition LinkFile (src dst : string) (w : World) : Status * World :=
  if mem src (other_device w) then (St.NotSupported "", w)
  else add_file src dst w.

Definition CopyFile (src dst : string) (size_limit : N) (fsync : bool)
    (w : World) : Status * World :=
  add_file src dst w.

Definition CreateFile (path contents : string) (fsync : bool) (w : World)
    : Status * World :=
  if mem path (broken w) || exists_path w path then (io_error, w)
  else (St.OK, set_fs w (dirs w) (path :: regular w)).

Definition LoadOptionsFromFile (path : string) (w : World)
    : (Status * DBOptions * list ColumnFamilyDescriptor) * World :=
  if mem path (regular w) then ((St.OK, options w, []), w)
  else ((io_error, options w, []), w).

Definition PersistRocksDBOptions (o : DBOptions) (names : list string)
    (opts : list N) (path : string) (w : World) : Status * World :=
  CreateFile path "" false w.

Definition DisableFileDeletions (w : World) : Status * World :=
  (St.OK, set_deletions_disabled w true).

Definition EnableFileDeletions (force : bool) (w : World) : Status * World :=
  (St.OK, set_deletions_disabled w false).

(** File names as the engine writes them: [CURRENT], [MANIFEST-<n>],
    [OPTIONS-<n>], [<n>.sst], [<n>.blob], [<n>.log], after a leading [/]. *)
Definition digit (c : ascii) : option N :=
  let n := N_of_ascii c in
  if (48 <=? n) && (n <=? 57) then Some (n - 48) else None.

Fixpoint consume_decimal (s : string) (acc : option N)
    : option N * string :=
  match s with
  | EmptyString => (acc, s)
  | String c s' =>
      match digit c with
      | Some d =>
          consume_decimal s'
            (Some (10 * match acc with Some a => a | None => 0 end + d))
      | None => (acc, s)
      end
  end.

Definition after_prefix (p s : string) : option string :=
  if String.prefix p s then Some (substr_from s (String.length p)) else None.

Definition number_only (s : string) (t : FileType)
    : option (N * FileType) :=
  match consume_decimal s None with
  | (Some n, EmptyString) => Some (n, t)
  | _ => None
  end.

Definition parse_file_name (fname : string) : option (N * FileType) :=
  let rest := match after_prefix "/" fname with
              | Some r => if empty r then fname else r
              | None => fname
              end in
  if String.eqb rest "CURRENT" then Some (0, kCurrentFile)
  else match after_prefix "MANIFEST-" rest with
  | Some r => number_only r kDescriptorFile
  | None =>
  match after_prefix "OPTIONS-" rest with
  | Some r => number_only r kOptionsFile
  | None =>
  match consume_decimal rest None with
  | (Some n, suffix) =>
      if String.eqb suffix ".sst" then Some (n, kTableFile)
      else if String.eqb suffix ".blob" then Some (n, kBlobFile)
      else if String.eqb suffix ".log" then Some (n, kWalFile)
      else None
  | (None, _) => None
  end end end.

#[export] Instance collaborators : Collaborators World := {|
  GetName := "/db";
  ParseFileName := parse_file_name;
  GetWalDir := fun o => if empty (wal_dir o) then "/db" else wal_dir o;
  default_get_live_table_checksum := false;
  GetDBOptions_h := fun w => (options w, w);
  FileExists_h := FileExists;
  GetChildren_h := GetChildren;
  DeleteFile_h := DeleteFile;
  DeleteDir_h := DeleteDir;
  CreateDir_h := CreateDir;
  RenameFile_h := RenameFile;
  NewDirectory_h := NewDirectory;
  Fsync_h := Fsync;
  LinkFile_h := LinkFile;
  CopyFile_h := CopyFile;
  CreateFile_h := CreateFile;
  LoadOptionsFromFile_h := LoadOptionsFromFile;
  PersistRocksDBOptions_h := PersistRocksDBOptions;
  DisableFileDeletions_h := DisableFileDeletions;
  EnableFileDeletions_h := EnableFileDeletions;
  GetLatestSequenceNumber_h := fun w => (latest_sequence_number w, w);
  GetSortedWalFiles_h := fun w => ((St.OK, wal_files w), w);
  GetLiveFiles_h := fun _ w =>
    ((St.OK, live_files w, manifest_file_size w), w);
  GetMinLogNumberToKeep_h := fun w => ((true, min_log_number_to_keep w), w);
  FlushWAL_h := fun _ w => (St.OK, w);
  Flush_h := fun _ w => (St.OK, w);
  GetColumnFamilyMetaData_h := fun _ w => (cf_metadata w, w);
  GetFileChecksumsFromManifest_h := fun _ _ w => ((St.OK, ∅), w);
  link_cb_h := fun d f _ => LinkFile (d +:+ f) ("/stage" +:+ f);
  copy_cb_h := fun d f l _ _ _ => CopyFile (d +:+ f) ("/stage" +:+ f) l false;
  create_cb_h := fun f c _ => CreateFile ("/stage" +:+ f) c false;
  export_link_cb_h := fun d f => LinkFile (d +:+ f) ("/stage" +:+ f);
  export_copy_cb_h := fun d f => CopyFile (d +:+ f) ("/stage" +:+ f) 0 false
|}.

Definition default_options : DBOptions := mkDBOptions false false "" "".

(** A database in [/db] with one table file, one live WAL, and nothing else
    in the file system. *)
Definition small_db : World := {|
  dirs := ["/db"; "/stage"];
  regular := ["/db/CURRENT"; "/db/MANIFEST-000004"; "/db/OPTIONS-000006";
              "/db/000009.sst"; "/db/000010.log"];
  other_device := [];
  broken := [];
  live_files := ["/000009.sst"; "/CURRENT"; "/MANIFEST-000004";
                 "/OPTIONS-000006"];
  manifest_file_size := 120;
  wal_files := [mkLogFile "/000010.log" 10 kAliveLogFile 1 77];
  min_log_number_to_keep := 10;
  latest_sequence_number := 5;
  options := default_options;
  cf_metadata :=
    mkCFMeta [mkLevel 0 [mkSst 900 "/000009.sst" 9 1 5 "a" "k" 0]];
  deletions_disabled := false
|}.

(** Variations of [small_db]. *)
Definition set_faults (w : World) (o b : list string) : World :=
  mkWorld (dirs w) (regular w) o b (live_files w)
    (manifest_file_size w) (wal_files w) (min_log_number_to_keep w)
    (latest_sequence_number w) (options w) (cf_metadata w)
    (deletions_disabled w).

Definition set_wal_files (w : World) (l : list LogFile) : World :=
  mkWorld (dirs w) (regular w) (other_device w) (broken w) (live_files w)
    (manifest_file_size w) l (min_log_number_to_keep w)
    (latest_sequence_number w) (options w) (cf_metadata w)
    (deletions_disabled w).

Definition set_cf_metadata (w : World) (m : ColumnFamilyMetaData) : World :=
  mkWorld (dirs w) (regular w) (other_device w) (broken w) (live_files w)
    (manifest_file_size w) (wal_files w) (min_log_number_to_keep w)
    (latest_sequence_number w) (options w) m (deletions_disabled w).

Definition set_options (w : World) (o : DBOptions) : World :=
  mkWorld (dirs w) (regular w) (other_device w) (broken w) (live_files w)
    (manifest_file_size w) (wal_files w) (min_log_number_to_keep w)
    (latest_sequence_number w) o (cf_metadata w) (deletions_disabled w).

(** The table file cannot be hard-linked. *)
Definition cross_device_db : World :=
  set_faults small_db ["/db/000009.sst"] [].

(** The directory [/snap] is already there. *)
Definition snap_exists_db : World :=
  set_fs small_db ("/snap" :: dirs small_db) (regular small_db).


Definition wal10 : LogFile := mkLogFile "/000010.log" 10 kAliveLogFile 1 77.

Definition wal11 : LogFile :=
  mkLogFile "/archive/000011.log" 11 kArchivedLogFile 6 30.

(** The engine lists an archived WAL after the live one. *)
Definition archived_last_db : World := set_wal_files small_db [wal10; wal11].

Definition sst9 : SstFileMetaData := mkSst 900 "/000009.sst" 9 1 5 "a" "k" 0.

Definition sst11 : SstFileMetaData :=
  mkSst 400 "/000011.sst" 11 6 8 "c" "m" 0.

Definition two_tables : ColumnFamilyMetaData :=
  mkCFMeta [mkLevel 0 [sst9; sst11]].

(** Two table files, those of [o] on another device. *)
Definition two_table_db (o : list string) : World :=
  set_faults
    (set_cf_metadata
       (set_fs small_db (dirs small_db)
          ("/db/000011.sst" :: regular small_db))
       two_tables)
    o [].

Definition two_phase_options : DBOptions := mkDBOptions true false "" "".

Definition cf : ColumnFamilyHandle :=
  mkHandle "default" "leveldb.BytewiseComparator".

Definition no_memory : Memory := mkMemory ∅ None.

End Sim.

(** * Properties *)

(** ** Reasoning about runs

    [spec m Q]: whatever the world, a run of [m] returns a value and leaves a
    trace related by [Q]. *)

Section Reasoning.
Context {W : Type} {C : Collaborators W}.

Definition spec {A} (m : M W A) (Q : A -> Trace -> Prop) : Prop :=
  forall w, Q (result (m w)) (trace (m w)).

Lemma spec_ret {A} (a : A) (Q : A -> Trace -> Prop) : Q a [] -> spec (ret a) Q.
Proof. intros H w. exact H. Qed.

Lemma spec_bind {A B} (m : M W A) (f : A -> M W B) (P : A -> Trace -> Prop)
    (Q : B -> Trace -> Prop) :
  spec m P ->
  (forall a t1, P a t1 -> spec (f a) (fun b t2 => Q b (t1 ++ t2))) ->
  spec (bind m f) Q.
Proof.
  intros Hm Hf w. unfold bind. specialize (Hm w).
  destruct (m w) as [[a w1] t1]. cbn in Hm.
  specialize (Hf a t1 Hm w1). destruct (f a w1) as [[b w2] t2]. exact Hf.
Qed.

Lemma spec_call {R} (h : W -> R * W) (ev : R -> Event) :
  spec (call h ev) (fun r t => t = [ev r]).
Proof. intros w. unfold call. destruct (h w) as [r w']. reflexivity. Qed.

Lemma spec_weaken {A} (m : M W A) (P Q : A -> Trace -> Prop) :
  spec m P -> (forall a t, P a t -> Q a t) -> spec m Q.
Proof. intros H HPQ w. apply HPQ, H. Qed.

Lemma spec_and {A} (m : M W A) (P Q : A -> Trace -> Prop) :
  spec m P -> spec m Q -> spec m (fun a t => P a t /\ Q a t).
Proof. intros HP HQ w. split; [apply HP | apply HQ]. Qed.

(** A call followed by a continuation. *)
Lemma spec_call_bind {R B} (h : W -> R * W) (ev : R -> Event)
    (f : R -> M W B) (Q : B -> Trace -> Prop) :
  (forall r, spec (f r) (fun b t => Q b (ev r :: t))) ->
  spec (bind (call h ev) f) Q.
Proof.
  intros H. eapply spec_bind; [apply spec_call |].
  intros r t1 ->. apply H.
Qed.

Lemma spec_ret_bind {A B} (a : A) (f : A -> M W B) (Q : B -> Trace -> Prop) :
  spec (f a) Q -> spec (bind (ret a) f) Q.
Proof.
  intros H w. unfold bind, ret. specialize (H w).
  destruct (f a w) as [[b w2] t2]. exact H.
Qed.

Lemma spec_bind_assoc {A B D} (m : M W A) (f : A -> M W B) (g : B -> M W D)
    (Q : D -> Trace -> Prop) :
  spec (bind m (fun a => bind (f a) g)) Q -> spec (bind (bind m f) g) Q.
Proof.
  intros H w. specialize (H w). unfold bind in *.
  destruct (m w) as [[a w1] t1]. destruct (f a w1) as [[b w2] t2].
  destruct (g b w2) as [[d w3] t3]. cbn in *. now rewrite <- app_assoc.
Qed.

(** [emits P m]: every event of every run of [m] satisfies [P]. *)
Definition emits {A} (P : Event -> Prop) (m : M W A) : Prop :=
  spec m (fun _ t => Forall P t).

Lemma emits_ret {A} P (a : A) : emits P (ret a).
Proof. apply spec_ret. constructor. Qed.

Lemma emits_bind {A B} P (m : M W A) (f : A -> M W B) :
  emits P m -> (forall a, emits P (f a)) -> emits P (bind m f).
Proof.
  intros Hm Hf. eapply spec_bind; [exact Hm |].
  intros a t1 Ht1. eapply spec_weaken; [apply Hf |].
  cbn. intros _ t2 Ht2. apply Forall_app; split; assumption.
Qed.

Lemma emits_call {R} P (h : W -> R * W) (ev : R -> Event) :
  (forall r, P (ev r)) -> emits P (call h ev).
Proof.
  intros H. eapply spec_weaken; [apply spec_call |].
  cbn. intros r t ->. repeat constructor. apply H.
Qed.

Lemma emits_for_each {A} P (l : list A) (body : A -> M W unit) :
  (forall x, emits P (body x)) -> emits P (for_each l body).
Proof.
  intros H. induction l as [| x l IH]; cbn.
  - apply emits_ret.
  - apply emits_bind; [apply H | intros _; exact IH].
Qed.

End Reasoning.

(** Splits binds, branches and pattern matches of a goal [emits P m]. *)
Ltac emits_step :=
  match goal with
  | |- emits _ (ret _) => apply emits_ret
  | |- emits _ (bind _ _) => apply emits_bind; [| intros ?]
  | |- emits _ (call _ _) => apply emits_call; intros; cbn
  | |- emits _ (for_each _ _) => apply emits_for_each; intros ?
  | |- emits _ (if ?c then _ else _) => destruct c
  | |- emits _ (match ?x with (_, _) => _ end) => destruct x
  | |- emits _ (match ?x with Some _ => _ | None => _ end) => destruct x
  | |- emits _ (let '(_, _) := ?x in _) => destruct x
  end.

(** Splits the next bind, call, branch or pattern match of a goal
    [spec m Q]. *)
Ltac spec_step :=
  match goal with
  | |- spec (ret _) _ => apply spec_ret
  | |- spec (bind (call _ _) _) _ => apply spec_call_bind; intros ?
  | |- spec (bind (if ?c then _ else _) _) _ => destruct c eqn:?; cbv iota
  | |- spec (if ?c then _ else _) _ => destruct c eqn:?; cbv iota
  | |- spec (match ?x with (_, _) => _ end) _ => destruct x
  | |- spec (bind (ret _) _) _ => apply spec_ret_bind
  | |- spec (bind (bind _ _) _) _ => apply spec_bind_assoc
  end; cbn [fst snd app negb].

(** ** The events of a trace *)

Definition is_link_cb (e : Event) : bool :=
  match e with ELinkCb _ _ _ _ => true | _ => false end.

Definition is_get_live_files (e : Event) : bool :=
  match e with EGetLiveFiles _ _ _ _ => true | _ => false end.

(** The [flush_memtable] arguments of the calls to [GetLiveFiles], in
    order. *)
Definition live_files_flags (t : Trace) : list bool :=
  omap (fun e => match e with
                 | EGetLiveFiles b _ _ _ => Some b
                 | _ => None
                 end) t.

(** The sum of the byte sizes of the listed WAL files. *)
Definition wal_bytes (wals : list LogFile) : N :=
  fold_right (fun wal n => SizeFileBytes wal + n) 0 wals.

Lemma total_wal_size_from (wals : list LogFile) (acc : N) :
  acc + wal_bytes wals < two64 ->
  fold_left (fun total wal => add64 total (SizeFileBytes wal)) wals acc
  = acc + wal_bytes wals.
Proof.
  revert acc.
  induction wals as [| wal wals IH]; intros acc H.
  - cbn in *. lia.
  - change (wal_bytes (wal :: wals))
      with (SizeFileBytes wal + wal_bytes wals) in *.
    cbn [fold_left]. unfold add64 at 2. rewrite N.mod_small by lia.
    rewrite IH by lia. lia.
Qed.

Lemma total_wal_size_exact (wals : list LogFile) :
  wal_bytes wals < two64 -> total_wal_size wals = wal_bytes wals.
Proof. intros H. unfold total_wal_size. now rewrite total_wal_size_from. Qed.

Lemma live_files_flags_app (t1 t2 : Trace) :
  live_files_flags (t1 ++ t2) = live_files_flags t1 ++ live_files_flags t2.
Proof. apply omap_app. Qed.

Lemma live_files_flags_none (t : Trace) :
  Forall (fun e => is_get_live_files e = false) t -> live_files_flags t = [].
Proof.
  induction 1 as [| e t He _ IH]; [reflexivity |].
  unfold live_files_flags in *. cbn. destruct e; cbn in *; try discriminate; exact IH.
Qed.

(** The calls [CreateCustomCheckpoint] makes to the engine itself. *)
Definition is_enumeration_event (e : Event) : bool :=
  match e with
  | EGetLatestSequenceNumber _ | EGetSortedWalFiles _ _
  | EGetLiveFiles _ _ _ _ | EGetMinLogNumberToKeep _ _ | EFlushWAL _ _ => true
  | _ => false
  end.

(** ** Frame: what [CreateCustomCheckpoint] emits besides its callbacks *)

Section Frame.
Context {W : Type} {C : Collaborators W}.
Variable link : string -> string -> FileType -> M W Status.
Variable copy :
  string -> string -> N -> FileType -> string -> string -> M W Status.
Variable create : string -> string -> FileType -> M W Status.
Variable P : Event -> Prop.
Hypothesis link_emits : forall d f t, emits P (link d f t).
Hypothesis copy_emits : forall d f l t cn cv, emits P (copy d f l t cn cv).
Hypothesis create_emits : forall f c t, emits P (create f c t).
Hypothesis checksums_ok :
  forall p sz r l, P (EGetFileChecksumsFromManifest p sz r l).
Hypothesis enumeration_ok : forall e, is_enumeration_event e = true -> P e.

Lemma decide_flush_memtable_emits db_options log_size_for_flush :
  emits P (decide_flush_memtable db_options log_size_for_flush).
Proof.
  unfold decide_flush_memtable, GetSortedWalFiles.
  repeat emits_step; now apply enumeration_ok.
Qed.

Lemma process_live_files_emits manifest_file_size live_files st :
  emits P (process_live_files copy manifest_file_size live_files st).
Proof.
  revert st. induction live_files as [| live_file rest IH]; intros st; cbn.
  - apply emits_ret.
  - destruct st as [[[s mf] cf] tb].
    repeat (emits_step; auto).
Qed.

Lemma try_link_emits d f t s b : emits P (try_link link d f t s b).
Proof. unfold try_link. repeat (emits_step; auto). Qed.

Lemma transfer_table_and_blob_files_emits glc checksum_list tb st :
  emits P (transfer_table_and_blob_files link copy glc checksum_list tb st).
Proof.
  revert st. induction tb as [| [[src_fname number] type] rest IH];
    intros st; cbn.
  - apply emits_ret.
  - destruct st as [s same_fs].
    emits_step; [apply emits_ret |].
    apply emits_bind; [apply try_link_emits |]. intros [s' same_fs'].
    apply emits_bind; [| intros ?; apply IH].
    destruct (negb same_fs'); [| apply emits_ret].
    destruct glc; [destruct SearchOneFileChecksum as [[? ?] ?] |]; auto.
Qed.

Lemma transfer_wal_files_emits wal_dir flush mln wal_size i wals st :
  emits P (transfer_wal_files link copy wal_dir flush mln wal_size i wals st).
Proof.
  revert i st. induction wals as [| wal rest IH]; intros i st; cbn.
  - apply emits_ret.
  - destruct st as [s same_fs].
    emits_step; [apply emits_ret |].
    emits_step; [| apply IH].
    emits_step.
    + emits_step; [auto | apply emits_ret].
    + apply emits_bind; [apply try_link_emits |]. intros [s' same_fs'].
      apply emits_bind; [| intros ?; apply IH].
      destruct (negb same_fs'); [auto | apply emits_ret].
Qed.

Lemma transfer_live_files_emits db_options glc flush mln msize lf wals s :
  emits P (transfer_live_files link copy create db_options glc flush mln msize
             lf wals s).
Proof.
  unfold transfer_live_files.
  apply emits_bind; [apply process_live_files_emits |].
  intros [[[s1 mf] cf] tb].
  apply emits_bind.
  { unfold GetFileChecksumsFromManifest.
    repeat emits_step. apply checksums_ok. }
  intros [s2 cl].
  apply emits_bind; [apply transfer_table_and_blob_files_emits |].
  intros [s3 b3].
  apply emits_bind; [destruct (_ && _); [auto | apply emits_ret] |].
  intros s4.
  apply emits_bind; [apply transfer_wal_files_emits |].
  intros [s5 b5]. apply emits_ret.
Qed.

Lemma CreateCustomCheckpoint_emits db_options log_size_for_flush glc :
  emits P (CreateCustomCheckpoint link copy create db_options
             log_size_for_flush glc).
Proof.
  unfold CreateCustomCheckpoint, GetLatestSequenceNumber, GetLiveFiles,
    GetMinLogNumberToKeep, FlushWAL, GetSortedWalFiles.
  apply emits_bind; [apply emits_call; intros; now apply enumeration_ok |].
  intros n.
  apply emits_bind; [apply decide_flush_memtable_emits |].
  intros [sd flush].
  emits_step; [apply emits_ret |].
  apply emits_bind; [apply emits_call; intros; now apply enumeration_ok |].
  intros [[s1 f1] m1].
  apply emits_bind; [apply emits_call; intros; now apply enumeration_ok |].
  intros [found mln].
  emits_step; [apply emits_ret |].
  apply emits_bind; [apply emits_call; intros; now apply enumeration_ok |].
  intros [[s2 f2] m2].
  apply emits_bind.
  { emits_step; [apply emits_call; intros; now apply enumeration_ok
                | apply emits_ret]. }
  intros s3.
  apply emits_bind.
  { emits_step; [apply emits_call; intros; now apply enumeration_ok
                | apply emits_ret]. }
  intros [s4 wals].
  emits_step; [apply emits_ret |].
  apply emits_bind; [apply transfer_live_files_emits |].
  intros s5. apply emits_ret.
Qed.

End Frame.

(** ** CreateCustomCheckpoint with opaque callbacks *)

Section CustomCheckpoint.
Context {W : Type} {C : Collaborators W}.

Lemma link_cb_emits (P : Event -> Prop) d f t :
  (forall r, P (ELinkCb d f t r)) -> emits P (link_cb d f t).
Proof. intros H. now apply emits_call. Qed.

Lemma copy_cb_emits (P : Event -> Prop) d f l t cn cv :
  (forall r, P (ECopyCb d f l t cn cv r)) -> emits P (copy_cb d f l t cn cv).
Proof. intros H. now apply emits_call. Qed.

Lemma create_cb_emits (P : Event -> Prop) f c t :
  (forall r, P (ECreateCb f c t r)) -> emits P (create_cb f c t).
Proof. intros H. now apply emits_call. Qed.

(** What the flush-decision block returns and emits. *)
Definition flush_rule (db_options : DBOptions) (log_size_for_flush : N)
    (sd : Status) (flush : bool) (td : Trace) : Prop :=
  if allow_2pc db_options then sd = St.OK /\ flush = true /\ td = []
  else if log_size_for_flush =? kMaxUint64
       then sd = St.OK /\ flush = false /\ td = []
  else if 0 <? log_size_for_flush
       then exists wals, td = [EGetSortedWalFiles sd wals]
              /\ (ok sd = true ->
                  flush = negb (total_wal_size wals <? log_size_for_flush))
  else sd = St.OK /\ flush = true /\ td = [].

Lemma decide_flush_memtable_spec db_options log_size_for_flush :
  spec (decide_flush_memtable db_options log_size_for_flush)
       (fun r td => flush_rule db_options log_size_for_flush (fst r) (snd r) td).
Proof.
  unfold decide_flush_memtable, flush_rule, GetSortedWalFiles.
  destruct (allow_2pc db_options); cbn [negb];
    [apply spec_ret; auto |].
  destruct (log_size_for_flush =? kMaxUint64); [apply spec_ret; auto |].
  destruct (0 <? log_size_for_flush); [| apply spec_ret; auto].
  apply spec_call_bind. intros [s wals]. cbn [fst snd].
  destruct (ok s) eqn:Hs; cbn [negb].
  - destruct (total_wal_size wals <? log_size_for_flush) eqn:Hlt;
      apply spec_ret; exists wals; cbn; rewrite ?Hlt; auto.
  - apply spec_ret. exists wals. cbn. split; [reflexivity | congruence].
Qed.

(** The shape of a run of [CreateCustomCheckpoint] as far as the calls to
    [GetLiveFiles] go. *)
Lemma CreateCustomCheckpoint_flags db_options log_size_for_flush glc :
  spec (CreateCustomCheckpoint link_cb copy_cb create_cb db_options
          log_size_for_flush glc)
       (fun r t => exists n sd flush td tl,
          flush_rule db_options log_size_for_flush sd flush td
          /\ t = EGetLatestSequenceNumber n :: td ++ tl
          /\ (ok sd = false -> tl = [] /\ fst r = sd)
          /\ (ok sd = true ->
              live_files_flags tl = [flush]
              \/ live_files_flags tl = [flush; flush])).
Proof.
  unfold CreateCustomCheckpoint, GetLatestSequenceNumber, GetLiveFiles,
    GetMinLogNumberToKeep, FlushWAL, GetSortedWalFiles.
  apply spec_call_bind. intros n.
  eapply spec_bind; [apply decide_flush_memtable_spec |].
  intros [sd flush] td Hd. cbn [fst snd] in Hd.
  destruct (ok sd) eqn:Hsd; cbn [negb].
  2:{ apply spec_ret. exists n, sd, flush, td, []. rewrite Hsd.
      repeat split; auto; discriminate. }
  assert (Hshape : forall (r : Status * N) tl,
            (live_files_flags tl = [flush]
             \/ live_files_flags tl = [flush; flush]) ->
            exists n0 sd0 flush0 td0 tl0,
              flush_rule db_options log_size_for_flush sd0 flush0 td0
              /\ EGetLatestSequenceNumber n :: td ++ tl
                 = EGetLatestSequenceNumber n0 :: td0 ++ tl0
              /\ (ok sd0 = false -> tl0 = [] /\ fst r = sd0)
              /\ (ok sd0 = true ->
                  live_files_flags tl0 = [flush0]
                  \/ live_files_flags tl0 = [flush0; flush0])).
  { intros r tl Htl. exists n, sd, flush, td, tl. rewrite Hsd.
    repeat split; auto; discriminate. }
  apply spec_call_bind. intros [[s1 f1] m1]. cbn [fst snd].
  apply spec_call_bind. intros [found mln]. cbn [fst snd].
  destruct found; cbn [negb].
  2:{ apply spec_ret. apply Hshape. left. reflexivity. }
  apply spec_call_bind. intros [[s2 f2] m2]. cbn [fst snd].
  assert (Htail : forall tl',
            Forall (fun e => is_get_live_files e = false) tl' ->
            live_files_flags
              (EGetLiveFiles flush s1 f1 m1 :: EGetMinLogNumberToKeep true mln
               :: EGetLiveFiles flush s2 f2 m2 :: tl') = [flush; flush]).
  { intros tl' H. change (live_files_flags (?a :: ?b :: ?c :: tl'))
      with (flush :: flush :: live_files_flags tl').
    now rewrite live_files_flags_none. }
  destruct (ok s2) eqn:Hs2; cbv iota.
  - apply spec_call_bind. intros s3. destruct (ok s3) eqn:Hs3; cbv iota.
    + apply spec_call_bind. intros [s4 wals]. cbn [fst snd].
      destruct (ok s4) eqn:Hs4; cbn [negb]; cbv iota.
      * eapply spec_bind.
        { apply (transfer_live_files_emits link_cb copy_cb create_cb
                   (fun e => is_get_live_files e = false));
            intros; try (apply emits_call; reflexivity).
          reflexivity. }
        intros s5 tt Htt. apply spec_ret. apply Hshape. right.
        rewrite app_nil_r.
        apply (Htail (_ :: _ :: tt)). repeat constructor. exact Htt.
      * apply spec_ret. apply Hshape. right.
        apply (Htail [_; _]). repeat constructor.
    + apply spec_ret_bind. rewrite Hs3. cbn [negb].
      apply spec_ret. apply Hshape. right.
      apply (Htail [_]). repeat constructor.
  - apply spec_ret_bind. rewrite Hs2. apply spec_ret_bind.
    rewrite Hs2. cbn [negb].
    apply spec_ret. apply Hshape. right.
    apply (Htail []). constructor.
Qed.

(** C4.  The flush decision of [CreateCustomCheckpoint], read off the
    [flush_memtable] argument of its calls to [GetLiveFiles]: with
    two-phase commit enabled every call asks for a flush; otherwise, with the
    threshold unset ([kMaxUint64]) no call does, and with a positive
    threshold the WAL files are listed first and, when the listing succeeds,
    the flush is skipped exactly when the sum of their byte sizes is strictly
    below the threshold (the sum being below 2^64, as the code adds in
    [uint64_t]). *)
Theorem flush_decision db_options log_size_for_flush glc (w : W) :
  let r := CreateCustomCheckpoint link_cb copy_cb create_cb db_options
             log_size_for_flush glc w in
  let flags := live_files_flags (trace r) in
  (allow_2pc db_options = true -> flags <> [] /\ Forall (eq true) flags)
  /\ (allow_2pc db_options = false -> log_size_for_flush = kMaxUint64 ->
      flags <> [] /\ Forall (eq false) flags)
  /\ (allow_2pc db_options = false ->
      0 < log_size_for_flush -> log_size_for_flush < kMaxUint64 ->
      exists n s wals tl,
        trace r = EGetLatestSequenceNumber n :: EGetSortedWalFiles s wals :: tl
        /\ (ok s = false -> fst (result r) = s /\ tl = [])
        /\ (ok s = true -> wal_bytes wals < two64 ->
            flags <> []
            /\ Forall (eq (negb (wal_bytes wals <? log_size_for_flush)))
                 flags)).
Proof.
  intros r flags.
  destruct (CreateCustomCheckpoint_flags db_options log_size_for_flush glc w)
    as (n & sd & flush & td & tl & Hrule & Ht & Hbad & Hgood).
  fold r in Ht, Hbad. unfold flush_rule in Hrule.
  assert (Hflags : forall b, ok sd = true -> td = [] -> flush = b ->
                     flags <> [] /\ Forall (eq b) flags).
  { intros b Hok -> <-. unfold flags. rewrite Ht. cbn [app].
    change (live_files_flags (_ :: tl)) with (live_files_flags tl).
    destruct (Hgood Hok) as [-> | ->]; split; try discriminate;
      repeat constructor. }
  split; [| split].
  - intros H2pc. rewrite H2pc in Hrule. destruct Hrule as (-> & -> & ->).
    now apply Hflags.
  - intros H2pc Hmax. rewrite H2pc in Hrule. subst log_size_for_flush.
    rewrite N.eqb_refl in Hrule. destruct Hrule as (-> & -> & ->).
    now apply Hflags.
  - intros H2pc Hpos Hlt. rewrite H2pc in Hrule.
    destruct (N.eqb_spec log_size_for_flush kMaxUint64) as [-> | _]; [lia |].
    destruct (N.ltb_spec 0 log_size_for_flush) as [_ | ?]; [| lia].
    destruct Hrule as (wals & -> & Hfl).
    exists n, sd, wals, tl. split; [exact Ht |]. split.
    + intros Hok. destruct (Hbad Hok) as [-> ->]. auto.
    + intros Hok Hsum. rewrite <- (total_wal_size_exact wals Hsum).
      rewrite <- (Hfl Hok). unfold flags. rewrite Ht. cbn [app].
      change (live_files_flags (_ :: _ :: tl)) with (live_files_flags tl).
      destruct (Hgood Hok) as [-> | ->]; split; try discriminate;
        repeat constructor.
Qed.

(** *** The link-then-copy discipline *)

(** The status a callback returned. *)
Definition cb_status (e : Event) : option Status :=
  match e with
  | ELinkCb _ _ _ r | ECopyCb _ _ _ _ _ _ r | ECreateCb _ _ _ r => Some r
  | _ => None
  end.

Definition is_copy_or_create (e : Event) : bool :=
  match e with
  | ECopyCb _ _ _ _ _ _ _ | ECreateCb _ _ _ _ => true
  | _ => false
  end.

(** [disc b s t s' b']: the trace [t] of callbacks can be left by the
    transfer loops started with [same_fs = b] and status [s], ending with
    [same_fs = b'] and status [s']. *)
Inductive disc : bool -> Status -> Trace -> Status -> bool -> Prop :=
| disc_nil b s : disc b s [] s b
| disc_copy b s d f l ty cn cv r t s' b' :
    disc b r t s' b' -> disc b s (ECopyCb d f l ty cn cv r :: t) s' b'
| disc_create b s f c ty r t s' b' :
    disc b r t s' b' -> disc b s (ECreateCb f c ty r :: t) s' b'
| disc_link s d f ty r t s' b' :
    IsNotSupported r = false ->
    disc true r t s' b' -> disc true s (ELinkCb d f ty r :: t) s' b'
| disc_fallback s d f ty r cn cv r' t s' b' :
    IsNotSupported r = true ->
    disc false r' t s' b' ->
    disc true s (ELinkCb d f ty r :: ECopyCb d f 0 ty cn cv r' :: t) s' b'.

Lemma disc_app b s t1 s1 b1 t2 s2 b2 :
  disc b s t1 s1 b1 -> disc b1 s1 t2 s2 b2 -> disc b s (t1 ++ t2) s2 b2.
Proof.
  induction 1; intros H2; cbn [app]; try (constructor; auto; fail).
  exact H2.
Qed.

Lemma disc_false s t s' b' :
  disc false s t s' b' ->
  b' = false /\ Forall (fun e => is_copy_or_create e = true) t.
Proof.
  intros H. remember false as b eqn:Hb.
  induction H; subst; try discriminate.
  - auto.
  - destruct IHdisc as [-> Ht]; auto.
  - destruct IHdisc as [-> Ht]; auto.
Qed.

(** The status at the end is the one of the last callback. *)
Lemma disc_last b s t s' b' :
  disc b s t s' b' ->
  forall e0, exists t' e, e0 :: t = t' ++ [e]
    /\ (cb_status e0 = Some s -> cb_status e = Some s').
Proof.
  induction 1; intros e0.
  - exists [], e0. auto.
  - destruct (IHdisc (ECopyCb d f l ty cn cv r)) as (t' & e & -> & He).
    exists (e0 :: t'), e. auto.
  - destruct (IHdisc (ECreateCb f c ty r)) as (t' & e & -> & He).
    exists (e0 :: t'), e. auto.
  - destruct (IHdisc (ELinkCb d f ty r)) as (t' & e & -> & He).
    exists (e0 :: t'), e. auto.
  - destruct (IHdisc (ECopyCb d f 0 ty cn cv r')) as (t' & e & -> & He).
    exists (e0 :: ELinkCb d f ty r :: t'), e. auto.
Qed.

Lemma disc_fallback_inv b s pre d f ty r post s' b' :
  disc b s (pre ++ ELinkCb d f ty r :: post) s' b' ->
  IsNotSupported r = true ->
  (exists cn cv r' post', post = ECopyCb d f 0 ty cn cv r' :: post')
  /\ Forall (fun e => is_copy_or_create e = true) post
  /\ (exists post' e, post = post' ++ [e] /\ cb_status e = Some s').
Proof.
  intros H Hr. remember (pre ++ ELinkCb d f ty r :: post) as t eqn:Ht.
  revert pre Ht. induction H; intros pre Ht.
  - destruct pre; discriminate.
  - destruct pre as [| e pre]; [discriminate |]. injection Ht as _ Ht.
    eauto.
  - destruct pre as [| e pre]; [discriminate |]. injection Ht as _ Ht.
    eauto.
  - destruct pre as [| e pre].
    + inversion Ht; subst. congruence.
    + injection Ht as _ Ht. eauto.
  - destruct pre as [| e pre].
    + inversion Ht; subst.
      destruct (disc_false _ _ _ _ H0) as [-> Hall].
      split; [eauto |]. split; [constructor; auto |].
      destruct (disc_last _ _ _ _ _ H0 (ECopyCb d f 0 ty cn cv r'))
        as (t' & e & -> & He). eauto.
    + injection Ht as _ Ht. destruct pre as [| e' pre].
      * discriminate.
      * injection Ht as _ Ht. subst t.
        destruct (disc_false _ _ _ _ H0) as [_ Hall].
        apply Forall_app in Hall as [_ Hall].
        apply Forall_cons_iff in Hall as [Hl _]. discriminate.
Qed.

Lemma spec_link_cb_bind {B} d f ty (k : Status -> M W B) Q :
  (forall r, spec (k r) (fun b t => Q b (ELinkCb d f ty r :: t))) ->
  spec (bind (link_cb d f ty) k) Q.
Proof. apply spec_call_bind. Qed.

Lemma spec_copy_cb_bind {B} d f l ty cn cv (k : Status -> M W B) Q :
  (forall r, spec (k r) (fun b t => Q b (ECopyCb d f l ty cn cv r :: t))) ->
  spec (bind (copy_cb d f l ty cn cv) k) Q.
Proof. apply spec_call_bind. Qed.

Lemma spec_create_cb_bind {B} f c ty (k : Status -> M W B) Q :
  (forall r, spec (k r) (fun b t => Q b (ECreateCb f c ty r :: t))) ->
  spec (bind (create_cb f c ty) k) Q.
Proof. apply spec_call_bind. Qed.

Lemma transfer_table_and_blob_files_disc glc cl tb s b :
  spec (transfer_table_and_blob_files link_cb copy_cb glc cl tb (s, b))
       (fun r t => disc b s t (fst r) (snd r)).
Proof.
  revert s b.
  induction tb as [| [[src_fname number] type] rest IH]; intros s b; cbn.
  - apply spec_ret. constructor.
  - destruct (ok s) eqn:Hs; cbn [negb]; [| apply spec_ret; constructor].
    unfold try_link.
    destruct (if glc then _ else _) as [[x cv] cn]. destruct b.
    + apply spec_bind_assoc, spec_link_cb_bind. intros r.
      destruct (IsNotSupported r) eqn:Hr; apply spec_ret_bind; cbn [negb].
      * apply spec_copy_cb_bind. intros r'.
        eapply spec_weaken; [apply IH |]. cbn. intros a t Ht.
        now apply disc_fallback.
      * apply spec_ret_bind. eapply spec_weaken; [apply IH |].
        cbn. intros a t Ht. now apply disc_link.
    + apply spec_ret_bind. cbn [negb]. apply spec_copy_cb_bind. intros r'.
      eapply spec_weaken; [apply IH |]. cbn. intros a t Ht.
      now apply disc_copy.
Qed.

Lemma transfer_wal_files_disc wal_dir flush mln wal_size i wals s b :
  spec (transfer_wal_files link_cb copy_cb wal_dir flush mln wal_size i wals
          (s, b))
       (fun r t => disc b s t (fst r) (snd r)).
Proof.
  revert i s b. induction wals as [| wal rest IH]; intros i s b; cbn.
  - apply spec_ret. constructor.
  - destruct (ok s) eqn:Hs; cbn [negb]; [| apply spec_ret; constructor].
    destruct (_ && _); [| apply IH].
    unfold try_link. destruct (i + 1 =? wal_size).
    + apply spec_copy_cb_bind. intros r. apply spec_ret.
      apply disc_copy. constructor.
    + destruct b.
      * apply spec_bind_assoc, spec_link_cb_bind. intros r.
        destruct (IsNotSupported r) eqn:Hr; apply spec_ret_bind; cbn [negb].
        -- apply spec_copy_cb_bind. intros r'.
           eapply spec_weaken; [apply IH |]. cbn. intros a t Ht.
           now apply disc_fallback.
        -- apply spec_ret_bind. eapply spec_weaken; [apply IH |].
           cbn. intros a t Ht. now apply disc_link.
      * apply spec_ret_bind. cbn [negb]. apply spec_copy_cb_bind. intros r'.
        eapply spec_weaken; [apply IH |]. cbn. intros a t Ht.
        now apply disc_copy.
Qed.

(** *** The two halves of a run *)

(** [enumerated db_options log n flush mln msize files wals s t]: [t] is the
    trace of an enumeration that went through, with the values it hands to
    the transfer: the flush decision, the minimum log number to keep, the
    manifest size and the live files of the second [GetLiveFiles], the WAL
    files of the last [GetSortedWalFiles], and its status. *)
Inductive enumerated (db_options : DBOptions) (log_size_for_flush : N)
  : N -> bool -> N -> N -> list string -> list LogFile -> Status -> Trace
    -> Prop :=
| enumerated_intro n sd flush td s1 f1 m1 mln s2 files msize s3 s4 wals :
    flush_rule db_options log_size_for_flush sd flush td ->
    ok sd = true -> ok s2 = true -> ok s3 = true -> ok s4 = true ->
    enumerated db_options log_size_for_flush n flush mln msize files wals s4
      (EGetLatestSequenceNumber n :: td
       ++ [EGetLiveFiles flush s1 f1 m1; EGetMinLogNumberToKeep true mln;
           EGetLiveFiles flush s2 files msize; EFlushWAL false s3;
           EGetSortedWalFiles s4 wals]).

Lemma flush_rule_enumeration db_options log_size_for_flush sd flush td :
  flush_rule db_options log_size_for_flush sd flush td ->
  Forall (fun e => is_enumeration_event e = true) td.
Proof.
  unfold flush_rule. intros H.
  destruct (allow_2pc db_options); [destruct H as (_ & _ & ->); constructor |].
  destruct (_ =? _); [destruct H as (_ & _ & ->); constructor |].
  destruct (_ <? _); [| destruct H as (_ & _ & ->); constructor].
  destruct H as (wals & -> & _). repeat constructor.
Qed.

Lemma enumerated_enumeration db_options log n flush mln msize files wals s t :
  enumerated db_options log n flush mln msize files wals s t ->
  Forall (fun e => is_enumeration_event e = true) t.
Proof.
  intros H. destruct H. constructor; [reflexivity |].
  apply Forall_app. split; [eapply flush_rule_enumeration; eauto |].
  repeat constructor.
Qed.

End CustomCheckpoint.

Section Run.
Context {W : Type} {C : Collaborators W}.
Variable link : string -> string -> FileType -> M W Status.
Variable copy :
  string -> string -> N -> FileType -> string -> string -> M W Status.
Variable create : string -> string -> FileType -> M W Status.
Variable db_options : DBOptions.
Variable glc : bool.
Variable Qt :
  bool -> N -> N -> list string -> list LogFile -> Status -> Status -> Trace
  -> Prop.
Hypothesis transfer_spec : forall flush mln msize files wals s,
  spec (transfer_live_files link copy create db_options glc flush mln msize
          files wals s)
       (Qt flush mln msize files wals s).

(** A run of [CreateCustomCheckpoint] either stops during the enumeration,
    with an error and only engine calls made, or is an enumeration followed
    by the transfer of what was enumerated. *)
Lemma CreateCustomCheckpoint_run log_size_for_flush :
  spec (CreateCustomCheckpoint link copy create db_options log_size_for_flush
          glc)
       (fun r t =>
          (ok (fst r) = false
           /\ Forall (fun e => is_enumeration_event e = true) t)
          \/ (exists flush mln msize files wals s tg tt,
                enumerated db_options log_size_for_flush (snd r) flush mln
                  msize files wals s tg
                /\ t = tg ++ tt
                /\ Qt flush mln msize files wals s (fst r) tt)).
Proof.
  unfold CreateCustomCheckpoint, GetLatestSequenceNumber, GetLiveFiles,
    GetMinLogNumberToKeep, FlushWAL, GetSortedWalFiles.
  apply spec_call_bind. intros n.
  eapply spec_bind; [apply decide_flush_memtable_spec |].
  intros [sd flush] td Hd. cbn [fst snd] in Hd.
  pose proof (flush_rule_enumeration _ _ _ _ _ Hd) as Htd.
  assert (Hearly : forall s tl,
            ok s = false ->
            Forall (fun e => is_enumeration_event e = true) tl ->
            ok s = false
            /\ Forall (fun e => is_enumeration_event e = true)
                 (EGetLatestSequenceNumber n :: td ++ tl)).
  { intros s tl Hs Htl. split; [exact Hs |].
    constructor; [reflexivity |]. apply Forall_app. now split. }
  destruct (ok sd) eqn:Hsd; cbn [negb].
  2:{ apply spec_ret. left. apply Hearly; [exact Hsd | constructor]. }
  apply spec_call_bind. intros [[s1 f1] m1]. cbn [fst snd].
  apply spec_call_bind. intros [found mln]. cbn [fst snd].
  destruct found; cbn [negb].
  2:{ apply spec_ret. left. apply Hearly; [reflexivity |]. repeat constructor. }
  apply spec_call_bind. intros [[s2 files] msize]. cbn [fst snd].
  destruct (ok s2) eqn:Hs2; cbv iota.
  - apply spec_call_bind. intros s3. destruct (ok s3) eqn:Hs3; cbv iota.
    + apply spec_call_bind. intros [s4 wals]. cbn [fst snd].
      destruct (ok s4) eqn:Hs4; cbn [negb]; cbv iota.
      * eapply spec_bind; [apply transfer_spec |].
        intros s5 tt Htt. apply spec_ret. right. cbn [fst snd].
        exists flush, mln, msize, files, wals, s4.
        eexists. exists tt. split; [| split; [| exact Htt]].
        -- apply (enumerated_intro _ _ n sd flush td s1 f1 m1 mln s2 files
                    msize s3 s4 wals); assumption.
        -- cbn. rewrite app_nil_r, <- app_assoc. reflexivity.
      * apply spec_ret. left. apply Hearly; [exact Hs4 |]. repeat constructor.
    + apply spec_ret_bind. rewrite Hs3. cbn [negb].
      apply spec_ret. left. apply Hearly; [exact Hs3 |]. repeat constructor.
  - apply spec_ret_bind. rewrite Hs2. apply spec_ret_bind.
    rewrite Hs2. cbn [negb].
    apply spec_ret. left. apply Hearly; [exact Hs2 |]. repeat constructor.
Qed.

End Run.

Section Discipline.
Context {W : Type} {C : Collaborators W}.

Lemma split_at_first {A} (f : A -> bool) (t0 t1 pre post : list A) (e : A) :
  Forall (fun x => f x = false) t0 -> f e = true ->
  t0 ++ t1 = pre ++ e :: post ->
  exists pre', pre = t0 ++ pre' /\ t1 = pre' ++ e :: post.
Proof.
  intros H0 He. revert pre. induction H0 as [| x t0 Hx _ IH]; intros pre Heq.
  - exists pre. auto.
  - destruct pre as [| y pre]; cbn in Heq.
    + injection Heq as -> _. congruence.
    + injection Heq as -> Heq. destruct (IH pre Heq) as (pre' & -> & ->).
      exists pre'. auto.
Qed.

Lemma transfer_live_files_disc db_options glc flush mln msize files wals s :
  spec (transfer_live_files link_cb copy_cb create_cb db_options glc flush mln
          msize files wals s)
       (fun sf t => exists t0 t1 s0 b',
          t = t0 ++ t1
          /\ Forall (fun e => is_link_cb e = false) t0
          /\ disc true s0 t1 sf b').
Proof.
  unfold transfer_live_files.
  eapply spec_bind.
  { apply (process_live_files_emits copy_cb
             (fun e => is_link_cb e = false)).
    intros. now apply copy_cb_emits. }
  intros [[[s1 mf] cf] tb] tp Htp.
  eapply spec_bind with (P := fun _ t => Forall (fun e => is_link_cb e = false) t).
  { destruct (_ && _); [| apply spec_ret; constructor].
    apply emits_call. reflexivity. }
  intros [s2 cl] tc Htc.
  eapply spec_bind; [apply transfer_table_and_blob_files_disc |].
  intros [s3 b3] ttb Htb. cbn [fst snd] in Htb.
  eapply spec_bind with (P := fun s4 t => disc b3 s3 t s4 b3).
  { destruct (_ && _); [| apply spec_ret; constructor].
    eapply spec_weaken; [apply spec_call |].
    cbn. intros r t ->. repeat constructor. }
  intros s4 tcr Hcr.
  eapply spec_bind; [apply transfer_wal_files_disc |].
  intros [s5 b5] tw Hw. cbn [fst snd] in Hw.
  apply spec_ret.
  exists (tp ++ tc), (ttb ++ tcr ++ tw), s2, b5. rewrite app_nil_r.
  split; [now rewrite <- !app_assoc |].
  split; [apply Forall_app; now split |].
  eapply disc_app; [exact Htb |]. eapply disc_app; eassumption.
Qed.

End Discipline.

(** ** The WAL pass *)

(** The filter of the WAL pass: alive logs that are required unconditionally
    (the flush was skipped) or whose number is at least the minimum log
    number to keep. *)
Definition wal_required (flush_memtable : bool) (min_log_num : N)
    (wal : LogFile) : bool :=
  is_alive wal && (negb flush_memtable || (min_log_num <=? LogNumber wal)).

Definition required_wals (flush_memtable : bool) (min_log_num : N)
    (wals : list LogFile) : list LogFile :=
  filter (fun wal => wal_required flush_memtable min_log_num wal = true) wals.


Section WalPass.
Context {W : Type} {C : Collaborators W}.



End WalPass.





(** ** The pass over the live files *)

Definition cb_type (e : Event) : option FileType :=
  match e with
  | ELinkCb _ _ ty _ | ECopyCb _ _ _ ty _ _ _ | ECreateCb _ _ ty _ => Some ty
  | _ => None
  end.

Definition is_create_cb (e : Event) : bool :=
  match e with ECreateCb _ _ _ _ => true | _ => false end.

(** The size limit of a copy: the manifest size for the manifest, none (0)
    for every other file but a WAL file. *)
Definition copy_limit_ok (manifest_file_size : N) (e : Event) : Prop :=
  match e with
  | ECopyCb _ _ l ty _ _ _ =>
      (ty = kDescriptorFile -> l = manifest_file_size)
      /\ (ty <> kDescriptorFile -> ty <> kWalFile -> l = 0)
  | _ => True
  end.

Definition is_table_or_blob (ty : FileType) : bool :=
  FileType_eqb ty kTableFile || FileType_eqb ty kBlobFile.

(** The files the first pass copies: neither the current file, nor a table
    or blob file. *)
Definition copied_in_first_pass (ty : FileType) : bool :=
  negb (FileType_eqb ty kCurrentFile) && negb (is_table_or_blob ty).

Definition first_pass_limit (manifest_file_size : N) (ty : FileType) : N :=
  if FileType_eqb ty kDescriptorFile then manifest_file_size else 0.

Section LiveFiles.
Context {W : Type} {C : Collaborators W}.

(** The last of the [files] whose name parses to type [ty], [acc] when there
    is none. *)
Definition last_from (ty : FileType) (files : list string) (acc : string)
    : string :=
  fold_left (fun acc f =>
               match ParseFileName f with
               | Some (_, ty') => if FileType_eqb ty' ty then f else acc
               | None => acc
               end) files acc.

Definition last_of_type (ty : FileType) (files : list string) : string :=
  last_from ty files "".

(** A file of type [ty] is among [files]. *)
Definition observed (ty : FileType) (files : list string) : Prop :=
  exists f n, In f files /\ ParseFileName f = Some (n, ty).

Lemma FileType_eqb_eq a b : FileType_eqb a b = true <-> a = b.
Proof. destruct a, b; cbn; split; congruence. Qed.

Lemma FileType_eqb_refl a : FileType_eqb a a = true.
Proof. now apply FileType_eqb_eq. Qed.

Lemma last_from_observed ty files acc :
  ParseFileName "" = None ->
  empty (last_from ty files acc) = false <->
  (observed ty files \/ empty acc = false).
Proof.
  intros Hempty. revert acc.
  induction files as [| f rest IH]; intros acc; cbn [last_from fold_left].
  - split; [auto |]. intros [(f & n & [] & _) | H]; exact H.
  - change (fold_left _ rest ?a) with (last_from ty rest a). rewrite IH.
    destruct (ParseFileName f) as [[n ty'] |] eqn:Hp.
    + destruct (FileType_eqb ty' ty) eqn:Hty.
      * apply FileType_eqb_eq in Hty. subst ty'.
        split; [intros _; left; exists f, n; split; [now left | exact Hp] |].
        intros _. right. destruct f; [congruence | reflexivity].
      * split.
        -- intros [(g & m & Hin & Hg) | H]; [left | now right].
           exists g, m. split; [now right | exact Hg].
        -- intros [(g & m & [<- | Hin] & Hg) | H]; [| | now right].
           ++ rewrite Hp in Hg. injection Hg as _ <-.
              now rewrite FileType_eqb_refl in Hty.
           ++ left. exists g, m. auto.
    + split.
      * intros [(g & m & Hin & Hg) | H]; [left | now right].
        exists g, m. split; [now right | exact Hg].
      * intros [(g & m & [<- | Hin] & Hg) | H]; [congruence | | now right].
        left. exists g, m. auto.
Qed.

Lemma last_of_type_observed ty files :
  ParseFileName "" = None ->
  empty (last_of_type ty files) = false <-> observed ty files.
Proof.
  intros H. unfold last_of_type. rewrite last_from_observed by exact H.
  split; [intros [? | ?]; [assumption | discriminate] | now left].
Qed.

End LiveFiles.

(** A copy made by the first pass over the live files. *)
Definition first_pass_event {W : Type} {C : Collaborators W}
    (manifest_file_size : N) (e : Event) : Prop :=
  exists f ty r,
    copied_in_first_pass ty = true
    /\ e = ECopyCb GetName f (first_pass_limit manifest_file_size ty) ty
             kUnknownFileChecksumFuncName kUnknownFileChecksum r.

Section FirstPass.
Context {W : Type} {C : Collaborators W}.

Definition tables_ok (tb : list (string * N * FileType)) : Prop :=
  Forall (fun x => is_table_or_blob (snd x) = true) tb.

Lemma last_from_cons ty f rest acc :
  last_from ty (f :: rest) acc
  = last_from ty rest
      (match ParseFileName f with
       | Some (_, ty') => if FileType_eqb ty' ty then f else acc
       | None => acc
       end).
Proof. reflexivity. Qed.

Lemma process_live_files_spec msize files s mf cf tb :
  tables_ok tb ->
  spec (process_live_files copy_cb msize files (s, mf, cf, tb))
       (fun st' t =>
          Forall (first_pass_event msize) t
          /\ tables_ok (snd st')
          /\ (ok (fst (fst (fst st'))) = true ->
              snd (fst (fst st')) = last_from kDescriptorFile files mf
              /\ snd (fst st') = last_from kCurrentFile files cf
              /\ forall f n ty,
                   In f files -> ParseFileName f = Some (n, ty) ->
                   copied_in_first_pass ty = true ->
                   exists r,
                     In (ECopyCb GetName f (first_pass_limit msize ty) ty
                           kUnknownFileChecksumFuncName kUnknownFileChecksum
                           r) t)).
Proof.
  revert s mf cf tb.
  induction files as [| f rest IH]; intros s mf cf tb Htb;
    cbn [process_live_files].
  - apply spec_ret. cbn. split; [constructor | split; [exact Htb |]].
    intros _. split; [reflexivity | split; [reflexivity |]].
    intros ? ? ? [].
  - destruct (ok s) eqn:Hs; cbn [negb].
    2:{ apply spec_ret. cbn. split; [constructor | split; [exact Htb |]].
        congruence. }
    rewrite !last_from_cons.
    destruct (ParseFileName f) as [[n ty] |] eqn:Hp.
    2:{ apply spec_ret. cbn. split; [constructor | split; [exact Htb |]].
        discriminate. }
    destruct (FileType_eqb ty kCurrentFile) eqn:Hcur.
    + apply FileType_eqb_eq in Hcur. subst ty. cbn [FileType_eqb].
      cbv beta match.
      eapply spec_weaken; [apply (IH s mf f tb Htb) |].
      cbn beta. intros st' t (Ht & Htb' & Hok).
      split; [exact Ht | split; [exact Htb' |]]. intros H.
      destruct (Hok H) as (Hmf & Hcf & Hall).
      split; [exact Hmf | split; [exact Hcf |]].
      intros g m ty [<- | Hin] Hg Hty.
      * rewrite Hp in Hg. injection Hg as _ <-. discriminate.
      * eauto.
    + cbv beta match.
      destruct (is_table_or_blob ty) eqn:Htab.
      * assert (Hcond : negb (FileType_eqb ty kTableFile)
                        && negb (FileType_eqb ty kBlobFile) = false).
        { unfold is_table_or_blob in Htab.
          destruct (FileType_eqb ty kTableFile),
                   (FileType_eqb ty kBlobFile); auto; discriminate. }
        rewrite Hcond.
        eapply spec_weaken.
        { apply (IH s _ cf (tb ++ [(f, n, ty)])).
          apply Forall_app. split; [exact Htb |]. repeat constructor.
          exact Htab. }
        cbn beta. intros st' t (Ht & Htb' & Hok).
        split; [exact Ht | split; [exact Htb' |]]. intros H.
        destruct (Hok H) as (Hmf & Hcf & Hall).
        split; [exact Hmf | split; [exact Hcf |]].
        intros g m ty' [<- | Hin] Hg Hty.
        -- rewrite Hp in Hg. injection Hg as _ <-.
           unfold copied_in_first_pass in Hty. rewrite Htab in Hty.
           now rewrite andb_false_r in Hty.
        -- eauto.
      * assert (Hcond : negb (FileType_eqb ty kTableFile)
                        && negb (FileType_eqb ty kBlobFile) = true).
        { unfold is_table_or_blob in Htab.
          destruct (FileType_eqb ty kTableFile),
                   (FileType_eqb ty kBlobFile); auto; discriminate. }
        rewrite Hcond.
        apply spec_copy_cb_bind. intros r.
        eapply spec_weaken; [apply (IH r _ cf tb Htb) |].
        cbn beta. intros st' t (Ht & Htb' & Hok).
        assert (Hfirst : copied_in_first_pass ty = true).
        { unfold copied_in_first_pass. now rewrite Hcur, Htab. }
        split; [| split; [exact Htb' |]].
        { constructor; [| exact Ht]. exists f, ty, r.
          split; [exact Hfirst | reflexivity]. }
        intros H. destruct (Hok H) as (Hmf & Hcf & Hall).
        split; [exact Hmf | split; [exact Hcf |]].
        intros g m ty' [<- | Hin] Hg Hty.
        -- rewrite Hp in Hg. injection Hg as _ <-.
           exists r. now left.
        -- destruct (Hall g m ty' Hin Hg Hty) as (r' & Hr'). exists r'.
           now right.
Qed.

End FirstPass.

(** The results of the calls to [GetLiveFiles], in order; the second one is
    the authoritative enumeration. *)
Definition live_files_results (t : Trace) : list (list string * N) :=
  omap (fun e => match e with
                 | EGetLiveFiles _ _ f m => Some (f, m)
                 | _ => None
                 end) t.

Definition authoritative (t : Trace) : option (list string * N) :=
  live_files_results t !! 1%nat.

(** An event of the table/blob pass. *)
Definition table_pass_event (e : Event) : Prop :=
  match e with
  | ELinkCb _ _ ty _ => is_table_or_blob ty = true
  | ECopyCb _ _ l ty _ _ _ => l = 0 /\ is_table_or_blob ty = true
  | _ => False
  end.

(** An event of the WAL pass. *)
Definition wal_pass_event (e : Event) : Prop :=
  cb_type e = Some kWalFile /\ is_create_cb e = false.

Section Passes.
Context {W : Type} {C : Collaborators W}.

Lemma transfer_table_and_blob_files_events glc cl tb s b :
  tables_ok tb ->
  spec (transfer_table_and_blob_files link_cb copy_cb glc cl tb (s, b))
       (fun r t => Forall table_pass_event t
                   /\ (ok (fst r) = true -> ok s = true)).
Proof.
  revert s b.
  induction tb as [| [[src_fname number] type] rest IH]; intros s b Htb; cbn.
  - apply spec_ret. split; [constructor | auto].
  - destruct (ok s) eqn:Hs; cbn [negb];
      [| apply spec_ret; split; [constructor | cbn; congruence]].
    apply Forall_cons_iff in Htb as [Hty Hrest]. cbn [snd] in Hty.
    assert (Hstep : forall s' b' t1,
              Forall table_pass_event t1 ->
              spec (transfer_table_and_blob_files link_cb copy_cb glc cl rest
                      (s', b'))
                   (fun r t => Forall table_pass_event (t1 ++ t)
                               /\ (ok (fst r) = true -> true = true))).
    { intros s' b' t1 Ht1. eapply spec_weaken; [apply (IH s' b' Hrest) |].
      cbn beta. intros r t [Ht _]. split; [| auto].
      apply Forall_app. now split. }
    unfold try_link.
    destruct (if glc then _ else _) as [[x cv] cn]. destruct b.
    + apply spec_bind_assoc, spec_link_cb_bind. intros r.
      destruct (IsNotSupported r) eqn:Hr; apply spec_ret_bind; cbn [negb].
      * apply spec_copy_cb_bind. intros r'.
        apply (Hstep r' false [_; _]). repeat constructor; assumption.
      * apply spec_ret_bind. apply (Hstep r true [_]).
        repeat constructor; assumption.
    + apply spec_ret_bind. cbn [negb]. apply spec_copy_cb_bind. intros r'.
      apply (Hstep r' false [_]). repeat constructor; assumption.
Qed.

Lemma transfer_wal_files_events wal_dir flush mln wal_size i wals s b :
  spec (transfer_wal_files link_cb copy_cb wal_dir flush mln wal_size i wals
          (s, b))
       (fun r t => Forall wal_pass_event t
                   /\ (ok (fst r) = true -> ok s = true)).
Proof.
  revert i s b. induction wals as [| wal rest IH]; intros i s b; cbn.
  - apply spec_ret. split; [constructor | auto].
  - destruct (ok s) eqn:Hs; cbn [negb];
      [| apply spec_ret; split; [constructor | cbn; congruence]].
    assert (Hstep : forall i' s' b' t1,
              Forall wal_pass_event t1 ->
              spec (transfer_wal_files link_cb copy_cb wal_dir flush mln
                      wal_size i' rest (s', b'))
                   (fun r t => Forall wal_pass_event (t1 ++ t)
                               /\ (ok (fst r) = true -> true = true))).
    { intros i' s' b' t1 Ht1. eapply spec_weaken; [apply (IH i' s' b') |].
      cbn beta. intros r t [Ht _]. split; [| auto].
      apply Forall_app. now split. }
    destruct (_ && _); [| apply (Hstep _ s b []); constructor].
    unfold try_link. destruct (i + 1 =? wal_size).
    + apply spec_copy_cb_bind. intros r. apply spec_ret.
      split; [| auto]. repeat constructor.
    + destruct b.
      * apply spec_bind_assoc, spec_link_cb_bind. intros r.
        destruct (IsNotSupported r) eqn:Hr; apply spec_ret_bind; cbn [negb].
        -- apply spec_copy_cb_bind. intros r'.
           apply (Hstep _ r' false [_; _]). repeat constructor.
        -- apply spec_ret_bind. apply (Hstep _ r true [_]).
           repeat constructor.
      * apply spec_ret_bind. cbn [negb]. apply spec_copy_cb_bind. intros r'.
        apply (Hstep _ r' false [_]). repeat constructor.
Qed.

End Passes.

Section ManifestAndCurrent.
Context {W : Type} {C : Collaborators W}.

(** What the transfer of the enumerated [files] leaves: the events up to the
    table/blob pass, the creation of CURRENT if any, and the WAL pass. *)
Definition transferred (msize : N) (files : list string) (sf : Status)
    (t : Trace) : Prop :=
  let cur := last_of_type kCurrentFile files in
  let man := last_of_type kDescriptorFile files in
  exists t1 tc t2,
    t = t1 ++ tc ++ t2
    /\ Forall (fun e => copy_limit_ok msize e /\ is_create_cb e = false) t1
    /\ Forall wal_pass_event t2
    /\ (tc = []
        \/ (exists r, tc = [ECreateCb cur (substr_from man 1 +:+ newline)
                             kCurrentFile r])
           /\ empty cur = false /\ empty man = false)
    /\ (ok sf = true ->
        (forall f n ty,
           In f files -> ParseFileName f = Some (n, ty) ->
           copied_in_first_pass ty = true ->
           exists r, In (ECopyCb GetName f (first_pass_limit msize ty) ty
                           kUnknownFileChecksumFuncName kUnknownFileChecksum r)
                        t1)
        /\ (empty cur = false -> empty man = false -> tc <> [])).

Lemma first_pass_event_limit msize e :
  first_pass_event msize e -> copy_limit_ok msize e /\ is_create_cb e = false.
Proof.
  intros (f & ty & r & Hty & ->). split; [| reflexivity]. cbn.
  unfold first_pass_limit. split.
  - intros ->. reflexivity.
  - intros Hd _. destruct (FileType_eqb ty kDescriptorFile) eqn:E; auto.
    apply FileType_eqb_eq in E. contradiction.
Qed.

Lemma table_pass_event_limit msize e :
  table_pass_event e -> copy_limit_ok msize e /\ is_create_cb e = false.
Proof.
  destruct e; cbn; try contradiction; auto.
  intros [-> Hty]. split; [| reflexivity]. split; [| reflexivity].
  intros ->. discriminate.
Qed.

Lemma transfer_live_files_transferred db_options glc flush mln msize files
    wals s :
  spec (transfer_live_files link_cb copy_cb create_cb db_options glc flush mln
          msize files wals s)
       (transferred msize files).
Proof.
  unfold transfer_live_files.
  eapply spec_bind; [apply process_live_files_spec; constructor |].
  intros [[[s1 mf] cf] tb] tp (Htp & Htb & Hok1). cbn [fst snd] in *.
  eapply spec_bind
    with (P := fun r t =>
                 Forall (fun e => copy_limit_ok msize e
                                  /\ is_create_cb e = false) t
                 /\ (ok (fst r) = true -> ok s1 = true)).
  { destruct (ok s1) eqn:Hs1; cbn [andb].
    - destruct glc.
      + eapply spec_weaken; [apply spec_call |]. cbn beta.
        intros r t ->. split; [| auto]. repeat constructor.
      + apply spec_ret. split; [constructor | auto].
    - apply spec_ret. split; [constructor | cbn; congruence]. }
  intros [s2 cl] tc (Htc & Hok2). cbn [fst snd] in *.
  eapply spec_bind; [apply transfer_table_and_blob_files_events; exact Htb |].
  intros [s3 b3] ttb (Httb & Hok3). cbn [fst snd] in *.
  set (cond := ok s3 && negb (empty cf) && negb (empty mf)).
  eapply spec_bind
    with (P := fun s4 t =>
                 (t = [] /\ s4 = s3 /\ cond = false)
                 \/ (exists r, t = [ECreateCb cf (substr_from mf 1 +:+ newline)
                                      kCurrentFile r]) /\ cond = true).
  { destruct cond.
    - eapply spec_weaken; [apply spec_call |]. cbn beta.
      intros r t ->. right. eauto.
    - apply spec_ret. left. auto. }
  intros s4 tcr Hcr.
  eapply spec_bind; [apply transfer_wal_files_events |].
  intros [s5 b5] tw (Htw & Hok5). cbn [fst snd] in *.
  apply spec_ret. rewrite app_nil_r.
  assert (Hdone : ok s3 = true ->
            mf = last_of_type kDescriptorFile files
            /\ cf = last_of_type kCurrentFile files
            /\ forall f n ty,
                 In f files -> ParseFileName f = Some (n, ty) ->
                 copied_in_first_pass ty = true ->
                 exists r,
                   In (ECopyCb GetName f (first_pass_limit msize ty) ty
                         kUnknownFileChecksumFuncName kUnknownFileChecksum r)
                      (tp ++ tc ++ ttb)).
  { intros H3. destruct (Hok1 (Hok2 (Hok3 H3))) as (-> & -> & Hall).
    split; [reflexivity | split; [reflexivity |]].
    intros f n ty Hin Hp Hty. destruct (Hall f n ty Hin Hp Hty) as (r & Hr).
    exists r. apply in_or_app. now left. }
  exists (tp ++ tc ++ ttb), tcr, tw.
  split; [now rewrite <- !app_assoc |].
  split.
  { apply Forall_app. split.
    - eapply Forall_impl; [exact Htp |]. apply first_pass_event_limit.
    - apply Forall_app. split; [exact Htc |].
      eapply Forall_impl; [exact Httb |]. apply table_pass_event_limit. }
  split; [exact Htw |].
  split.
  - destruct Hcr as [(-> & _ & _) | [(r & ->) Hcond]]; [now left | right].
    unfold cond in Hcond.
    apply andb_prop in Hcond as [Hcond Hmf].
    apply andb_prop in Hcond as [H3 Hcf].
    destruct (Hdone H3) as (<- & <- & _).
    split; [eauto |].
    split; [now destruct (empty cf) | now destruct (empty mf)].
  - intros H5. specialize (Hok5 H5).
    assert (H3 : ok s3 = true).
    { destruct Hcr as [(_ & <- & _) | [_ Hcond]]; [exact Hok5 |].
      unfold cond in Hcond. destruct (ok s3); [reflexivity | discriminate]. }
    destruct (Hdone H3) as (Hmf & Hcf & Hall).
    split; [exact Hall |].
    intros Hcur Hman.
    destruct Hcr as [(_ & _ & Hcond) | [(r & ->) _]]; [| discriminate].
    unfold cond in Hcond. rewrite H3, Hmf, Hcf, Hcur, Hman in Hcond.
    discriminate.
Qed.

End ManifestAndCurrent.

Section Authoritative.
Context {W : Type} {C : Collaborators W}.

Lemma flush_rule_no_live_files db_options log sd flush td :
  flush_rule db_options log sd flush td -> live_files_results td = [].
Proof.
  unfold flush_rule. intros H.
  destruct (allow_2pc db_options); [destruct H as (_ & _ & ->); reflexivity |].
  destruct (_ =? _); [destruct H as (_ & _ & ->); reflexivity |].
  destruct (_ <? _); [| destruct H as (_ & _ & ->); reflexivity].
  destruct H as (wals & -> & _). reflexivity.
Qed.

Lemma enumerated_authoritative db_options log n flush mln msize files wals s
    tg tt :
  enumerated db_options log n flush mln msize files wals s tg ->
  authoritative (tg ++ tt) = Some (files, msize).
Proof.
  intros H. destruct H. unfold authoritative, live_files_results.
  cbn [app]. rewrite <- app_assoc.
  change (omap ?f (EGetLatestSequenceNumber n :: ?l)) with (omap f l).
  rewrite omap_app. change (omap _ td) with (live_files_results td).
  erewrite flush_rule_no_live_files by eassumption. reflexivity.
Qed.

(** C8.  In a run of [CreateCustomCheckpoint] (file names being such that the
    empty name does not parse): every copy of a manifest (descriptor) file
    carries as size limit the manifest size returned by the second, the
    authoritative, call to [GetLiveFiles], and every copy of a file of
    another type but WAL carries no limit (0); CURRENT is created only
    through the create callback, only when a current file and a manifest
    were both among the authoritative live files, with the manifest's name
    without its leading slash followed by a newline as content; and in a run
    that succeeds every live file that is neither current, table nor blob is
    copied, and when both a current file and a manifest were observed
    CURRENT is created, after the table/blob pass and before the WAL pass. *)
Theorem manifest_limit_and_current db_options log_size_for_flush glc (w : W) :
  ParseFileName "" = None ->
  let run := CreateCustomCheckpoint link_cb copy_cb create_cb db_options
               log_size_for_flush glc w in
  let t := trace run in
  (forall d f l ty cn cv r,
     In (ECopyCb d f l ty cn cv r) t ->
     (ty = kDescriptorFile -> exists files, authoritative t = Some (files, l))
     /\ (ty <> kDescriptorFile -> ty <> kWalFile -> l = 0))
  /\ (forall fname contents ty r,
        In (ECreateCb fname contents ty r) t ->
        exists files msize,
          authoritative t = Some (files, msize)
          /\ observed kCurrentFile files /\ observed kDescriptorFile files
          /\ ty = kCurrentFile
          /\ fname = last_of_type kCurrentFile files
          /\ contents
             = substr_from (last_of_type kDescriptorFile files) 1 +:+ newline)
  /\ (ok (fst (result run)) = true ->
      exists files msize,
        authoritative t = Some (files, msize)
        /\ (forall f n ty,
              In f files -> ParseFileName f = Some (n, ty) ->
              copied_in_first_pass ty = true ->
              exists r,
                In (ECopyCb GetName f (first_pass_limit msize ty) ty
                      kUnknownFileChecksumFuncName kUnknownFileChecksum r) t)
        /\ (observed kCurrentFile files -> observed kDescriptorFile files ->
            exists t1 r t2,
              t = t1 ++ ECreateCb (last_of_type kCurrentFile files)
                          (substr_from (last_of_type kDescriptorFile files) 1
                           +:+ newline) kCurrentFile r :: t2
              /\ Forall wal_pass_event t2)).
Proof.
  intros Hempty run t.
  pose proof (CreateCustomCheckpoint_run link_cb copy_cb create_cb db_options
                glc (fun _ _ msize files _ _ => transferred msize files)
                (transfer_live_files_transferred db_options glc)
                log_size_for_flush w) as H.
  fold run in H. cbv beta in H. fold t in H.
  destruct H as [[Hbad Hall] | H].
  { split; [| split].
    - intros d f l ty cn cv r Hin.
      rewrite List.Forall_forall in Hall. apply Hall in Hin. discriminate.
    - intros fname contents ty r Hin.
      rewrite List.Forall_forall in Hall. apply Hall in Hin. discriminate.
    - congruence. }
  destruct H as (flush & mln & msize & files & wals & s & tg & tt & Hen & Ht
                 & t1 & tc & t2 & -> & H1 & H2 & Hc & Hok).
  pose proof (enumerated_authoritative _ _ _ _ _ _ _ _ _ _ (t1 ++ tc ++ t2)
                Hen) as Hauth.
  rewrite <- Ht in Hauth.
  apply enumerated_enumeration in Hen.
  rewrite List.Forall_forall in Hen, H1, H2.
  assert (Hcases : forall e, In e t ->
            (is_enumeration_event e = true) \/ In e t1 \/ In e tc \/ In e t2).
  { intros e. rewrite Ht, !in_app_iff. intros [? | [? | [? | ?]]]; auto. }
  split; [| split].
  - intros d f l ty cn cv r Hin.
    destruct (Hcases _ Hin) as [He | [He | [He | He]]].
    + discriminate.
    + destruct (H1 _ He) as [[Hd Ho] _]. split; [| exact Ho].
      intros Hty. rewrite (Hd Hty). eauto.
    + destruct Hc as [-> | [(r' & ->) _]]; [destruct He |].
      destruct He as [He | []]. discriminate.
    + destruct (H2 _ He) as [Hty _]. cbn in Hty. injection Hty as ->.
      split; [discriminate | congruence].
  - intros fname contents ty r Hin. exists files, msize.
    split; [exact Hauth |].
    destruct (Hcases _ Hin) as [He | [He | [He | He]]].
    + discriminate.
    + destruct (H1 _ He) as [_ Hn]. discriminate.
    + destruct Hc as [-> | [(r' & ->) [Hcur Hman]]]; [destruct He |].
      destruct He as [He | []]. injection He as <- <- <- <-.
      apply (last_of_type_observed _ _ Hempty) in Hcur, Hman. auto.
    + destruct (H2 _ He) as [_ Hn]. discriminate.
  - intros Hgood. exists files, msize. split; [exact Hauth |].
    destruct (Hok Hgood) as [Hcopies Hcreate]. split.
    + intros f n ty Hin Hp Hty.
      destruct (Hcopies f n ty Hin Hp Hty) as (r & Hr). exists r.
      rewrite Ht, !in_app_iff. auto.
    + intros Hcur Hman.
      apply (last_of_type_observed _ _ Hempty) in Hcur, Hman.
      specialize (Hcreate Hcur Hman).
      destruct Hc as [-> | [(r & ->) _]]; [contradiction |].
      exists (tg ++ t1), r, t2. split; [| now apply List.Forall_forall].
      rewrite Ht, <- !app_assoc. reflexivity.
Qed.

End Authoritative.

(** ** CreateCheckpoint *)

(** The calls on the file system and the options files. *)
Definition is_fs_event (e : Event) : bool :=
  match e with
  | EFileExists _ _ | EGetChildren _ _ _ | EDeleteFile _ _ | EDeleteDir _ _
  | ECreateDir _ _ | ERenameFile _ _ _ | ENewDirectory _ _ _ | EFsync _ _
  | ELinkFile _ _ _ | ECopyFile _ _ _ _ _ | ECreateFile _ _ _ _
  | ELoadOptionsFromFile _ _ _ _ | EPersistRocksDBOptions _ _ _ _ _ => true
  | _ => false
  end.

(** The calls that transfer a file into the checkpoint. *)
Definition is_transfer_event (e : Event) : bool :=
  match e with
  | ELinkFile _ _ _ | ECopyFile _ _ _ _ _ | ECreateFile _ _ _ _
  | ELoadOptionsFromFile _ _ _ _ | EPersistRocksDBOptions _ _ _ _ _ => true
  | _ => false
  end.

Definition is_persist (e : Event) : bool :=
  match e with EPersistRocksDBOptions _ _ _ _ _ => true | _ => false end.

(** [DisableFileDeletions] ([inl]) and [EnableFileDeletions] ([inr]) calls of
    a trace, in order. *)
Definition deletion_calls (t : Trace) : list (Status + bool * Status) :=
  omap (fun e => match e with
                 | EDisableFileDeletions r => Some (inl r)
                 | EEnableFileDeletions force r => Some (inr (force, r))
                 | _ => None
                 end) t.

Definition is_deletion_call (e : Event) : bool :=
  match e with
  | EDisableFileDeletions _ | EEnableFileDeletions _ _ => true
  | _ => false
  end.

(** The bracket: no call at all, a [DisableFileDeletions] that did not
    succeed and no [EnableFileDeletions], or a successful
    [DisableFileDeletions] followed by exactly one [EnableFileDeletions]. *)
Definition bracketed (calls : list (Status + bool * Status)) : Prop :=
  calls = []
  \/ (exists r, calls = [inl r] /\ ok r = false)
  \/ (exists r r', calls = [inl r; inr (false, r')] /\ ok r = true).

(** [s] consists of slashes only (the empty string included). *)
Fixpoint only_slashes (s : string) : bool :=
  match s with
  | EmptyString => true
  | String c s' => Ascii.eqb c slash && only_slashes s'
  end.

Section Checkpoint.
Context {W : Type} {C : Collaborators W}.

Lemma CleanStagingDirectory_emits (P : Event -> Prop) p :
  (forall e, is_fs_event e = true -> is_transfer_event e = false -> P e) ->
  emits P (CleanStagingDirectory p).
Proof.
  intros H. unfold CleanStagingDirectory, FileExists, GetChildren, DeleteFile,
    DeleteDir.
  repeat emits_step; now apply H.
Qed.

Lemma CopyOptionsFile_emits (P : Event -> Prop) src dst l wd :
  (forall e, is_transfer_event e = true -> is_persist e = false -> P e) ->
  (forall o names opts path r,
     db_log_dir o = l -> wal_dir o = wd ->
     P (EPersistRocksDBOptions o names opts path r)) ->
  emits P (CopyOptionsFile src dst l wd).
Proof.
  intros H Hp. unfold CopyOptionsFile, LoadOptionsFromFile,
    PersistRocksDBOptions.
  repeat emits_step; try (now apply H). now apply Hp.
Qed.

(** The transfer made by [CreateCheckpoint] emits engine enumeration calls
    and transfers only, and every options file it writes carries the
    resolved [db_log_dir] and [wal_dir]. *)
Lemma checkpoint_transfer_emits (P : Event -> Prop) o staging nwd vl vw log :
  (forall e, is_transfer_event e = true -> is_persist e = false -> P e) ->
  (forall o' names opts path r,
     db_log_dir o' = vl -> wal_dir o' = vw ->
     P (EPersistRocksDBOptions o' names opts path r)) ->
  (forall e, is_enumeration_event e = true -> P e) ->
  (forall p sz r l, P (EGetFileChecksumsFromManifest p sz r l)) ->
  emits P (CreateCustomCheckpoint
             (checkpoint_link_file_cb staging nwd)
             (checkpoint_copy_file_cb o staging nwd vl vw)
             (checkpoint_create_file_cb o staging)
             o log default_get_live_table_checksum).
Proof.
  intros Ht Hp He Hc. apply CreateCustomCheckpoint_emits; auto.
  - intros. unfold checkpoint_link_file_cb, LinkFile.
    apply emits_call. intros. now apply Ht.
  - intros. unfold checkpoint_copy_file_cb, CopyFile.
    destruct (FileType_eqb t kOptionsFile).
    + now apply CopyOptionsFile_emits.
    + apply emits_call. intros. now apply Ht.
  - intros. unfold checkpoint_create_file_cb, CreateFile.
    apply emits_call. intros. now apply Ht.
Qed.

Lemma finish_checkpoint_emits (P : Event -> Prop) staging target ptr s n :
  (forall e, is_fs_event e = true -> is_transfer_event e = false -> P e) ->
  emits P (finish_checkpoint staging target ptr s n).
Proof.
  intros H. unfold finish_checkpoint, RenameFile, NewDirectory, Fsync.
  repeat (emits_step; try (apply CleanStagingDirectory_emits; exact H));
    now apply H.
Qed.

Lemma find_last_not_of_only_slashes_from s i :
  only_slashes s = true -> find_last_not_of_from s slash i npos = npos.
Proof.
  revert i. induction s as [| c s IH]; intros i H; cbn in *; [reflexivity |].
  apply andb_prop in H as [Hc Hs]. rewrite Hc. now apply IH.
Qed.

Lemma find_last_not_of_only_slashes s :
  only_slashes s = true -> find_last_not_of s slash = npos.
Proof. apply find_last_not_of_only_slashes_from. Qed.

Lemma spec_trivial {A} (m : M W A) : spec m (fun _ _ => True).
Proof. intros w. exact I. Qed.

(** C7.  [CreateCheckpoint] and [ExportColumnFamily] reject their target
    directory before any mutation.  Both start by reading the options and
    probing the target.  If the probe finds the target (answers OK) the call
    returns InvalidArgument; if the path is empty or consists only of
    slashes and the probe answers (OK or NotFound) the call returns
    InvalidArgument.  In both cases the read and the probe are the only calls
    made: no directory is created, no file transferred, nothing stored
    through the out-parameters. *)
Theorem target_rejected_before_mutation dir log_size_for_flush ptr dlog dwal
    handle mem (w : W) :
  let cp := CreateCheckpoint dir log_size_for_flush ptr dlog dwal w in
  let ex := ExportColumnFamily handle dir mem w in
  (exists o r0 tl,
     trace cp = EGetDBOptions o :: EFileExists dir r0 :: tl
     /\ (ok r0 = true ->
         result cp = (St.InvalidArgument "Directory exists", None)
         /\ tl = [])
     /\ (only_slashes dir = true -> ok r0 = true \/ IsNotFound r0 = true ->
         IsInvalidArgument (fst (result cp)) = true
         /\ snd (result cp) = None /\ tl = []))
  /\ (exists o r0 tl,
        trace ex = EGetDBOptions o :: EFileExists dir r0 :: tl
        /\ (ok r0 = true ->
            result ex = (St.InvalidArgument "Specified export_dir exists", mem)
            /\ tl = [])
        /\ (only_slashes dir = true -> ok r0 = true \/ IsNotFound r0 = true ->
            IsInvalidArgument (fst (result ex)) = true
            /\ snd (result ex) = mem /\ tl = [])).
Proof.
  intros cp ex. split.
  - unfold cp. generalize w. clear.
    change (spec (CreateCheckpoint dir log_size_for_flush ptr dlog dwal)
              (fun r t => exists o r0 tl,
                 t = EGetDBOptions o :: EFileExists dir r0 :: tl
                 /\ (ok r0 = true ->
                     r = (St.InvalidArgument "Directory exists", None)
                     /\ tl = [])
                 /\ (only_slashes dir = true ->
                     ok r0 = true \/ IsNotFound r0 = true ->
                     IsInvalidArgument (fst r) = true
                     /\ snd r = None /\ tl = []))).
    unfold CreateCheckpoint, GetDBOptions, FileExists.
    apply spec_call_bind. intros o. apply spec_call_bind. intros r0.
    destruct (ok r0) eqn:Hok.
    { apply spec_ret. exists o, r0, []. rewrite Hok. auto. }
    destruct (IsNotFound r0) eqn:Hnf; cbn [negb].
    2:{ apply spec_ret. exists o, r0, []. rewrite Hok, Hnf.
        split; [reflexivity |]. split; [discriminate |].
        intros _ [? | ?]; discriminate. }
    destruct (N.eqb_spec (find_last_not_of dir slash) npos) as [Hnpos | Hnpos].
    { apply spec_ret. exists o, r0, []. rewrite Hok.
      split; [reflexivity |]. split; [discriminate | auto]. }
    eapply spec_weaken; [apply spec_trivial |].
    intros r t _. exists o, r0, t. rewrite Hok.
    split; [reflexivity |]. split; [discriminate |].
    intros Hs _. now apply find_last_not_of_only_slashes in Hs.
  - unfold ex. generalize w. clear.
    change (spec (ExportColumnFamily handle dir mem)
              (fun r t => exists o r0 tl,
                 t = EGetDBOptions o :: EFileExists dir r0 :: tl
                 /\ (ok r0 = true ->
                     r = (St.InvalidArgument "Specified export_dir exists",
                          mem)
                     /\ tl = [])
                 /\ (only_slashes dir = true ->
                     ok r0 = true \/ IsNotFound r0 = true ->
                     IsInvalidArgument (fst r) = true
                     /\ snd r = mem /\ tl = []))).
    unfold ExportColumnFamily, GetDBOptions, FileExists.
    apply spec_call_bind. intros o. apply spec_call_bind. intros r0.
    destruct (ok r0) eqn:Hok.
    { apply spec_ret. exists o, r0, []. rewrite Hok. auto. }
    destruct (IsNotFound r0) eqn:Hnf; cbn [negb].
    2:{ apply spec_ret. exists o, r0, []. rewrite Hok, Hnf.
        split; [reflexivity |]. split; [discriminate |].
        intros _ [? | ?]; discriminate. }
    destruct (N.eqb_spec (find_last_not_of dir slash) npos) as [Hnpos | Hnpos].
    { apply spec_ret. exists o, r0, []. rewrite Hok.
      split; [reflexivity |]. split; [discriminate | auto]. }
    eapply spec_weaken; [apply spec_trivial |].
    intros r t _. exists o, r0, t. rewrite Hok.
    split; [reflexivity |]. split; [discriminate |].
    intros Hs _. now apply find_last_not_of_only_slashes in Hs.
Qed.

End Checkpoint.

(** ** The bracket of file-deletion suppression *)

Section Deletions.
Context {W : Type} {C : Collaborators W}.

Local Abbreviation quiet := (fun e => is_deletion_call e = false).
Local Abbreviation in_bracket :=
  (fun (_ : _) (t : Trace) => bracketed (deletion_calls t)).

Lemma deletion_calls_app t1 t2 :
  deletion_calls (t1 ++ t2) = deletion_calls t1 ++ deletion_calls t2.
Proof. apply omap_app. Qed.

Lemma deletion_calls_quiet t : Forall quiet t -> deletion_calls t = [].
Proof.
  induction 1 as [| e t He _ IH]; [reflexivity |].
  unfold deletion_calls in *. cbn.
  destruct e; cbn in *; try discriminate; exact IH.
Qed.

Lemma spec_quiet_bind {A B} (m : M W A) (f : A -> M W B) :
  emits quiet m -> (forall a, spec (f a) in_bracket) ->
  spec (bind m f) in_bracket.
Proof.
  intros Hm Hf. eapply spec_bind; [exact Hm |].
  intros a t1 Ht1. eapply spec_weaken; [apply Hf |].
  cbn beta. intros _ t2 H2.
  now rewrite deletion_calls_app, (deletion_calls_quiet t1).
Qed.

Lemma spec_bind_quiet {A B} (m : M W A) (f : A -> M W B) :
  spec m in_bracket -> (forall a, emits quiet (f a)) ->
  spec (bind m f) in_bracket.
Proof.
  intros Hm Hf. eapply spec_bind; [exact Hm |].
  intros a t1 Ht1. eapply spec_weaken; [apply Hf |].
  cbn beta. intros _ t2 H2.
  now rewrite deletion_calls_app, (deletion_calls_quiet t2), app_nil_r.
Qed.

Lemma export_level_files_emits (P : Event -> Prop) link copy fs st :
  (forall d f, emits P (link d f)) -> (forall d f, emits P (copy d f)) ->
  emits P (export_level_files link copy fs st).
Proof.
  intros Hl Hc. revert st. induction fs as [| f rest IH]; intros st; cbn.
  - apply emits_ret.
  - destruct st as [[s hardlink] num].
    repeat (emits_step; auto).
Qed.

Lemma export_levels_emits (P : Event -> Prop) link copy lvls st :
  (forall d f, emits P (link d f)) -> (forall d f, emits P (copy d f)) ->
  emits P (export_levels link copy lvls st).
Proof.
  intros Hl Hc. revert st. induction lvls as [| l rest IH]; intros st; cbn.
  - apply emits_ret.
  - apply emits_bind; [now apply export_level_files_emits | auto].
Qed.

Lemma ExportFilesInMetaData_emits (P : Event -> Prop) link copy o md :
  (forall d f, emits P (link d f)) -> (forall d f, emits P (copy d f)) ->
  emits P (ExportFilesInMetaData link copy o md).
Proof.
  intros Hl Hc. unfold ExportFilesInMetaData.
  apply emits_bind; [now apply export_levels_emits |].
  intros [[s h] n]. apply emits_ret.
Qed.

Lemma export_cleanup_emits (P : Event -> Prop) p :
  (forall e, is_fs_event e = true -> is_transfer_event e = false -> P e) ->
  emits P (export_cleanup p).
Proof.
  intros H. unfold export_cleanup, GetChildren, DeleteFile, DeleteDir.
  repeat emits_step; now apply H.
Qed.

Lemma CreateCheckpoint_bracket dir log_size_for_flush ptr dlog dwal :
  spec (CreateCheckpoint dir log_size_for_flush ptr dlog dwal) in_bracket.
Proof.
  unfold CreateCheckpoint, GetDBOptions, FileExists, CreateDir.
  apply spec_quiet_bind; [now apply emits_call |]. intros o.
  apply spec_quiet_bind; [now apply emits_call |]. intros r0.
  destruct (ok r0); [apply spec_ret; now left |].
  destruct (negb (IsNotFound r0)); [apply spec_ret; now left |].
  destruct (_ =? npos); [apply spec_ret; now left |].
  apply spec_quiet_bind.
  { apply CleanStagingDirectory_emits. intros e. now destruct e. }
  intros _.
  apply spec_quiet_bind; [now apply emits_call |]. intros s1.
  apply spec_quiet_bind.
  { repeat emits_step; reflexivity. }
  intros s2.
  apply spec_bind_quiet.
  2:{ intros [s3 n]. apply finish_checkpoint_emits. intros e. now destruct e. }
  destruct (ok s2); [| apply spec_ret; now left].
  unfold DisableFileDeletions, EnableFileDeletions.
  apply spec_call_bind. intros r.
  assert (Hquiet : forall staging nwd vl vw,
            emits quiet
              (CreateCustomCheckpoint
                 (checkpoint_link_file_cb staging nwd)
                 (checkpoint_copy_file_cb o staging nwd vl vw)
                 (checkpoint_create_file_cb o staging)
                 o log_size_for_flush default_get_live_table_checksum)).
  { intros. apply checkpoint_transfer_emits; intros; try reflexivity;
      now destruct e. }
  destruct (ok r) eqn:Hr; cbn [orb].
  - eapply spec_bind; [apply Hquiet |].
    intros [s3 n] t1 Ht1. cbn beta in Ht1.
    apply spec_bind_assoc, spec_call_bind. intros r'.
    apply spec_ret_bind, spec_ret.
    change (deletion_calls (?e :: ?l)) with (inl r :: deletion_calls l).
    rewrite deletion_calls_app, (deletion_calls_quiet t1) by exact Ht1.
    right. right. exists r, r'. auto.
  - destruct (IsNotSupported r).
    + eapply spec_bind; [apply Hquiet |].
      intros [s3 n] t1 Ht1. cbn beta in Ht1.
      apply spec_ret_bind, spec_ret.
      change (deletion_calls (?e :: ?l)) with (inl r :: deletion_calls l).
      rewrite deletion_calls_app, (deletion_calls_quiet t1) by exact Ht1.
      right. left. exists r. auto.
    + apply spec_ret. right. left. exists r. auto.
Qed.

Lemma ExportColumnFamily_bracket handle export_dir mem :
  spec (ExportColumnFamily handle export_dir mem) in_bracket.
Proof.
  unfold ExportColumnFamily, GetDBOptions, FileExists, CreateDir, Flush.
  apply spec_quiet_bind; [now apply emits_call |]. intros o.
  apply spec_quiet_bind; [now apply emits_call |]. intros r0.
  destruct (ok r0); [apply spec_ret; now left |].
  destruct (negb (IsNotFound r0)); [apply spec_ret; now left |].
  destruct (_ =? npos); [apply spec_ret; now left |].
  apply spec_quiet_bind; [now apply emits_call |]. intros s1.
  apply spec_quiet_bind.
  { repeat emits_step; reflexivity. }
  intros s2.
  apply spec_bind_quiet.
  2:{ intros [s3 md]. unfold RenameFile, NewDirectory, Fsync.
      repeat (emits_step;
              try (apply export_cleanup_emits; intros e; now destruct e));
        reflexivity. }
  destruct (ok s2); [| apply spec_ret; now left].
  unfold DisableFileDeletions, EnableFileDeletions, GetColumnFamilyMetaData.
  apply spec_call_bind. intros r.
  destruct (ok r) eqn:Hr.
  - apply spec_call_bind. intros md.
    eapply spec_bind.
    { apply (ExportFilesInMetaData_emits quiet); intros;
        unfold export_link_file_cb, export_copy_file_cb, LinkFile, CopyFile;
        now apply emits_call. }
    intros s3 t1 Ht1. cbn beta in Ht1.
    apply spec_call_bind. intros r'. apply spec_ret.
    change (deletion_calls (?e :: ?e' :: ?l))
      with (inl r :: deletion_calls l).
    rewrite deletion_calls_app, (deletion_calls_quiet t1) by exact Ht1.
    right. right. exists r, r'. auto.
  - apply spec_ret. right. left. exists r. auto.
Qed.

(** C6.  In both [CreateCheckpoint] and [ExportColumnFamily] the calls to
    [DisableFileDeletions] and [EnableFileDeletions] made by a run are, in
    order: none at all; or one [DisableFileDeletions] that did not succeed
    and no [EnableFileDeletions]; or one successful [DisableFileDeletions]
    followed by exactly one [EnableFileDeletions].  This holds for every
    run, whatever the transfer in between returns. *)
Theorem deletions_reenabled_exactly_once dir log_size_for_flush ptr dlog dwal
    handle mem (w : W) :
  bracketed (deletion_calls
               (trace (CreateCheckpoint dir log_size_for_flush ptr dlog dwal
                         w)))
  /\ bracketed (deletion_calls (trace (ExportColumnFamily handle dir mem w))).
Proof.
  split; [apply CreateCheckpoint_bracket | apply ExportColumnFamily_bracket].
Qed.

End Deletions.

(** ** The directory overrides *)


Section Overrides.
Context {W : Type} {C : Collaborators W}.



End Overrides.

(** ** Failure of CreateCheckpoint *)

(** The deletions of the children [cs] of directory [p]. *)
Definition deletes_children (p : string) (cs : list string) (t : Trace)
    : Prop :=
  Forall2 (fun c e => exists st, e = EDeleteFile (p +:+ "/" +:+ c) st) cs t.

(** The trace of a purge of directory [p]: the probe, and when [p] is there
    the listing of its children, their deletion when the listing succeeded,
    and the deletion of [p] itself. *)
Inductive purge_trace (p : string) : Trace -> Prop :=
| purge_absent r :
    IsNotFound r = true -> purge_trace p [EFileExists p r]
| purge_present r r' children dels rd :
    IsNotFound r = false ->
    deletes_children p (if ok r' then children else []) dels ->
    purge_trace p (EFileExists p r :: EGetChildren p r' children
                   :: dels ++ [EDeleteDir p rd]).

(** The calls to [RenameFile]: source, destination and status. *)
Definition rename_calls (t : Trace) : list (string * string * Status) :=
  omap (fun e => match e with
                 | ERenameFile a b r => Some (a, b, r)
                 | _ => None
                 end) t.

Definition is_rename (e : Event) : bool :=
  match e with ERenameFile _ _ _ => true | _ => false end.




Section Failure.
Context {W : Type} {C : Collaborators W}.

Lemma append_length (a b : string) :
  String.length (a +:+ b) = (String.length a + String.length b)%nat.
Proof.
  induction a as [| c a IH]; [reflexivity |].
  change (S (String.length (a +:+ b))
          = S (String.length a + String.length b)).
  now f_equal.
Qed.




Lemma rename_calls_app t1 t2 :
  rename_calls (t1 ++ t2) = rename_calls t1 ++ rename_calls t2.
Proof. apply omap_app. Qed.

Lemma rename_calls_none t :
  Forall (fun e => is_rename e = false) t -> rename_calls t = [].
Proof.
  induction 1 as [| e t He _ IH]; [reflexivity |].
  unfold rename_calls in *. cbn.
  destruct e; cbn in *; try discriminate; exact IH.
Qed.

Lemma for_each_deletes p cs :
  spec (for_each cs (fun subchild =>
          bind (DeleteFile (p +:+ "/" +:+ subchild)) (fun _ => ret tt)))
       (fun _ t => deletes_children p cs t).
Proof.
  induction cs as [| c cs IH]; cbn.
  - apply spec_ret. constructor.
  - unfold DeleteFile at 1. apply spec_bind_assoc, spec_call_bind. intros st.
    apply spec_ret_bind. eapply spec_weaken; [exact IH |].
    cbn beta. intros _ t Ht. constructor; eauto.
Qed.

Lemma CleanStagingDirectory_purges p :
  spec (CleanStagingDirectory p) (fun _ t => purge_trace p t).
Proof.
  unfold CleanStagingDirectory, FileExists, GetChildren, DeleteDir.
  apply spec_call_bind. intros r.
  destruct (IsNotFound r) eqn:Hr; [apply spec_ret; now constructor |].
  apply spec_call_bind. intros [r' children]. cbn [fst snd].
  eapply spec_bind
    with (P := fun _ t =>
                 deletes_children p (if ok r' then children else []) t).
  { destruct (ok r'); [apply for_each_deletes | apply spec_ret; constructor]. }
  intros _ dels Hdels. apply spec_call_bind. intros rd. apply spec_ret.
  now constructor.
Qed.









End Failure.

(** ** ExportFilesInMetaData *)



(** What a copy copied: the source directory and the file name. *)
Definition copied (t : Trace) : list (string * string) :=
  omap (fun e => match e with
                 | EExportCopyCb d f _ => Some (d, f)
                 | _ => None
                 end) t.


(** The table files of all levels, in order. *)
Definition all_files (lvls : list LevelMetaData) : list SstFileMetaData :=
  flat_map files lvls.

Section ExportFiles.
Context {W : Type} {C : Collaborators W}.

Definition parses (f : SstFileMetaData) : Prop :=
  ParseFileName (sst_name f) <> None.

Definition sources (fs : list SstFileMetaData) : list (string * string) :=
  map (fun f => (GetName, sst_name f)) fs.

Lemma spec_export_link_cb_bind {B} d f (k : Status -> M W B) Q :
  (forall r, spec (k r) (fun b t => Q b (EExportLinkCb d f r :: t))) ->
  spec (bind (export_link_cb d f) k) Q.
Proof. apply spec_call_bind. Qed.






End ExportFiles.


Section ExportStart.
Context {W : Type} {C : Collaborators W}.




End ExportStart.

(** ** The metadata returned by ExportColumnFamily *)

(** One record per table file of the captured metadata, in order. *)
Definition exported_records (export_dir : string) (lvls : list LevelMetaData)
    : list LiveFileMetaData :=
  flat_map (fun l => map (live_file_metadata_of export_dir l) (files l)) lvls.

(** The table files of the captured metadata, each with the number of its
    level, level after level. *)
Definition files_by_level (lvls : list LevelMetaData)
    : list (N * SstFileMetaData) :=
  flat_map (fun l => map (pair (level l)) (files l)) lvls.

(** The record [record] describes the table file [x] of the captured
    metadata, exported to [export_dir]: it carries the file's size, name,
    file number, sequence-number range, key range and oldest blob file
    number, the number of the file's level, and [export_dir] as path. *)
Definition carries (export_dir : string) (record : LiveFileMetaData)
    (x : N * SstFileMetaData) : Prop :=
  lf_size record = sst_size (snd x)
  /\ lf_name record = sst_name (snd x)
  /\ lf_file_number record = sst_file_number (snd x)
  /\ lf_smallest_seqno record = sst_smallest_seqno (snd x)
  /\ lf_largest_seqno record = sst_largest_seqno (snd x)
  /\ lf_smallestkey record = sst_smallestkey (snd x)
  /\ lf_largestkey record = sst_largestkey (snd x)
  /\ lf_oldest_blob_file_number record = sst_oldest_blob_file_number (snd x)
  /\ lf_level record = fst x
  /\ lf_db_path record = export_dir.

Section ExportMetadata.
Context {W : Type} {C : Collaborators W}.

Lemma fill_level_files_lookup dir p l fs m nm acc :
  heap m !! p = Some (mkExport nm acc) ->
  heap (fill_level_files dir p l fs m) !! p
  = Some (mkExport nm (acc ++ map (live_file_metadata_of dir l) fs))
  /\ metadata_ptr (fill_level_files dir p l fs m) = metadata_ptr m.
Proof.
  revert m acc. induction fs as [| f rest IH]; intros m acc Hm;
    cbn [fill_level_files map].
  - now rewrite app_nil_r.
  - destruct (IH (push_back_file p (live_file_metadata_of dir l f) m)
                (acc ++ [live_file_metadata_of dir l f])) as [Hh Hp].
    { cbn. rewrite lookup_alter_eq, Hm. reflexivity. }
    rewrite Hh, Hp, <- app_assoc. auto.
Qed.

Lemma fill_levels_lookup dir p lvls m nm acc :
  heap m !! p = Some (mkExport nm acc) ->
  heap (fill_levels dir p lvls m) !! p
  = Some (mkExport nm (acc ++ exported_records dir lvls))
  /\ metadata_ptr (fill_levels dir p lvls m)
     = match lvls with [] => metadata_ptr m | _ => Some p end.
Proof.
  revert m acc. induction lvls as [| l rest IH]; intros m acc Hm;
    cbn [fill_levels exported_records flat_map].
  - now rewrite app_nil_r.
  - destruct (fill_level_files_lookup dir p l (files l) m nm acc Hm)
      as [Hh Hp].
    destruct (IH (store_metadata_ptr p
                    (fill_level_files dir p l (files l) m))
                (acc ++ map (live_file_metadata_of dir l) (files l)))
      as [Hh' Hp'].
    { exact Hh. }
    fold (exported_records dir rest). rewrite Hh', <- app_assoc.
    split; [reflexivity |]. rewrite Hp'. now destruct rest.
Qed.

(** The memory after the success branch of [ExportColumnFamily]. *)
Lemma exported_memory handle dir lvls mem :
  let m' :=
    let '(p, m) := new_metadata mem in
    fill_levels dir p lvls (set_comparator_name p (comparator_name handle) m)
  in
  (lvls = [] -> metadata_ptr m' = metadata_ptr mem)
  /\ (lvls <> [] ->
      read_metadata m'
      = Some (mkExport (comparator_name handle) (exported_records dir lvls))).
Proof.
  cbn. set (p := fresh (dom (heap mem))).
  destruct (fill_levels_lookup dir p lvls
              (set_comparator_name p (comparator_name handle)
                 {| heap := <[p := mkExport "" []]> (heap mem);
                    metadata_ptr := metadata_ptr mem |})
              (comparator_name handle) []) as [Hh Hp].
  { cbn. now rewrite lookup_alter_eq, lookup_insert_eq. }
  split.
  - intros ->. exact Hp.
  - intros Hne. unfold read_metadata. rewrite Hp.
    destruct lvls; [contradiction |]. exact Hh.
Qed.

Lemma exported_records_length dir lvls :
  List.length (exported_records dir lvls) = List.length (all_files lvls).
Proof.
  induction lvls as [| l rest IH]; [reflexivity |].
  unfold exported_records, all_files in *. cbn [flat_map].
  now rewrite !length_app, length_map, IH.
Qed.

Lemma exported_records_carry dir lvls :
  Forall2 (carries dir) (exported_records dir lvls) (files_by_level lvls).
Proof.
  induction lvls as [| l rest IH]; [constructor |].
  unfold exported_records, files_by_level in *. cbn [flat_map].
  apply Forall2_app; [| exact IH].
  induction (files l) as [| f fs IHf]; [constructor |].
  cbn [map]. constructor; [| exact IHf].
  unfold carries. cbn. repeat split; reflexivity.
Qed.

(** C10.  On a successful [ExportColumnFamily] the column-family metadata
    was captured (by the call to [GetColumnFamilyMetaData]) and the
    out-parameter is assigned only if that metadata has at least one level:
    with no level the caller's pointer is left as it was (null, by the
    assertion on entry); with at least one level what the caller reads
    through it is the comparator name of the column family and exactly one
    record per table file across all levels, in order, the record of a file
    carrying the file's captured size, name, file number, smallest and
    largest sequence number, smallest and largest key and oldest blob file
    number, the number of the file's level, and the export directory. *)
Theorem export_metadata_out_parameter handle export_dir mem (w : W) :
  let run := ExportColumnFamily handle export_dir mem w in
  ok (fst (result run)) = true ->
  exists md pre post,
    trace run = pre ++ EGetColumnFamilyMetaData (cf_name handle) md :: post
    /\ (levels md = [] ->
        metadata_ptr (snd (result run)) = metadata_ptr mem)
    /\ (levels md <> [] ->
        exists records,
          read_metadata (snd (result run))
          = Some (mkExport (comparator_name handle) records)
          /\ List.length records = List.length (all_files (levels md))
          /\ Forall2 (carries export_dir) records
                     (files_by_level (levels md))).
Proof.
  intros run. unfold run. generalize w.
  change (spec (ExportColumnFamily handle export_dir mem)
            (fun r t =>
               ok (fst r) = true ->
               exists md pre post,
                 t = pre ++ EGetColumnFamilyMetaData (cf_name handle) md
                            :: post
                 /\ (levels md = [] -> metadata_ptr (snd r) = metadata_ptr mem)
                 /\ (levels md <> [] ->
                     exists records,
                       read_metadata (snd r)
                       = Some (mkExport (comparator_name handle) records)
                       /\ List.length records
                          = List.length (all_files (levels md))
                       /\ Forall2 (carries export_dir) records
                                  (files_by_level (levels md))))).
  unfold ExportColumnFamily, GetDBOptions. unfold FileExists, CreateDir.
  apply spec_call_bind. intros o. apply spec_call_bind. intros r0.
  destruct (ok r0) eqn:Hok; [apply spec_ret; discriminate |].
  destruct (IsNotFound r0); cbn [negb];
    [| apply spec_ret; cbn [fst snd]; congruence].
  destruct (_ =? npos); [apply spec_ret; discriminate |].
  apply spec_call_bind. intros s1.
  eapply spec_bind; [apply spec_trivial |]. intros s2 t2 _.
  eapply spec_bind
    with (P := fun r t =>
                 ok (fst r) = true ->
                 exists pre post,
                   t = pre ++ EGetColumnFamilyMetaData (cf_name handle) (snd r)
                              :: post).
  { destruct (ok s2) eqn:Hs2; [| apply spec_ret; cbn [fst snd]; congruence].
    unfold DisableFileDeletions, GetColumnFamilyMetaData, EnableFileDeletions.
    apply spec_call_bind. intros r.
    destruct (ok r) eqn:Hr; [| apply spec_ret; cbn [fst snd]; congruence].
    apply spec_call_bind. intros md.
    eapply spec_bind; [apply spec_trivial |]. intros s3 t3 _.
    apply spec_call_bind. intros r'. apply spec_ret. intros _.
    cbn [snd]. exists [EDisableFileDeletions r]. eexists. reflexivity. }
  intros [s3 md] t3 H3. cbn [fst snd] in H3.
  eapply spec_bind with (P := fun s4 _ => ok s4 = true -> ok s3 = true).
  { destruct (ok s3) eqn:Hs3;
      [apply spec_weaken with (P := fun _ _ => True);
       [apply spec_trivial | auto]
      | apply spec_ret; congruence]. }
  intros s4 t4 H4.
  eapply spec_bind
    with (P := fun r _ => ok (fst r) = true -> ok s4 = true).
  { destruct (ok s4) eqn:Hs4;
      [apply spec_weaken with (P := fun _ _ => True);
       [apply spec_trivial | auto]
      | apply spec_ret; cbn [fst snd]; congruence]. }
  intros [s5 moved] t5 H5. cbn [fst] in H5.
  destruct (ok s5) eqn:Hs5.
  - apply spec_ret. intros _.
    destruct (H3 (H4 (H5 eq_refl))) as (pre & post & ->).
    exists md. eexists (_ :: _ :: _ :: t2 ++ pre).
    exists (post ++ t4 ++ t5 ++ []).
    split.
    { cbn [app]. rewrite <- !app_assoc. cbn [app]. reflexivity. }
    cbn [snd].
    destruct (exported_memory handle export_dir (levels md) mem) as [Hn Hs].
    split; [exact Hn |]. intros Hne.
    exists (exported_records export_dir (levels md)).
    split; [exact (Hs Hne) |].
    split; [apply exported_records_length | apply exported_records_carry].
  - eapply spec_bind; [apply spec_trivial |]. intros u t6 _.
    apply spec_ret. cbn [fst snd]. congruence.
Qed.

End ExportMetadata.

(** * Runs on the simulated engine *)

#[local] Existing Instance Sim.collaborators.

(** The sources of the hard links and of the copies made through the file
    system, and the options files written. *)
Definition link_file_sources (t : Trace) : list string :=
  omap (fun e => match e with ELinkFile src _ _ => Some src | _ => None end)
       t.

Definition copy_file_sources (t : Trace) : list string :=
  omap (fun e => match e with
                 | ECopyFile src _ _ _ _ => Some src
                 | _ => None
                 end) t.




(** The order of the listing matters to the WAL pass, which copies the
    descriptor listed last: were an archived WAL listed after the live one,
    the live one, the final WAL of the filtered set, would be
    hard-linked. *)
Lemma final_required_wal_is_linked :
  let run :=
    CreateCheckpoint "/snap" kMaxUint64 false "" "" Sim.archived_last_db in
  live_files_flags (trace run) = [false; false]
  /\ last (required_wals false 10 [Sim.wal10; Sim.wal11]) = Some Sim.wal10
  /\ link_file_sources (trace run) = ["/db/000009.sst"; "/db/000010.log"]
  /\ copy_file_sources (trace run) = ["/db/MANIFEST-000004"]
  /\ ok (fst (result run)) = true.
Proof. vm_compute. repeat split. Qed.


(** Witness of C4: with two-phase commit the memtable is flushed; with a
    threshold of 100 bytes and 77 bytes of WAL it is not. *)
Lemma flush_decision_witness :
  let two_phase :=
    CreateCustomCheckpoint link_cb copy_cb create_cb Sim.two_phase_options
      100 false Sim.small_db in
  let small :=
    CreateCustomCheckpoint link_cb copy_cb create_cb Sim.default_options
      100 false Sim.small_db in
  (allow_2pc Sim.two_phase_options = true
   /\ Forall (eq true) (live_files_flags (trace two_phase)))
  /\ (allow_2pc Sim.default_options = false /\ 0 < 100 /\ 100 < kMaxUint64)
  /\ wal_bytes (Sim.wal_files Sim.small_db) = 77
  /\ live_files_flags (trace small) <> []
  /\ Forall (eq false) (live_files_flags (trace small)).
Proof.
  intros two_phase small.
  assert (H0 : allow_2pc Sim.default_options = false) by reflexivity.
  assert (H1 : 0 < 100) by reflexivity.
  assert (H2 : 100 < kMaxUint64) by reflexivity.
  split.
  { split; [reflexivity |].
    exact (proj2 (proj1 (flush_decision Sim.two_phase_options 100 false
                           Sim.small_db) eq_refl)). }
  split; [now repeat split |].
  split; [reflexivity |].
  destruct (proj2 (proj2 (flush_decision Sim.default_options 100 false
                            Sim.small_db)) H0 H1 H2)
    as (n & s & wals & tl & Ht & _ & Hflags).
  vm_compute in Ht. injection Ht as _ <- <- _.
  exact (Hflags eq_refl eq_refl).
Defined.





(** Witness of C7: a target that is there, and a target of slashes only, are
    rejected after the probe alone. *)
Lemma target_rejected_before_mutation_witness :
  let cp := CreateCheckpoint "/snap" 0 false "" "" Sim.snap_exists_db in
  let ex :=
    ExportColumnFamily Sim.cf "/snap" Sim.no_memory Sim.snap_exists_db in
  let cp' := CreateCheckpoint "//" 0 false "" "" Sim.small_db in
  let ex' := ExportColumnFamily Sim.cf "//" Sim.no_memory Sim.small_db in
  (result cp = (St.InvalidArgument "Directory exists", None)
   /\ List.length (trace cp) = 2%nat)
  /\ (result ex = (St.InvalidArgument "Specified export_dir exists",
                   Sim.no_memory)
      /\ List.length (trace ex) = 2%nat)
  /\ only_slashes "//" = true
  /\ (IsInvalidArgument (fst (result cp')) = true
      /\ snd (result cp') = None /\ List.length (trace cp') = 2%nat)
  /\ (IsInvalidArgument (fst (result ex')) = true
      /\ snd (result ex') = Sim.no_memory
      /\ List.length (trace ex') = 2%nat).
Proof.
  intros cp ex cp' ex'.
  destruct (target_rejected_before_mutation "/snap" 0 false "" "" Sim.cf
              Sim.no_memory Sim.snap_exists_db)
    as [(o & r0 & tl & Ht & Hex & _) (o' & r0' & tl' & Ht' & Hex' & _)].
  destruct (target_rejected_before_mutation "//" 0 false "" "" Sim.cf
              Sim.no_memory Sim.small_db)
    as [(p & q0 & ul & Hu & _ & Hsl) (p' & q0' & ul' & Hu' & _ & Hsl')].
  assert (Hs : only_slashes "//" = true) by reflexivity.
  split.
  { fold cp in Ht. assert (Hr : r0 = St.OK)
      by (vm_compute in Ht; now injection Ht as _ <- _).
    subst r0. destruct (Hex eq_refl) as [Hres ->].
    split; [exact Hres | now rewrite Ht]. }
  split.
  { fold ex in Ht'. assert (Hr : r0' = St.OK)
      by (vm_compute in Ht'; now injection Ht' as _ <- _).
    subst r0'. destruct (Hex' eq_refl) as [Hres ->].
    split; [exact Hres | now rewrite Ht']. }
  split; [exact Hs |].
  split.
  { fold cp' in Hu. assert (Hr : q0 = St.NotFound "")
      by (vm_compute in Hu; now injection Hu as _ <- _).
    subst q0. destruct (Hsl Hs (or_intror eq_refl)) as (Hi & Hn & ->).
    split; [exact Hi | split; [exact Hn | now rewrite Hu]]. }
  { fold ex' in Hu'. assert (Hr : q0' = St.NotFound "")
      by (vm_compute in Hu'; now injection Hu' as _ <- _).
    subst q0'. destruct (Hsl' Hs (or_intror eq_refl)) as (Hi & Hn & ->).
    split; [exact Hi | split; [exact Hn | now rewrite Hu']]. }
Defined.


(** Witness of C8: on [small_db] the manifest is copied with the limit of
    120 bytes of the second enumeration, and CURRENT is written with the
    manifest's name, before the WAL pass. *)
Lemma manifest_limit_and_current_witness :
  let run :=
    CreateCustomCheckpoint link_cb copy_cb create_cb Sim.default_options
      kMaxUint64 false Sim.small_db in
  ParseFileName "" = None
  /\ ok (fst (result run)) = true
  /\ authoritative (trace run)
     = Some (["/000009.sst"; "/CURRENT"; "/MANIFEST-000004";
              "/OPTIONS-000006"], 120)
  /\ (exists r,
        In (ECopyCb "/db" "/MANIFEST-000004" 120 kDescriptorFile
              kUnknownFileChecksumFuncName kUnknownFileChecksum r)
           (trace run))
  /\ (exists t1 r t2,
        trace run
        = t1 ++ ECreateCb "/CURRENT" ("MANIFEST-000004" +:+ newline)
                  kCurrentFile r :: t2
        /\ Forall wal_pass_event t2).
Proof.
  intros run.
  assert (H : ParseFileName "" = None) by reflexivity.
  assert (Hok : ok (fst (result run)) = true) by reflexivity.
  destruct (manifest_limit_and_current Sim.default_options kMaxUint64 false
              Sim.small_db H)
    as (_ & _ & Hsuccess).
  destruct (Hsuccess Hok) as (files & msize & Ha & Hcopies & Hcurrent).
  fold run in Ha, Hcopies, Hcurrent.
  assert (Ha' : authoritative (trace run)
                = Some (["/000009.sst"; "/CURRENT"; "/MANIFEST-000004";
                         "/OPTIONS-000006"], 120)) by reflexivity.
  rewrite Ha' in Ha. injection Ha as <- <-.
  split; [exact H |]. split; [exact Hok |]. split; [exact Ha' |].
  split.
  - apply (Hcopies "/MANIFEST-000004" 4 kDescriptorFile);
      [cbn; tauto | reflexivity | reflexivity].
  - apply Hcurrent.
    + exists "/CURRENT", 0. split; [cbn; tauto | reflexivity].
    + exists "/MANIFEST-000004", 4. split; [cbn; tauto | reflexivity].
Defined.



(** Witness of C10: the export of the one table file of [small_db] stores
    one record, with the comparator's name, the fields of the table file,
    level 0 and the export directory. *)
Lemma export_metadata_out_parameter_witness :
  let run :=
    ExportColumnFamily Sim.cf "/export" Sim.no_memory Sim.small_db in
  ok (fst (result run)) = true
  /\ read_metadata (snd (result run))
     = Some (mkExport "leveldb.BytewiseComparator"
               [mkLive 900 "/000009.sst" 9 "/export" 1 5 "a" "k" 0 0])
  /\ exists md pre post,
       trace run
       = pre ++ EGetColumnFamilyMetaData "default" md :: post
       /\ (levels md = [] -> metadata_ptr (snd (result run)) = None)
       /\ (levels md <> [] ->
           exists records,
             read_metadata (snd (result run))
             = Some (mkExport "leveldb.BytewiseComparator" records)
             /\ List.length records = List.length (all_files (levels md))
             /\ Forall2 (carries "/export") records
                        (files_by_level (levels md))).
Proof.
  intros run.
  assert (H : ok (fst (result run)) = true) by reflexivity.
  split; [exact H |]. split; [vm_compute; reflexivity |].
  exact (export_metadata_out_parameter Sim.cf "/export" Sim.no_memory
           Sim.small_db H).
Defined.

(** * Further properties *)

(** ** Normalization of directory names *)

(** The index of the last character of [s] that is not a slash. *)
Fixpoint last_nonslash (s : string) : option nat :=
  match s with
  | EmptyString => None
  | String a s' =>
      match last_nonslash s' with
      | Some k => Some (S k)
      | None => if Ascii.eqb a slash then None else Some O
      end
  end.

(** [s] without its trailing slashes. *)
Fixpoint rstrip (s : string) : string :=
  match s with
  | EmptyString => EmptyString
  | String a s' =>
      match rstrip s' with
      | EmptyString =>
          if Ascii.eqb a slash then EmptyString else String a EmptyString
      | r => String a r
      end
  end.

Lemma find_last_not_of_from_index s i acc :
  find_last_not_of_from s slash i acc
  = match last_nonslash s with
    | Some k => i + N.of_nat k
    | None => acc
    end.
Proof.
  revert i acc. induction s as [| a s IH]; intros i acc; cbn; [reflexivity |].
  rewrite IH. destruct (last_nonslash s) as [k |].
  - lia.
  - destruct (Ascii.eqb a slash); [reflexivity | cbn; lia].
Qed.

Lemma last_nonslash_none s :
  last_nonslash s = None <-> only_slashes s = true.
Proof.
  induction s as [| a s IH]; cbn; [tauto |].
  destruct (last_nonslash s) as [k |].
  - split; [discriminate |]. intros H. apply andb_prop in H as [_ H].
    apply IH in H. discriminate.
  - destruct (Ascii.eqb a slash); cbn.
    + split; [intros _; now apply IH | reflexivity].
    + split; discriminate.
Qed.

Lemma rstrip_none s : last_nonslash s = None -> rstrip s = "".
Proof.
  induction s as [| a s IH]; cbn; [reflexivity |].
  destruct (last_nonslash s) as [k |]; [discriminate |].
  rewrite IH by reflexivity. now destruct (Ascii.eqb a slash).
Qed.

Lemma rstrip_some s k :
  last_nonslash s = Some k ->
  (k < String.length s)%nat /\ String.substring 0 (S k) s = rstrip s
  /\ rstrip s <> "".
Proof.
  revert k. induction s as [| a s IH]; intros k; cbn; [discriminate |].
  destruct (last_nonslash s) as [j |] eqn:Hj.
  - intros [= <-]. destruct (IH j eq_refl) as (Hlt & Hsub & Hne).
    split; [lia |]. rewrite Hsub.
    destruct (rstrip s); [contradiction | split; [reflexivity | discriminate]].
  - rewrite rstrip_none by exact Hj.
    destruct (Ascii.eqb a slash); [discriminate |]. intros [= <-].
    split; [lia |]. split; [| discriminate].
    now destruct s.
Qed.

Lemma rstrip_tail s :
  exists tail, s = rstrip s +:+ tail /\ only_slashes tail = true.
Proof.
  induction s as [| a s (tail & Hs & Ht)]; cbn.
  - exists "". auto.
  - destruct (rstrip s) as [| b r] eqn:Hr.
    + change ("" +:+ tail) with tail in Hs. subst tail.
      destruct (Ascii.eqb a slash) eqn:Ha.
      * exists (String a s). split; [reflexivity |]. cbn. now rewrite Ha.
      * exists s. split; [reflexivity | exact Ht].
    + exists tail. split; [| exact Ht].
      change (String a (String b r) +:+ tail)
        with (String a (String b r +:+ tail)).
      now rewrite <- Hs.
Qed.

Lemma rstrip_no_trailing_slash s p : rstrip s <> p +:+ "/".
Proof.
  revert p. induction s as [| a s IH]; intros p; cbn.
  - destruct p; discriminate.
  - destruct (rstrip s) as [| b r] eqn:Hr.
    + destruct (Ascii.eqb a slash) eqn:Ha; [destruct p; discriminate |].
      destruct p as [| c p]; cbn.
      * intros [= ->]. discriminate.
      * intros [= _ H]. destruct p; discriminate.
    + destruct p as [| c p]; cbn.
      * discriminate.
      * intros [= _ H]. now apply (IH p).
Qed.

Lemma rstrip_idempotent s : rstrip (rstrip s) = rstrip s.
Proof.
  induction s as [| a s IH]; cbn; [reflexivity |].
  destruct (rstrip s) as [| b r] eqn:Hr.
  - destruct (Ascii.eqb a slash) eqn:Ha; cbn; [reflexivity | now rewrite Ha].
  - change (rstrip (String a (String b r)))
      with (match rstrip (String b r) with
            | EmptyString =>
                if Ascii.eqb a slash then EmptyString else String a EmptyString
            | r0 => String a r0
            end).
    rewrite IH. reflexivity.
Qed.

Lemma strip_slashes_rstrip s :
  N.of_nat (String.length s) < two64 -> strip_slashes s = rstrip s.
Proof.
  intros Hlen. unfold strip_slashes.
  destruct s as [| a s]; [reflexivity |]. cbn [empty].
  unfold find_last_not_of. rewrite find_last_not_of_from_index.
  destruct (last_nonslash (String a s)) as [k |] eqn:Hk.
  - destruct (rstrip_some _ _ Hk) as (Hlt & Hsub & _).
    unfold substr, add64. rewrite N.mod_small by lia.
    replace (N.to_nat (0 + N.of_nat k + 1)) with (S k) by lia.
    exact Hsub.
  - rewrite (rstrip_none _ Hk). unfold substr.
    replace (N.to_nat (add64 npos 1)) with O by reflexivity.
    reflexivity.
Qed.

Lemma rstrip_length s :
  (String.length (rstrip s) <= String.length s)%nat.
Proof.
  destruct (rstrip_tail s) as (tail & Hs & _).
  rewrite Hs at 2. rewrite append_length. lia.
Qed.

(** X1.  The normalization [dir.substr(0, dir.find_last_not_of('/') + 1)] of
    a directory name of less than 2^64 characters: it is empty exactly when
    the name is empty or made of slashes only (the index [npos] wraps to 0);
    the name is the result followed by slashes only; the result never ends
    with a slash; normalizing twice changes nothing; and for a name that is
    not made of slashes only this is also the normalized target of
    [CreateCheckpoint] and [ExportColumnFamily]. *)
Theorem strip_slashes_normal_form dir :
  N.of_nat (String.length dir) < two64 ->
  (strip_slashes dir = "" <-> only_slashes dir = true)
  /\ (exists tail, dir = strip_slashes dir +:+ tail /\ only_slashes tail = true)
  /\ (forall p, strip_slashes dir <> p +:+ "/")
  /\ strip_slashes (strip_slashes dir) = strip_slashes dir
  /\ (only_slashes dir = false ->
      substr dir 0 (add64 (find_last_not_of dir slash) 1)
      = strip_slashes dir).
Proof.
  intros Hlen.
  assert (Hlen' : N.of_nat (String.length (rstrip dir)) < two64).
  { pose proof (rstrip_length dir). lia. }
  rewrite (strip_slashes_rstrip dir Hlen).
  rewrite (strip_slashes_rstrip (rstrip dir) Hlen').
  split; [| split; [| split; [| split]]].
  - rewrite <- last_nonslash_none.
    destruct (last_nonslash dir) as [k |] eqn:Hk.
    + destruct (rstrip_some _ _ Hk) as (_ & _ & Hne).
      split; [contradiction | discriminate].
    + split; [reflexivity | intros _; now apply rstrip_none].
  - apply rstrip_tail.
  - apply rstrip_no_trailing_slash.
  - apply rstrip_idempotent.
  - intros Hs. rewrite <- (strip_slashes_rstrip dir Hlen).
    unfold strip_slashes. destruct dir; [discriminate | reflexivity].
Qed.

(** Witness of X1: the name [/snap//]. *)
Lemma strip_slashes_normal_form_witness :
  N.of_nat (String.length "/snap//") < two64
  /\ strip_slashes "/snap//" = "/snap"
  /\ (strip_slashes "/snap//" = "" <-> only_slashes "/snap//" = true)
  /\ strip_slashes (strip_slashes "/snap//") = strip_slashes "/snap//".
Proof.
  assert (H : N.of_nat (String.length "/snap//") < two64) by reflexivity.
  destruct (strip_slashes_normal_form "/snap//" H) as (H1 & _ & _ & H4 & _).
  split; [exact H |]. split; [reflexivity |]. split; [exact H1 | exact H4].
Defined.


(** ** The purge of the staging directory *)

Section Purge.
Context {W : Type} {C : Collaborators W}.

(** X2.  [CleanStagingDirectory] on [p] probes [p]; when the probe answers
    NotFound it does nothing else; otherwise (also when the probe failed) it
    lists [p], deletes [p/child] for every listed child, in order, when the
    listing succeeded and none when it did not, and then deletes [p] itself.
    It touches nothing outside [p], and goes on whatever these calls
    answer. *)
Theorem staging_purge_shape p (w : W) :
  let t := trace (CleanStagingDirectory p w) in
  exists r,
    (IsNotFound r = true /\ t = [EFileExists p r])
    \/ (IsNotFound r = false
        /\ exists r' children dels rd,
             t = EFileExists p r :: EGetChildren p r' children
                 :: dels ++ [EDeleteDir p rd]
             /\ Forall2 (fun c e => exists st,
                           e = EDeleteFile (p +:+ "/" +:+ c) st)
                        (if ok r' then children else []) dels).
Proof.
  intros t. pose proof (CleanStagingDirectory_purges p w) as H.
  fold t in H. cbv beta in H.
  destruct H as [r Hr | r r' children dels rd Hr Hdels].
  - exists r. left. auto.
  - exists r. right. split; [exact Hr |].
    exists r', children, dels, rd. split; [reflexivity | exact Hdels].
Qed.

End Purge.

(** ** CreateCustomCheckpoint stops at the first failure *)

(** The error a call hands to [CreateCustomCheckpoint], if any: its status
    when that is not OK (for a link attempt: neither OK nor NotSupported), and
    InvalidArgument when the minimum log number to keep is not available. *)
Definition failure (e : Event) : option Status :=
  match e with
  | EGetSortedWalFiles s _ | EGetLiveFiles _ s _ _ | EFlushWAL _ s
  | EGetFileChecksumsFromManifest _ _ s _
  | ECopyCb _ _ _ _ _ _ s | ECreateCb _ _ _ s =>
      if ok s then None else Some s
  | ELinkCb _ _ _ s => if ok s || IsNotSupported s then None else Some s
  | EGetMinLogNumberToKeep false _ =>
      Some (St.InvalidArgument "cannot get the min log number to keep.")
  | _ => None
  end.

(** The status a call leaves in [s], for the calls whose status is kept. *)
Definition call_status (e : Event) : option Status :=
  match e with
  | EGetSortedWalFiles s _ | EGetLiveFiles _ s _ _ | EFlushWAL _ s
  | EGetFileChecksumsFromManifest _ _ s _
  | ECopyCb _ _ _ _ _ _ s | ECreateCb _ _ _ s => Some s
  | ELinkCb _ _ _ s => if IsNotSupported s then None else Some s
  | _ => None
  end.

Definition kCantParse : Status :=
  St.Corruption "Can't parse file name. This is very bad".

Definition kNoMinLogNumber : Status :=
  St.InvalidArgument "cannot get the min log number to keep.".

(** [steps s t s']: started with status [s], the calls [t] are made and the
    status ends as [s'].  A call is made only while the status is OK and its
    status becomes the current one, but for: the sequence number, which has
    no status; a link attempt answering NotSupported, after which the status
    is OK again; the first [GetLiveFiles], whose status is overwritten by the
    second one after the minimum log number was read; a file name that does
    not parse, which makes no call. *)
Inductive steps : Status -> Trace -> Status -> Prop :=
| steps_nil s : steps s [] s
| steps_call s e r t s' :
    ok s = true -> call_status e = Some r -> steps r t s' ->
    steps s (e :: t) s'
| steps_absorbed s d f ty r t s' :
    ok s = true -> IsNotSupported r = true -> steps St.OK t s' ->
    steps s (ELinkCb d f ty r :: t) s'
| steps_corrupt s : ok s = true -> steps s [] kCantParse
| steps_sequence_number s n t s' :
    ok s = true -> steps s t s' ->
    steps s (EGetLatestSequenceNumber n :: t) s'
| steps_first_live_files s b s1 f m mln t s' :
    ok s = true -> steps St.OK t s' ->
    steps s (EGetLiveFiles b s1 f m :: EGetMinLogNumberToKeep true mln :: t)
          s'
| steps_no_min_log_number s b s1 f m mln :
    ok s = true ->
    steps s [EGetLiveFiles b s1 f m; EGetMinLogNumberToKeep false mln]
          kNoMinLogNumber.

Lemma steps_halt s t s' :
  steps s t s' -> ok s = false -> t = [] /\ s' = s.
Proof. destruct 1; intros Hs; try congruence. auto. Qed.

Lemma steps_app s t1 s1 t2 s2 :
  steps s t1 s1 -> steps s1 t2 s2 ->
  (ok s1 = false -> t2 = []) -> steps s (t1 ++ t2) s2.
Proof.
  induction 1; intros H2 Hstop; cbn [app].
  - exact H2.
  - eapply steps_call; eauto.
  - eapply steps_absorbed; eauto.
  - rewrite (Hstop eq_refl) in *. inversion H2; subst; try discriminate.
    now apply steps_corrupt.
  - apply steps_sequence_number; auto.
  - apply steps_first_live_files; auto.
  - rewrite (Hstop eq_refl) in *. inversion H2; subst; try discriminate.
    now apply steps_no_min_log_number.
Qed.

Lemma call_status_failure e r :
  call_status e = Some r -> failure e = if ok r then None else Some r.
Proof.
  destruct e; cbn; try discriminate; try (now intros [= ->]).
  destruct (IsNotSupported r0) eqn:Hns; [discriminate |]. intros [= ->].
  now rewrite orb_false_r.
Qed.

Lemma ok_not_supported r : ok r = true -> IsNotSupported r = false.
Proof. unfold ok, IsNotSupported. now destruct (code r). Qed.

(** When only the calls [t] were made, each while the status was OK, a call
    that failed is the last one and its error is the final status; the first
    [GetLiveFiles] apart. *)
Lemma steps_failure_is_last s t s' :
  steps s t s' ->
  forall pre e post r,
    t = pre ++ e :: post -> failure e = Some r ->
    (post = [] /\ s' = r)
    \/ (is_get_live_files e = true
        /\ exists found mln post',
             post = EGetMinLogNumberToKeep found mln :: post').
Proof.
  induction 1 as [s | s e0 r0 t s' Hs He0 Hsteps IH
                  | s d f ty r0 t s' Hs Hr0 Hsteps IH | s Hs
                  | s n t s' Hs Hsteps IH | s b s1 f m mln t s' Hs Hsteps IH
                  | s b s1 f m mln Hs];
    intros pre e post r Ht He.
  - destruct pre; discriminate.
  - destruct pre as [| x pre]; cbn in Ht.
    + injection Ht as <- <-. left.
      rewrite (call_status_failure _ _ He0) in He.
      destruct (ok r0) eqn:Hr0; [discriminate |]. injection He as <-.
      destruct (steps_halt _ _ _ Hsteps Hr0) as [-> ->]. auto.
    + injection Ht as _ Ht. eauto.
  - destruct pre as [| x pre]; cbn in Ht.
    + injection Ht as <- _. cbn in He. rewrite Hr0, orb_true_r in He.
      discriminate.
    + injection Ht as _ Ht. eauto.
  - destruct pre; discriminate.
  - destruct pre as [| x pre]; cbn in Ht.
    + injection Ht as <- _. discriminate.
    + injection Ht as _ Ht. eauto.
  - destruct pre as [| x pre]; cbn in Ht.
    + injection Ht as <- <-. right. split; [reflexivity | eauto].
    + injection Ht as _ Ht. destruct pre as [| y pre]; cbn in Ht.
      * injection Ht as <- _. discriminate.
      * injection Ht as _ Ht. eauto.
  - destruct pre as [| x pre]; cbn in Ht.
    + injection Ht as <- <-. right. split; [reflexivity | eauto].
    + injection Ht as _ Ht. destruct pre as [| y pre]; cbn in Ht.
      * injection Ht as <- <-. left. cbn in He. injection He as <-. auto.
      * injection Ht as _ Ht. destruct pre; discriminate.
Qed.

(** An error at the end is the one of the last call, or that of a file name
    that does not parse. *)
Lemma steps_error_origin s t s' :
  steps s t s' -> ok s = true -> ok s' = false ->
  s' = kCantParse
  \/ exists pre e, t = pre ++ [e] /\ failure e = Some s'.
Proof.
  induction 1 as [s | s e0 r0 t s' Hs He0 Hsteps IH
                  | s d f ty r0 t s' Hs Hr0 Hsteps IH | s Hs
                  | s n t s' Hs Hsteps IH | s b s1 f m mln t s' Hs Hsteps IH
                  | s b s1 f m mln Hs];
    intros Hok Hbad.
  - congruence.
  - destruct (ok r0) eqn:Hr0.
    + destruct (IH eq_refl Hbad) as [-> | (pre & e & -> & He)];
        [now left | right].
      exists (e0 :: pre), e. auto.
    + right. exists [], e0.
      destruct (steps_halt _ _ _ Hsteps Hr0) as [-> ->].
      split; [reflexivity |].
      rewrite (call_status_failure _ _ He0), Hr0. reflexivity.
  - destruct (IH eq_refl Hbad) as [-> | (pre & e & -> & He)];
      [now left | right].
    exists (ELinkCb d f ty r0 :: pre), e. auto.
  - now left.
  - destruct (IH Hok Hbad) as [-> | (pre & e & -> & He)]; [now left | right].
    exists (EGetLatestSequenceNumber n :: pre), e. auto.
  - destruct (IH eq_refl Hbad) as [-> | (pre & e & -> & He)];
      [now left | right].
    exists (EGetLiveFiles b s1 f m :: EGetMinLogNumberToKeep true mln :: pre),
      e. auto.
  - right. exists [EGetLiveFiles b s1 f m], (EGetMinLogNumberToKeep false mln).
    auto.
Qed.

Section FailFast.
Context {W : Type} {C : Collaborators W}.

Lemma steps_then s t1 s1 t2 s2 :
  steps s t1 s1 -> steps s1 t2 s2 -> steps s (t1 ++ t2) s2.
Proof.
  intros H1 H2. apply (steps_app _ _ _ _ _ H1 H2).
  intros Hbad. now destruct (steps_halt _ _ _ H2 Hbad).
Qed.

Lemma process_live_files_steps msize files s mf cf tb :
  spec (process_live_files copy_cb msize files (s, mf, cf, tb))
       (fun st' t => steps s t (fst (fst (fst st')))).
Proof.
  revert s mf cf tb.
  induction files as [| f rest IH]; intros s mf cf tb;
    cbn [process_live_files].
  - apply spec_ret. constructor.
  - destruct (ok s) eqn:Hs; cbn [negb]; [| apply spec_ret; constructor].
    destruct (ParseFileName f) as [[n ty] |];
      [| apply spec_ret; now apply steps_corrupt].
    destruct (FileType_eqb ty kCurrentFile); [apply IH |].
    destruct (negb (FileType_eqb ty kTableFile)
              && negb (FileType_eqb ty kBlobFile)); [| apply IH].
    apply spec_copy_cb_bind. intros r.
    eapply spec_weaken; [apply IH |]. cbn beta. intros st' t Ht.
    now apply (steps_call s _ r).
Qed.

Lemma transfer_table_and_blob_files_steps glc cl tb s b :
  spec (transfer_table_and_blob_files link_cb copy_cb glc cl tb (s, b))
       (fun r t => steps s t (fst r)).
Proof.
  revert s b.
  induction tb as [| [[src_fname number] type] rest IH]; intros s b; cbn.
  - apply spec_ret. constructor.
  - destruct (ok s) eqn:Hs; cbn [negb]; [| apply spec_ret; constructor].
    unfold try_link.
    destruct (if glc then _ else _) as [[x cv] cn]. destruct b.
    + apply spec_bind_assoc, spec_link_cb_bind. intros r.
      destruct (IsNotSupported r) eqn:Hr; apply spec_ret_bind; cbn [negb].
      * apply spec_copy_cb_bind. intros r'.
        eapply spec_weaken; [apply IH |]. cbn beta. intros a t Ht.
        apply steps_absorbed; [assumption .. |].
        now apply (steps_call _ _ r').
      * apply spec_ret_bind. eapply spec_weaken; [apply IH |].
        cbn beta. intros a t Ht.
        apply (steps_call s _ r); [assumption | cbn; now rewrite Hr | exact Ht].
    + apply spec_ret_bind. cbn [negb]. apply spec_copy_cb_bind. intros r'.
      eapply spec_weaken; [apply IH |]. cbn beta. intros a t Ht.
      now apply (steps_call s _ r').
Qed.

Lemma transfer_wal_files_steps wal_dir flush mln wal_size i wals s b :
  spec (transfer_wal_files link_cb copy_cb wal_dir flush mln wal_size i wals
          (s, b))
       (fun r t => steps s t (fst r)).
Proof.
  revert i s b. induction wals as [| wal rest IH]; intros i s b; cbn.
  - apply spec_ret. constructor.
  - destruct (ok s) eqn:Hs; cbn [negb]; [| apply spec_ret; constructor].
    destruct (_ && _); [| apply IH].
    unfold try_link. destruct (i + 1 =? wal_size).
    + apply spec_copy_cb_bind. intros r. apply spec_ret.
      apply (steps_call s _ r); [assumption | reflexivity | constructor].
    + destruct b.
      * apply spec_bind_assoc, spec_link_cb_bind. intros r.
        destruct (IsNotSupported r) eqn:Hr; apply spec_ret_bind; cbn [negb].
        -- apply spec_copy_cb_bind. intros r'.
           eapply spec_weaken; [apply IH |]. cbn beta. intros a t Ht.
           apply steps_absorbed; [assumption .. |].
           now apply (steps_call _ _ r').
        -- apply spec_ret_bind. eapply spec_weaken; [apply IH |].
           cbn beta. intros a t Ht.
           apply (steps_call s _ r);
             [assumption | cbn; now rewrite Hr | exact Ht].
      * apply spec_ret_bind. cbn [negb]. apply spec_copy_cb_bind. intros r'.
        eapply spec_weaken; [apply IH |]. cbn beta. intros a t Ht.
        now apply (steps_call s _ r').
Qed.

Lemma transfer_live_files_steps db_options glc flush mln msize files wals s :
  spec (transfer_live_files link_cb copy_cb create_cb db_options glc flush mln
          msize files wals s)
       (fun sf t => steps s t sf).
Proof.
  unfold transfer_live_files.
  eapply spec_bind; [apply process_live_files_steps |].
  intros [[[s1 mf] cf] tb] tp Htp. cbn [fst] in Htp.
  eapply spec_bind with (P := fun r t => steps s1 t (fst r)).
  { destruct (ok s1) eqn:Hs1; cbn [andb]; [| apply spec_ret; constructor].
    destruct glc; [| apply spec_ret; constructor].
    eapply spec_weaken; [apply spec_call |]. cbn beta.
    intros [r l] t ->. cbn [fst].
    apply (steps_call s1 _ r); [assumption | reflexivity | constructor]. }
  intros [s2 cl] tc Htc. cbn [fst] in Htc.
  eapply spec_bind; [apply transfer_table_and_blob_files_steps |].
  intros [s3 b3] ttb Httb. cbn [fst] in Httb.
  eapply spec_bind with (P := fun s4 t => steps s3 t s4).
  { destruct (ok s3) eqn:Hs3; cbn [andb]; [| apply spec_ret; constructor].
    destruct (_ && _); [| apply spec_ret; constructor].
    eapply spec_weaken; [apply spec_call |]. cbn beta. intros r t ->.
    apply (steps_call s3 _ r); [assumption | reflexivity | constructor]. }
  intros s4 tcr Hcr.
  eapply spec_bind; [apply transfer_wal_files_steps |].
  intros [s5 b5] tw Hw. cbn [fst] in Hw.
  apply spec_ret. rewrite app_nil_r.
  eapply steps_then; [exact Htp |]. eapply steps_then; [exact Htc |].
  eapply steps_then; [exact Httb |]. eapply steps_then; eassumption.
Qed.

Lemma CreateCustomCheckpoint_steps db_options log_size_for_flush glc :
  spec (CreateCustomCheckpoint link_cb copy_cb create_cb db_options
          log_size_for_flush glc)
       (fun r t => steps St.OK t (fst r)).
Proof.
  unfold CreateCustomCheckpoint, GetLatestSequenceNumber, GetLiveFiles,
    GetMinLogNumberToKeep, FlushWAL, GetSortedWalFiles.
  apply spec_call_bind. intros n.
  eapply spec_bind; [apply decide_flush_memtable_spec |].
  intros [sd flush] td Hd. cbn [fst snd] in Hd.
  assert (Htd : steps St.OK td sd).
  { unfold flush_rule in Hd.
    destruct (allow_2pc db_options);
      [destruct Hd as (-> & _ & ->); constructor |].
    destruct (_ =? _); [destruct Hd as (-> & _ & ->); constructor |].
    destruct (_ <? _); [| destruct Hd as (-> & _ & ->); constructor].
    destruct Hd as (wals & -> & _).
    apply (steps_call _ _ sd); [reflexivity | reflexivity | constructor]. }
  assert (Hrest : forall (r : Status * N) rest,
            steps sd rest (fst r) ->
            steps St.OK (EGetLatestSequenceNumber n :: td ++ rest) (fst r)).
  { intros r rest H. apply steps_sequence_number; [reflexivity |].
    eapply steps_then; eassumption. }
  destruct (ok sd) eqn:Hsd; cbn [negb];
    [| apply spec_ret; apply Hrest; constructor].
  apply spec_call_bind. intros [[s1 f1] m1]. cbn [fst snd].
  apply spec_call_bind. intros [found mln]. cbn [fst snd].
  destruct found; cbn [negb].
  2:{ apply spec_ret. apply Hrest. now apply steps_no_min_log_number. }
  apply spec_call_bind. intros [[s2 f2] m2]. cbn [fst snd].
  assert (Htail : forall (r : Status * N) tail,
            steps s2 tail (fst r) ->
            steps St.OK
              (EGetLatestSequenceNumber n
               :: td ++ EGetLiveFiles flush s1 f1 m1
                  :: EGetMinLogNumberToKeep true mln
                  :: EGetLiveFiles flush s2 f2 m2 :: tail) (fst r)).
  { intros r tail H. apply Hrest.
    apply steps_first_live_files; [assumption |].
    apply (steps_call _ _ s2); [reflexivity | reflexivity | exact H]. }
  destruct (ok s2) eqn:Hs2; cbv iota.
  - apply spec_call_bind. intros s3.
    assert (H3 : forall tail sf, steps s3 tail sf ->
                   steps s2 (EFlushWAL false s3 :: tail) sf).
    { intros tail sf H. now apply (steps_call _ _ s3). }
    destruct (ok s3) eqn:Hs3; cbv iota.
    + apply spec_call_bind. intros [s4 wals]. cbn [fst snd].
      assert (H4 : forall tail sf, steps s4 tail sf ->
                     steps s3 (EGetSortedWalFiles s4 wals :: tail) sf).
      { intros tail sf H. now apply (steps_call _ _ s4). }
      destruct (ok s4) eqn:Hs4; cbn [negb]; cbv iota.
      * eapply spec_bind; [apply transfer_live_files_steps |].
        intros s5 tt Htt. apply spec_ret. rewrite app_nil_r.
        apply Htail, H3, H4. exact Htt.
      * apply spec_ret. apply Htail, H3, H4. constructor.
    + apply spec_ret_bind. rewrite Hs3. cbn [negb].
      apply spec_ret. apply Htail, H3. constructor.
  - apply spec_ret_bind. rewrite Hs2. apply spec_ret_bind.
    rewrite Hs2. cbn [negb].
    apply spec_ret. apply Htail. constructor.
Qed.

(** X3.  [CreateCustomCheckpoint] stops at the first failure.  A call that
    fails (an engine call, the reading of the checksums, a copy or a create
    callback answering another status than OK; a link callback answering
    neither OK nor NotSupported; the minimum log number to keep not being
    available) is the last call the function makes, and its error is the
    status returned.  The one exception is the first [GetLiveFiles]: its
    status is dropped, the minimum log number is read next.  Conversely an
    error returned is the error of the last call made, or the Corruption
    of a live file name that does not parse. *)
Theorem stops_at_first_failure db_options log_size_for_flush glc (w : W) :
  let run := CreateCustomCheckpoint link_cb copy_cb create_cb db_options
               log_size_for_flush glc w in
  (forall pre e post r,
     trace run = pre ++ e :: post -> failure e = Some r ->
     (post = [] /\ fst (result run) = r)
     \/ (is_get_live_files e = true
         /\ exists found mln post',
              post = EGetMinLogNumberToKeep found mln :: post'))
  /\ (ok (fst (result run)) = false ->
      fst (result run) = kCantParse
      \/ exists pre e,
           trace run = pre ++ [e] /\ failure e = Some (fst (result run))).
Proof.
  intros run.
  pose proof (CreateCustomCheckpoint_steps db_options log_size_for_flush glc
                w) as H.
  fold run in H. cbv beta in H. split.
  - intros pre e post r Ht He.
    exact (steps_failure_is_last _ _ _ H pre e post r Ht He).
  - intros Hbad. exact (steps_error_origin _ _ _ H eq_refl Hbad).
Qed.

End FailFast.

(** The table file cannot be placed in [/stage]. *)
Definition stage_unlinkable_db : Sim.World :=
  Sim.set_faults Sim.small_db [] ["/stage/000009.sst"].

(** Witness of X3: the link of the table file fails; it is the last call and
    its error is returned. *)
Lemma stops_at_first_failure_witness :
  let run :=
    CreateCustomCheckpoint link_cb copy_cb create_cb Sim.default_options
      kMaxUint64 false stage_unlinkable_db in
  let e := ELinkCb "/db" "/000009.sst" kTableFile Sim.io_error in
  (trace run = firstn 8 (trace run) ++ [e]
   /\ failure e = Some Sim.io_error
   /\ ok (fst (result run)) = false)
  /\ fst (result run) = Sim.io_error
  /\ exists pre e',
       trace run = pre ++ [e'] /\ failure e' = Some (fst (result run)).
Proof.
  intros run e.
  assert (H1 : trace run = firstn 8 (trace run) ++ [e])
    by (vm_compute; reflexivity).
  assert (H2 : failure e = Some Sim.io_error) by reflexivity.
  assert (H3 : ok (fst (result run)) = false) by reflexivity.
  destruct (stops_at_first_failure Sim.default_options kMaxUint64 false
              stage_unlinkable_db) as [Hlast Horigin].
  split; [exact (conj H1 (conj H2 H3)) |]. split.
  - destruct (Hlast _ _ _ _ H1 H2) as [[_ Hr] | [Hg _]];
      [exact Hr | discriminate Hg].
  - destruct (Horigin H3) as [Hc | Hex]; [discriminate Hc | exact Hex].
Defined.


(** ** What CreateCustomCheckpoint places *)

(** The file a callback places: source directory, name and type.  A link
    attempt answering NotSupported places nothing: the copy that follows
    does. *)
Definition placed (e : Event) : option (string * string * FileType) :=
  match e with
  | ELinkCb d f ty r => if IsNotSupported r then None else Some (d, f, ty)
  | ECopyCb d f _ ty _ _ _ => Some (d, f, ty)
  | _ => None
  end.

(** [l] is the beginning of [full], and all of it when [done] holds. *)
Definition begins {A} (l full : list A) (done : bool) : Prop :=
  exists rest, l ++ rest = full /\ (done = true -> rest = []).

Lemma begins_nil {A} (full : list A) : begins [] full false.
Proof. exists full. split; [reflexivity | discriminate]. Qed.

Lemma begins_cons {A} (x : A) l full done :
  begins l full done -> begins (x :: l) (x :: full) done.
Proof. intros (rest & <- & H). exists rest. auto. Qed.

Lemma begins_all {A} (l full : list A) :
  begins l full true -> l = full.
Proof. intros (rest & <- & H). rewrite (H eq_refl). now rewrite app_nil_r. Qed.

Lemma begins_app {A} (l1 full1 l2 full2 : list A) d1 d2 :
  begins l1 full1 d1 -> begins l2 full2 d2 ->
  (d1 = false -> l2 = []) -> (d2 = true -> d1 = true) ->
  begins (l1 ++ l2) (full1 ++ full2) d2.
Proof.
  intros (r1 & <- & H1) (r2 & <- & H2) Hstop Hmono. destruct d1.
  - rewrite (H1 eq_refl), app_nil_r. exists r2.
    split; [now rewrite app_assoc | exact H2].
  - rewrite (Hstop eq_refl), app_nil_r in *. exists (r1 ++ r2).
    split; [now rewrite app_assoc |].
    intros Hd. specialize (Hmono Hd). discriminate.
Qed.

Section Placement.
Context {W : Type} {C : Collaborators W}.

(** The live files the first pass copies, and the table and blob files, as
    listed. *)
Definition first_pass_files (files : list string)
    : list (string * string * FileType) :=
  omap (fun f => match ParseFileName f with
                 | Some (_, ty) =>
                     if copied_in_first_pass ty then Some (GetName, f, ty)
                     else None
                 | None => None
                 end) files.

Definition table_and_blob_files (files : list string)
    : list (string * N * FileType) :=
  omap (fun f => match ParseFileName f with
                 | Some (n, ty) =>
                     if is_table_or_blob ty then Some (f, n, ty) else None
                 | None => None
                 end) files.

Definition from_db (x : string * N * FileType) : string * string * FileType :=
  (GetName, fst (fst x), snd x).

(** The WAL files that pass the filter, as listed. *)
Definition wal_placements (wal_dir : string) (flush_memtable : bool)
    (min_log_num : N) (wals : list LogFile)
    : list (string * string * FileType) :=
  map (fun wal => (wal_dir, PathName wal, kWalFile))
      (required_wals flush_memtable min_log_num wals).

Lemma process_live_files_placed msize files s mf cf tb :
  spec (process_live_files copy_cb msize files (s, mf, cf, tb))
       (fun st' t =>
          begins (omap placed t) (first_pass_files files)
                 (ok (fst (fst (fst st'))))
          /\ (ok (fst (fst (fst st'))) = true ->
              snd st' = tb ++ table_and_blob_files files)).
Proof.
  revert s mf cf tb.
  induction files as [| f rest IH]; intros s mf cf tb;
    cbn [process_live_files].
  - apply spec_ret. cbn. split; [now exists [] |].
    intros _. now rewrite app_nil_r.
  - destruct (ok s) eqn:Hs; cbn [negb].
    2:{ apply spec_ret. cbn [fst snd]. rewrite Hs.
        split; [apply begins_nil | discriminate]. }
    unfold first_pass_files, table_and_blob_files. cbn [omap list_omap].
    fold (first_pass_files rest). fold (table_and_blob_files rest).
    destruct (ParseFileName f) as [[n ty] |].
    2:{ apply spec_ret. split; [apply begins_nil | discriminate]. }
    destruct ty; cbn [FileType_eqb negb andb orb copied_in_first_pass
                        is_table_or_blob];
      try (apply IH);
      try (eapply spec_weaken; [apply IH |]; cbn beta;
           intros st' t [H1 H2]; split; [exact H1 |];
           intros Hok; rewrite (H2 Hok); now rewrite <- app_assoc);
      try (apply spec_copy_cb_bind; intros r;
           eapply spec_weaken; [apply IH |]; cbn beta;
           intros st' t [H1 H2]; split; [| exact H2];
           now apply begins_cons).
Qed.

Lemma transfer_table_and_blob_files_placed glc cl tb s b :
  spec (transfer_table_and_blob_files link_cb copy_cb glc cl tb (s, b))
       (fun r t => begins (omap placed t) (map from_db tb) (ok (fst r))).
Proof.
  revert s b.
  induction tb as [| [[src_fname number] type] rest IH]; intros s b; cbn.
  - apply spec_ret. now exists [].
  - destruct (ok s) eqn:Hs; cbn [negb].
    2:{ apply spec_ret. cbn [fst]. rewrite Hs. apply begins_nil. }
    unfold try_link.
    destruct (if glc then _ else _) as [[x cv] cn]. destruct b.
    + apply spec_bind_assoc, spec_link_cb_bind. intros r.
      destruct (IsNotSupported r) eqn:Hr; apply spec_ret_bind; cbn [negb].
      * apply spec_copy_cb_bind. intros r'.
        eapply spec_weaken; [apply IH |]. cbn beta. intros a t H.
        cbn. rewrite Hr. cbn. now apply begins_cons.
      * apply spec_ret_bind. eapply spec_weaken; [apply IH |].
        cbn beta. intros a t H.
        cbn. rewrite Hr. cbn. now apply begins_cons.
    + apply spec_ret_bind. cbn [negb]. apply spec_copy_cb_bind. intros r'.
      eapply spec_weaken; [apply IH |]. cbn beta. intros a t H.
      cbn. now apply begins_cons.
Qed.

Lemma wal_placements_cons wal_dir flush mln wal rest :
  wal_placements wal_dir flush mln (wal :: rest)
  = if wal_required flush mln wal
    then (wal_dir, PathName wal, kWalFile)
         :: wal_placements wal_dir flush mln rest
    else wal_placements wal_dir flush mln rest.
Proof.
  unfold wal_placements, required_wals. rewrite filter_cons.
  destruct (decide (wal_required flush mln wal = true)) as [H | H].
  - now rewrite H.
  - now destruct (wal_required flush mln wal).
Qed.

Lemma transfer_wal_files_placed wal_dir flush mln i wals s b :
  spec (transfer_wal_files link_cb copy_cb wal_dir flush mln
          (i + N.of_nat (List.length wals)) i wals (s, b))
       (fun r t =>
          begins (omap placed t) (wal_placements wal_dir flush mln wals)
                 (ok (fst r))).
Proof.
  revert i s b. induction wals as [| wal rest IH]; intros i s b;
    cbn [transfer_wal_files List.length].
  - apply spec_ret. now exists [].
  - destruct (ok s) eqn:Hs; cbn [negb].
    2:{ apply spec_ret. cbn [fst]. rewrite Hs. apply begins_nil. }
    rewrite wal_placements_cons.
    change (is_alive wal && (negb flush || (mln <=? LogNumber wal)))
      with (wal_required flush mln wal).
    replace (i + N.of_nat (S (List.length rest)))
      with (i + 1 + N.of_nat (List.length rest)) by lia.
    destruct (wal_required flush mln wal); [| apply IH].
    unfold try_link.
    destruct (N.eqb_spec (i + 1) (i + 1 + N.of_nat (List.length rest)))
      as [Hlast | Hmore].
    + assert (rest = []) as -> by (destruct rest; [reflexivity | cbn in *; lia]).
      apply spec_copy_cb_bind. intros r. apply spec_ret. now exists [].
    + destruct b.
      * apply spec_bind_assoc, spec_link_cb_bind. intros r.
        destruct (IsNotSupported r) eqn:Hr; apply spec_ret_bind; cbn [negb].
        -- apply spec_copy_cb_bind. intros r'.
           eapply spec_weaken; [apply IH |]. cbn beta. intros a t H.
           cbn. rewrite Hr. cbn. now apply begins_cons.
        -- apply spec_ret_bind. eapply spec_weaken; [apply IH |].
           cbn beta. intros a t H.
           cbn. rewrite Hr. cbn. now apply begins_cons.
      * apply spec_ret_bind. cbn [negb]. apply spec_copy_cb_bind. intros r'.
        eapply spec_weaken; [apply IH |]. cbn beta. intros a t H.
        cbn. now apply begins_cons.
Qed.

Lemma steps_ok s t s' : steps s t s' -> ok s' = true -> ok s = true.
Proof.
  intros H Hok. destruct (ok s) eqn:Hs; [reflexivity |].
  destruct (steps_halt _ _ _ H Hs) as [_ ->]. congruence.
Qed.

Lemma steps_stop s t s' : steps s t s' -> ok s = false -> omap placed t = [].
Proof. intros H Hs. now destruct (steps_halt _ _ _ H Hs) as [-> _]. Qed.

(** All the files of a listing, in the order of their transfer. *)
Definition listed_files (db_options : DBOptions) (flush_memtable : bool)
    (min_log_num : N) (files : list string) (wals : list LogFile)
    : list (string * string * FileType) :=
  first_pass_files files
  ++ map from_db (table_and_blob_files files)
  ++ wal_placements (GetWalDir db_options) flush_memtable min_log_num wals.

Lemma transfer_live_files_placed db_options glc flush mln msize files wals s :
  spec (transfer_live_files link_cb copy_cb create_cb db_options glc flush mln
          msize files wals s)
       (fun sf t =>
          begins (omap placed t)
                 (listed_files db_options flush mln files wals) (ok sf)).
Proof.
  unfold transfer_live_files.
  eapply spec_bind;
    [apply spec_and;
       [apply process_live_files_placed | apply process_live_files_steps] |].
  intros [[[s1 mf] cf] tb] tp [[Htp Htb] Hs1].
  cbn [fst snd app] in Htp, Htb, Hs1.
  eapply spec_bind
    with (P := fun r t => omap placed t = [] /\ steps s1 t (fst r)).
  { destruct (ok s1) eqn:Hok1; cbn [andb];
      [| apply spec_ret; split; [reflexivity | constructor]].
    destruct glc; [| apply spec_ret; split; [reflexivity | constructor]].
    eapply spec_weaken; [apply spec_call |]. cbn beta.
    intros [r l] t ->. cbn [fst]. split; [reflexivity |].
    apply (steps_call s1 _ r); [assumption | reflexivity | constructor]. }
  intros [s2 cl] tc [Htc Hs2]. cbn [fst] in Hs2.
  eapply spec_bind;
    [apply spec_and;
       [apply transfer_table_and_blob_files_placed
       | apply transfer_table_and_blob_files_steps] |].
  intros [s3 b3] ttb [Httb Hs3]. cbn [fst] in Httb, Hs3.
  eapply spec_bind
    with (P := fun s4 t => omap placed t = [] /\ steps s3 t s4).
  { destruct (ok s3) eqn:Hok3; cbn [andb];
      [| apply spec_ret; split; [reflexivity | constructor]].
    destruct (_ && _); [| apply spec_ret; split; [reflexivity | constructor]].
    eapply spec_weaken; [apply spec_call |]. cbn beta. intros r t ->.
    split; [reflexivity |].
    apply (steps_call s3 _ r); [assumption | reflexivity | constructor]. }
  intros s4 tcr [Hcr Hs4].
  eapply spec_bind;
    [apply spec_and;
       [apply (transfer_wal_files_placed _ _ _ 0)
       | apply transfer_wal_files_steps] |].
  intros [s5 b5] tw [Htw Hs5]. cbn [fst] in Htw, Hs5.
  apply spec_ret. rewrite app_nil_r. cbn [fst].
  rewrite !omap_app, Htc, Hcr. cbn [app]. unfold listed_files.
  assert (Hmono45 : ok s5 = true -> ok s4 = true) by apply (steps_ok _ _ _ Hs5).
  assert (Hmono34 : ok s4 = true -> ok s3 = true) by apply (steps_ok _ _ _ Hs4).
  assert (Hmono23 : ok s3 = true -> ok s2 = true) by apply (steps_ok _ _ _ Hs3).
  assert (Hmono12 : ok s2 = true -> ok s1 = true) by apply (steps_ok _ _ _ Hs2).
  assert (Httb' : begins (omap placed ttb)
                    (map from_db (table_and_blob_files files)) (ok s3)).
  { destruct (ok s2) eqn:Hok2.
    - rewrite (Htb (Hmono12 eq_refl)) in Httb. exact Httb.
    - rewrite (steps_stop _ _ _ Hs3 Hok2).
      destruct (steps_halt _ _ _ Hs3 Hok2) as [_ ->]. rewrite Hok2.
      apply begins_nil. }
  apply (begins_app _ _ _ _ (ok s1) (ok s5) Htp).
  - apply (begins_app _ _ _ _ (ok s3) (ok s5) Httb' Htw).
    + intros Hbad. apply (steps_stop _ _ _ Hs5).
      destruct (ok s4) eqn:Hok4; [| reflexivity].
      specialize (Hmono34 eq_refl). congruence.
    + auto.
  - intros Hbad.
    assert (Hbad2 : ok s2 = false).
    { destruct (ok s2) eqn:Hok2; [| reflexivity].
      specialize (Hmono12 eq_refl). congruence. }
    rewrite (steps_stop _ _ _ Hs3 Hbad2). cbn [app].
    apply (steps_stop _ _ _ Hs5).
    destruct (ok s4) eqn:Hok4; [| reflexivity].
    specialize (Hmono23 (Hmono34 eq_refl)). congruence.
  - auto.
Qed.

Lemma placed_enumeration t :
  Forall (fun e => is_enumeration_event e = true) t -> omap placed t = [].
Proof.
  induction 1 as [| e t He _ IH]; [reflexivity |].
  destruct e; try discriminate; exact IH.
Qed.

(** X4.  The link and copy callbacks of [CreateCustomCheckpoint] are called
    on listed files only, each once and in this order: the live files of the
    second listing that are neither CURRENT nor table nor blob files, from
    the database directory; its table and blob files, from the database
    directory; and the listed WAL files that pass the filter (alive, and
    either the flush was skipped or the log number is at least the minimum
    log number to keep), from the WAL directory.  A file whose link attempt
    answered NotSupported counts once, for the copy that follows.  A run
    that stops during the enumeration calls them on nothing, any other run
    on a beginning of this list, and a run that succeeds on all of it.
    Archived and obsolete WAL files, and files that are not listed, are
    never placed. *)
Theorem only_listed_files_are_placed db_options log_size_for_flush glc
    (w : W) :
  let run := CreateCustomCheckpoint link_cb copy_cb create_cb db_options
               log_size_for_flush glc w in
  (ok (fst (result run)) = false /\ omap placed (trace run) = [])
  \/ exists flush mln msize files wals s tg tt,
       enumerated db_options log_size_for_flush (snd (result run)) flush mln
         msize files wals s tg
       /\ trace run = tg ++ tt
       /\ exists rest,
            omap placed (trace run) ++ rest
            = listed_files db_options flush mln files wals
            /\ (ok (fst (result run)) = true -> rest = []).
Proof.
  intros run.
  pose proof (CreateCustomCheckpoint_run link_cb copy_cb create_cb db_options
                glc
                (fun flush mln msize files wals _ sf tt =>
                   begins (omap placed tt)
                          (listed_files db_options flush mln files wals)
                          (ok sf))
                (transfer_live_files_placed db_options glc)
                log_size_for_flush w) as H.
  fold run in H. cbv beta in H.
  destruct H as [[Hbad Hall] | H].
  { left. split; [exact Hbad | now apply placed_enumeration]. }
  destruct H as (flush & mln & msize & files & wals & s & tg & tt & Hen & Ht
                 & rest & Hplaced & Hdone).
  right. exists flush, mln, msize, files, wals, s, tg, tt.
  split; [exact Hen |]. split; [exact Ht |].
  exists rest. split; [| exact Hdone].
  rewrite Ht, omap_app.
  rewrite (placed_enumeration tg (enumerated_enumeration _ _ _ _ _ _ _ _ _
                                    _ Hen)).
  exact Hplaced.
Qed.

End Placement.

(** Witness of X4: [small_db], whose checkpoint succeeds and places the
    manifest, the options file, the table file and the WAL file. *)
Lemma only_listed_files_are_placed_witness :
  let run :=
    CreateCustomCheckpoint link_cb copy_cb create_cb Sim.default_options
      kMaxUint64 false Sim.small_db in
  ok (fst (result run)) = true
  /\ omap placed (trace run)
     = [("/db", "/MANIFEST-000004", kDescriptorFile);
        ("/db", "/OPTIONS-000006", kOptionsFile);
        ("/db", "/000009.sst", kTableFile);
        ("/db", "/000010.log", kWalFile)]
  /\ exists flush mln msize files wals s tg,
       enumerated Sim.default_options kMaxUint64 (snd (result run)) flush mln
         msize files wals s tg
       /\ omap placed (trace run)
          = listed_files Sim.default_options flush mln files wals.
Proof.
  intros run.
  assert (H : ok (fst (result run)) = true) by reflexivity.
  split; [exact H |]. split; [vm_compute; reflexivity |].
  destruct (only_listed_files_are_placed Sim.default_options kMaxUint64
              false Sim.small_db)
    as [[Hbad _] | (flush & mln & msize & files & wals & s & tg & tt & Hen
                    & _ & rest & Hplaced & Hdone)].
  - fold run in Hbad. rewrite H in Hbad. discriminate Hbad.
  - exists flush, mln, msize, files, wals, s, tg. split; [exact Hen |].
    fold run in Hplaced, Hdone. rewrite (Hdone H), app_nil_r in Hplaced.
    exact Hplaced.
Defined.


(** ** The fallback to copy *)

(** The files handed to the copy callback: source directory, name and
    type. *)
Definition copies (t : Trace) : list (string * string * FileType) :=
  omap (fun e => match e with
                 | ECopyCb d f _ ty _ _ _ => Some (d, f, ty)
                 | _ => None
                 end) t.

Lemma placed_copies t :
  Forall (fun e => is_copy_or_create e = true) t -> omap placed t = copies t.
Proof.
  induction 1 as [| e t He _ IH]; [reflexivity |].
  unfold copies in *. destruct e; try discriminate; cbn; now rewrite IH.
Qed.

Section Fallback.
Context {W : Type} {C : Collaborators W}.

(** C3.  Within one call, once a hard-link attempt (on a table, blob or WAL
    file) answers NotSupported: the same file is copied at once (the failure
    is absorbed); nothing is link-attempted again, every later call of a
    callback being a copy or the creation of CURRENT; the status the call
    returns is the one of the last of these calls, not the NotSupported of
    the link; and the files copied from then on are that file and, in order,
    the files listed after it (the table and blob files of the second
    listing, then the WAL files that pass the filter), a beginning of them
    when a copy or the creation of CURRENT fails and all of them when the
    call succeeds. *)
Theorem fallback_is_permanent db_options log_size_for_flush glc (w : W)
    pre d f ty r post :
  let run := CreateCustomCheckpoint link_cb copy_cb create_cb db_options
               log_size_for_flush glc w in
  trace run = pre ++ ELinkCb d f ty r :: post ->
  IsNotSupported r = true ->
  (exists cn cv r' post', post = ECopyCb d f 0 ty cn cv r' :: post')
  /\ Forall (fun e => is_copy_or_create e = true) post
  /\ (exists post' e, post = post' ++ [e]
        /\ cb_status e = Some (fst (result run)))
  /\ exists flush mln msize files wals s tg tt later rest,
       enumerated db_options log_size_for_flush (snd (result run)) flush mln
         msize files wals s tg
       /\ trace run = tg ++ tt
       /\ listed_files db_options flush mln files wals
          = omap placed pre ++ (d, f, ty) :: later
       /\ copies post ++ rest = (d, f, ty) :: later
       /\ (ok (fst (result run)) = true -> rest = []).
Proof.
  intros run Ht Hr.
  pose proof (CreateCustomCheckpoint_run link_cb copy_cb create_cb db_options
                glc _
                (fun flush mln msize files wals s =>
                   spec_and _ _ _
                     (transfer_live_files_disc db_options glc flush mln msize
                        files wals s)
                     (transfer_live_files_placed db_options glc flush mln
                        msize files wals s))
                log_size_for_flush w) as H.
  fold run in H. cbv beta in H.
  destruct H as [[_ Hall] | H].
  { rewrite Ht in Hall. apply Forall_app in Hall as [_ Hall].
    apply Forall_cons_iff in Hall as [Hl _]. discriminate. }
  destruct H as (flush & mln & msize & files & wals & s & tg & tt & Hen
                 & Heq & (t0 & t1 & s0 & b' & Htt & H0 & Hdisc)
                 & rest & Hplaced & Hdone).
  pose proof (enumerated_enumeration _ _ _ _ _ _ _ _ _ _ Hen) as Hg.
  assert (Hpre : Forall (fun e => is_link_cb e = false) (tg ++ t0)).
  { apply Forall_app. split; [| exact H0].
    eapply Forall_impl; [exact Hg |].
    intros e He. destruct e; try discriminate; reflexivity. }
  assert (Heq' : (tg ++ t0) ++ t1 = pre ++ ELinkCb d f ty r :: post).
  { rewrite <- app_assoc, <- Htt, <- Heq. exact Ht. }
  destruct (split_at_first is_link_cb _ _ _ _ (ELinkCb d f ty r) Hpre
              eq_refl Heq') as (pre' & Hpre' & Ht1).
  rewrite Ht1 in Hdisc.
  destruct (disc_fallback_inv _ _ _ _ _ _ _ _ _ _ Hdisc Hr)
    as (Hcopy & Hpost & Hlast).
  split; [exact Hcopy |]. split; [exact Hpost |]. split; [exact Hlast |].
  destruct Hcopy as (cn & cv & r' & post' & Hpost').
  exists flush, mln, msize, files, wals, s, tg, tt, (copies post' ++ rest),
    rest.
  split; [exact Hen |]. split; [exact Heq |].
  assert (Hcp : copies post = (d, f, ty) :: copies post').
  { rewrite Hpost'. reflexivity. }
  split; [| split; [now rewrite Hcp | exact Hdone]].
  rewrite <- Hplaced, Htt, Ht1, Hpre', !omap_app.
  rewrite (placed_enumeration tg Hg). cbn [app].
  assert (Hlink : omap placed (ELinkCb d f ty r :: post) = copies post).
  { cbn [omap list_omap placed]. rewrite Hr. now apply placed_copies. }
  rewrite Hlink, Hcp, <- !app_assoc. reflexivity.
Qed.

End Fallback.

(** Witness of C3: the table file of [cross_device_db] cannot be linked; it
    is copied, and so is the WAL file listed after it. *)
Lemma fallback_is_permanent_witness :
  let run :=
    CreateCustomCheckpoint link_cb copy_cb create_cb Sim.default_options
      kMaxUint64 false Sim.cross_device_db in
  let pre := firstn 8 (trace run) in
  let post := skipn 9 (trace run) in
  (trace run
   = pre ++ ELinkCb "/db" "/000009.sst" kTableFile (St.NotSupported "")
            :: post
   /\ IsNotSupported (St.NotSupported "") = true)
  /\ copies post
     = [("/db", "/000009.sst", kTableFile); ("/db", "/000010.log", kWalFile)]
  /\ (exists cn cv r' post',
        post = ECopyCb "/db" "/000009.sst" 0 kTableFile cn cv r' :: post')
  /\ Forall (fun e => is_copy_or_create e = true) post
  /\ (exists post' e,
        post = post' ++ [e] /\ cb_status e = Some (fst (result run)))
  /\ exists flush mln msize files wals s tg tt later rest,
       enumerated Sim.default_options kMaxUint64 (snd (result run)) flush mln
         msize files wals s tg
       /\ trace run = tg ++ tt
       /\ listed_files Sim.default_options flush mln files wals
          = omap placed pre ++ ("/db", "/000009.sst", kTableFile) :: later
       /\ copies post ++ rest
          = ("/db", "/000009.sst", kTableFile) :: later
       /\ (ok (fst (result run)) = true -> rest = []).
Proof.
  intros run pre post.
  assert (H1 : trace run
               = pre ++ ELinkCb "/db" "/000009.sst" kTableFile
                          (St.NotSupported "") :: post)
    by (vm_compute; reflexivity).
  assert (H2 : IsNotSupported (St.NotSupported "") = true) by reflexivity.
  split; [split; [exact H1 | exact H2] |].
  split; [vm_compute; reflexivity |].
  exact (fallback_is_permanent Sim.default_options kMaxUint64 false
           Sim.cross_device_db pre "/db" "/000009.sst" kTableFile
           (St.NotSupported "") post H1 H2).
Defined.


(** ** The course of CreateCheckpoint *)

(** The preparation of the WAL directory [nwd], from the status [s1] of the
    creation of the staging directory to the status [s2] that decides whether
    the transfer starts: nothing when the WAL files go to the staging
    directory; otherwise a probe of [nwd], whose status replaces [s1], and
    when it answers NotFound the creation of [nwd]. *)
Inductive wal_dir_prepared (local : bool) (nwd : string) (s1 : Status)
  : Trace -> Status -> Prop :=
| wal_dir_local : local = true -> wal_dir_prepared local nwd s1 [] s1
| wal_dir_found s :
    local = false -> IsNotFound s = false ->
    wal_dir_prepared local nwd s1 [EFileExists nwd s] s
| wal_dir_created s s' :
    local = false -> IsNotFound s = true ->
    wal_dir_prepared local nwd s1 [EFileExists nwd s; ECreateDir nwd s'] s'.

(** The transfer phase, entered with status [s2]: skipped when [s2] is not
    OK; stopped when [DisableFileDeletions] fails other than as
    NotSupported; otherwise a run [tc] of [CreateCustomCheckpoint], followed
    by [EnableFileDeletions] when [DisableFileDeletions] succeeded.  [Qc]
    relates the result of [CreateCustomCheckpoint] and its calls. *)
Inductive transfer_phase (Qc : Status * N -> Trace -> Prop) (s2 : Status)
  : Trace -> Status -> N -> Prop :=
| phase_skipped : ok s2 = false -> transfer_phase Qc s2 [] s2 0
| phase_refused sd :
    ok s2 = true -> ok sd = false -> IsNotSupported sd = false ->
    transfer_phase Qc s2 [EDisableFileDeletions sd] sd 0
| phase_unprotected sd tc sc n :
    ok s2 = true -> ok sd = false -> IsNotSupported sd = true ->
    Qc (sc, n) tc ->
    transfer_phase Qc s2 (EDisableFileDeletions sd :: tc) sc n
| phase_protected sd tc sc n re :
    ok s2 = true -> ok sd = true -> Qc (sc, n) tc ->
    transfer_phase Qc s2
      (EDisableFileDeletions sd :: tc ++ [EEnableFileDeletions false re])
      sc n.

(** The move of the staging directory into place, entered with status [s]:
    skipped when [s] is not OK; else the rename, and when it succeeded the
    opening of the target directory and, when that gave a directory, its
    sync. *)
Inductive moved (staging target : string) (s : Status)
  : Trace -> Status -> Prop :=
| moved_skipped : ok s = false -> moved staging target s [] s
| moved_failed sr :
    ok s = true -> ok sr = false ->
    moved staging target s [ERenameFile staging target sr] sr
| moved_unsynced sr sn d :
    ok s = true -> ok sr = true -> d = None \/ ok sn = false ->
    moved staging target s
      [ERenameFile staging target sr; ENewDirectory target sn d] sn
| moved_synced sr sn d sf :
    ok s = true -> ok sr = true -> ok sn = true ->
    moved staging target s
      [ERenameFile staging target sr; ENewDirectory target sn (Some d);
       EFsync d sf] sf.

(** The end of [CreateCheckpoint]: the move, then the report of the sequence
    number [n] when all went well and the purge of the staging directory
    when not. *)
Inductive finished (staging target : string) (ptr : bool) (s : Status)
    (n : N) : Status * option N -> Trace -> Prop :=
| finished_ok tm sf :
    moved staging target s tm sf -> ok sf = true ->
    finished staging target ptr s n (sf, if ptr then Some n else None) tm
| finished_failed tm sf tp :
    moved staging target s tm sf -> ok sf = false ->
    purge_trace staging tp ->
    finished staging target ptr s n (sf, None) (tm ++ tp).

(** The runs of [CreateCheckpoint] on [dir]. *)
Inductive checkpoint_run {W : Type} {C : Collaborators W}
    (Qc : DBOptions -> Status * N -> Trace -> Prop)
    (dir : string) (ptr : bool) (dwal : string)
  : Status * option N -> Trace -> Prop :=
| run_target_exists o r0 :
    ok r0 = true ->
    checkpoint_run Qc dir ptr dwal
      (St.InvalidArgument "Directory exists", None)
      [EGetDBOptions o; EFileExists dir r0]
| run_probe_failed o r0 :
    ok r0 = false -> IsNotFound r0 = false ->
    checkpoint_run Qc dir ptr dwal (r0, None)
      [EGetDBOptions o; EFileExists dir r0]
| run_invalid_name o r0 :
    IsNotFound r0 = true -> find_last_not_of dir slash = npos ->
    checkpoint_run Qc dir ptr dwal
      (St.InvalidArgument "invalid checkpoint directory name", None)
      [EGetDBOptions o; EFileExists dir r0]
| run_staged o r0 tp s1 tw s2 tm s3 n r tf :
    let target := substr dir 0 (add64 (find_last_not_of dir slash) 1) in
    let staging := target +:+ ".tmp" in
    let pw := strip_slashes dwal in
    IsNotFound r0 = true -> find_last_not_of dir slash <> npos ->
    purge_trace staging tp ->
    wal_dir_prepared (wal_dir_is_local pw target) (new_wal_dir pw target)
      s1 tw s2 ->
    transfer_phase (Qc o) s2 tm s3 n ->
    finished staging target ptr s3 n r tf ->
    checkpoint_run Qc dir ptr dwal r
      (EGetDBOptions o :: EFileExists dir r0
       :: tp ++ ECreateDir staging s1 :: tw ++ tm ++ tf).

Section Course.
Context {W : Type} {C : Collaborators W}.

Lemma finish_checkpoint_finished staging target ptr s n :
  spec (finish_checkpoint staging target ptr s n)
       (finished staging target ptr s n).
Proof.
  assert (Htail : forall tm sf,
            moved staging target s tm sf ->
            spec (if ok sf
                  then ret (sf, if ptr then Some n else None)
                  else bind (CleanStagingDirectory staging)
                            (fun _ => ret (sf, None)))
                 (fun r t => finished staging target ptr s n r (tm ++ t))).
  { intros tm sf Hm. destruct (ok sf) eqn:Hsf.
    - apply spec_ret. rewrite app_nil_r. now apply finished_ok.
    - eapply spec_bind; [apply CleanStagingDirectory_purges |].
      intros u tp Hp. cbn beta in Hp. apply spec_ret. rewrite app_nil_r.
      now apply finished_failed. }
  unfold finish_checkpoint, RenameFile, NewDirectory, Fsync.
  destruct (ok s) eqn:Hs.
  - apply spec_call_bind. intros sr. destruct (ok sr) eqn:Hsr.
    + apply spec_bind_assoc, spec_call_bind. intros [sn d]. cbn [fst snd].
      destruct d as [d |]; [destruct (ok sn) eqn:Hsn |].
      * apply spec_call_bind. intros sf.
        apply (Htail [_; _; _] sf). now apply moved_synced.
      * apply spec_ret_bind. apply (Htail [_; _] sn).
        apply moved_unsynced; auto.
      * apply spec_ret_bind. apply (Htail [_; _] sn).
        apply moved_unsynced; auto.
    + apply spec_ret_bind. apply (Htail [_] sr). now apply moved_failed.
  - apply spec_ret_bind. cbv beta. rewrite Hs. apply spec_ret_bind.
    apply (Htail [] s). now apply moved_skipped.
Qed.

Variable Qc : DBOptions -> Status * N -> Trace -> Prop.
Variables (dir : string) (log_size_for_flush : N) (ptr : bool)
  (dlog dwal : string).

Let target := substr dir 0 (add64 (find_last_not_of dir slash) 1).
Let staging := target +:+ ".tmp".
Let nwd := new_wal_dir (strip_slashes dwal) target.

Hypothesis transfer_spec : forall o,
  spec (CreateCustomCheckpoint
          (checkpoint_link_file_cb staging nwd)
          (checkpoint_copy_file_cb o staging nwd
             (value_log_dir (strip_slashes dlog) target)
             (value_wal_dir (strip_slashes dwal) target))
          (checkpoint_create_file_cb o staging)
          o log_size_for_flush default_get_live_table_checksum)
       (Qc o).

(** Every run of [CreateCheckpoint] takes one of these courses. *)
Lemma CreateCheckpoint_course :
  spec (CreateCheckpoint dir log_size_for_flush ptr dlog dwal)
       (checkpoint_run Qc dir ptr dwal).
Proof.
  unfold CreateCheckpoint, GetDBOptions. unfold FileExists at 1.
  apply spec_call_bind. intros o. apply spec_call_bind. intros r0.
  destruct (ok r0) eqn:Hok; [apply spec_ret; now constructor |].
  destruct (IsNotFound r0) eqn:Hnf; cbn [negb];
    [| apply spec_ret; now constructor].
  destruct (N.eqb_spec (find_last_not_of dir slash) npos) as [Hnpos | Hnpos];
    [apply spec_ret; now constructor |].
  cbv zeta. fold target. fold staging. fold nwd.
  eapply spec_bind; [apply CleanStagingDirectory_purges |].
  intros u tp Hp. cbn beta in Hp. unfold CreateDir at 1.
  apply spec_call_bind. intros s1.
  eapply spec_bind
    with (P := fun s2 tw =>
                 wal_dir_prepared
                   (wal_dir_is_local (strip_slashes dwal) target) nwd s1 tw
                   s2).
  { destruct (wal_dir_is_local _ target) eqn:Hl;
      [apply spec_ret; now constructor |].
    unfold FileExists, CreateDir. apply spec_call_bind. intros s.
    destruct (IsNotFound s) eqn:Hs.
    - eapply spec_weaken; [apply spec_call |]. cbn beta. intros s' t ->.
      now apply wal_dir_created.
    - apply spec_ret. now apply wal_dir_found. }
  intros s2 tw Hw.
  eapply spec_bind
    with (P := fun r tm => transfer_phase (Qc o) s2 tm (fst r) (snd r)).
  { destruct (ok s2) eqn:Hs2; [| apply spec_ret; now constructor].
    unfold DisableFileDeletions, EnableFileDeletions.
    apply spec_call_bind. intros sd.
    destruct (ok sd) eqn:Hsd; cbn [orb].
    - eapply spec_bind; [apply transfer_spec |].
      intros [sc n] tc Hc. apply spec_bind_assoc, spec_call_bind. intros re.
      apply spec_ret_bind, spec_ret. cbn [fst snd].
      now apply phase_protected.
    - destruct (IsNotSupported sd) eqn:Hns.
      + eapply spec_bind; [apply transfer_spec |].
        intros [sc n] tc Hc. apply spec_ret_bind, spec_ret.
        rewrite app_nil_r. cbn [fst snd]. now apply phase_unprotected.
      + apply spec_ret. now apply phase_refused. }
  intros [s3 n] tm Hm. cbn [fst snd] in Hm.
  eapply spec_weaken; [apply finish_checkpoint_finished |].
  cbn beta. intros r tf Hf.
  now apply (run_staged Qc dir ptr dwal o r0 tp s1 tw s2 tm s3 n r tf).
Qed.

End Course.

(** A call that neither lists nor places files, nor switches file
    deletions. *)
Definition setup_event (e : Event) : Prop :=
  is_enumeration_event e = false /\ is_transfer_event e = false
  /\ is_deletion_call e = false.

Lemma purge_trace_setup p t : purge_trace p t -> Forall setup_event t.
Proof.
  intros H. destruct H as [r Hr | r r' children dels rd Hr Hdels].
  - repeat constructor.
  - repeat constructor. apply Forall_app. split; [| repeat constructor].
    clear Hr. induction Hdels as [| c e cs dels (st & ->) _ IH];
      constructor; [now repeat split | exact IH].
Qed.

Lemma wal_dir_prepared_setup local nwd s1 t s2 :
  wal_dir_prepared local nwd s1 t s2 -> Forall setup_event t.
Proof. destruct 1; repeat constructor. Qed.

Lemma moved_setup staging target s t sf :
  moved staging target s t sf -> Forall setup_event t.
Proof. destruct 1; repeat constructor. Qed.

Lemma moved_ok staging target s t sf :
  moved staging target s t sf -> ok sf = true -> ok s = true.
Proof. destruct 1; congruence. Qed.

Lemma finished_setup staging target ptr s n r t :
  finished staging target ptr s n r t -> Forall setup_event t.
Proof.
  destruct 1 as [tm sf Hm _ | tm sf tp Hm _ Hp].
  - eapply moved_setup; eassumption.
  - apply Forall_app. split; [eapply moved_setup; eassumption |].
    eapply purge_trace_setup; eassumption.
Qed.

Section SequenceNumber.
Context {W : Type} {C : Collaborators W}.

Lemma CreateCustomCheckpoint_sequence_number link copy create db_options
    log_size_for_flush glc :
  spec (CreateCustomCheckpoint link copy create db_options log_size_for_flush
          glc)
       (fun r t =>
          ok (fst r) = true ->
          exists tl, t = EGetLatestSequenceNumber (snd r) :: tl).
Proof.
  eapply spec_weaken.
  { apply (CreateCustomCheckpoint_run link copy create db_options glc
             (fun _ _ _ _ _ _ _ _ => True)).
    intros. apply spec_trivial. }
  cbn beta. intros r t [[Hbad _] | H] Hok; [congruence |].
  destruct H as (flush & mln & msize & files & wals & s & tg & tt & Hen & ->
                 & _).
  destruct Hen. eexists. reflexivity.
Qed.

(** X5.  The sequence number [CreateCheckpoint] reports.  Something is stored
    through [sequence_number_ptr] exactly when the call succeeds and the
    pointer is not null; the number stored is the one
    [GetLatestSequenceNumber] returned right after [DisableFileDeletions],
    before any live file or WAL file was listed or placed. *)
Theorem sequence_number_is_read_first dir log_size_for_flush ptr dlog dwal
    (w : W) :
  let run := CreateCheckpoint dir log_size_for_flush ptr dlog dwal w in
  (snd (result run) = None
   <-> ok (fst (result run)) = false \/ ptr = false)
  /\ forall n,
       snd (result run) = Some n ->
       exists pre sd post,
         trace run
         = pre ++ EDisableFileDeletions sd :: EGetLatestSequenceNumber n
                  :: post
         /\ Forall setup_event pre.
Proof.
  intros run.
  pose proof (CreateCheckpoint_course
                (fun _ r t => ok (fst r) = true ->
                              exists tl, t = EGetLatestSequenceNumber (snd r)
                                             :: tl)
                dir log_size_for_flush ptr dlog dwal
                (fun o => CreateCustomCheckpoint_sequence_number _ _ _ o _ _)
                w) as H.
  fold run in H. cbv beta in H.
  destruct H as [o r0 Hr0 | o r0 Hr0 Hnf | o r0 Hnf Hnpos
                 | o r0 tp s1 tw s2 tm s3 n r tf target staging pw Hnf Hnpos
                     Hp Hw Hm Hf]; cbn [fst snd].
  - split; [split; auto | discriminate].
  - split; [split; auto | discriminate].
  - split; [split; auto | discriminate].
  - destruct Hf as [tmv sf Hmv Hsf | tmv sf tpf Hmv Hsf Hpf]; cbn [fst snd].
    2:{ split; [split; auto | discriminate]. }
    split.
    { destruct ptr; split; try discriminate; auto.
      intros [Hbad | Hbad]; congruence. }
    intros n' Hn'. destruct ptr; [injection Hn' as <- | discriminate].
    pose proof (moved_ok _ _ _ _ _ Hmv Hsf) as Hs3.
    assert (Hpre : Forall setup_event
                     (EGetDBOptions o :: EFileExists dir r0
                      :: tp ++ ECreateDir staging s1 :: tw)).
    { repeat constructor. apply Forall_app.
      split; [eapply purge_trace_setup; eassumption |].
      constructor; [now repeat split |].
      eapply wal_dir_prepared_setup; eassumption. }
    destruct Hm as [Hs2 | sd Hs2 Hsd Hns | sd tc sc n Hs2 Hsd Hns Hc
                    | sd tc sc n re Hs2 Hsd Hc]; try congruence.
    + destruct (Hc Hs3) as (tl & ->). cbn [snd].
      exists (EGetDBOptions o :: EFileExists dir r0
              :: tp ++ ECreateDir staging s1 :: tw), sd, (tl ++ tmv).
      split; [| exact Hpre].
      cbn [app]. rewrite <- !app_assoc. cbn [app]. reflexivity.
    + destruct (Hc Hs3) as (tl & ->). cbn [snd].
      exists (EGetDBOptions o :: EFileExists dir r0
              :: tp ++ ECreateDir staging s1 :: tw), sd,
             (tl ++ [EEnableFileDeletions false re] ++ tmv).
      split; [| exact Hpre].
      cbn [app]. rewrite <- !app_assoc. cbn [app]. reflexivity.
Qed.

End SequenceNumber.

(** Witness of X5: the checkpoint of [small_db] into [/snap] reports the
    sequence number 5. *)
Lemma sequence_number_is_read_first_witness :
  let run := CreateCheckpoint "/snap" kMaxUint64 true "" "" Sim.small_db in
  snd (result run) = Some 5
  /\ ok (fst (result run)) = true
  /\ exists pre sd post,
       trace run
       = pre ++ EDisableFileDeletions sd :: EGetLatestSequenceNumber 5 :: post
       /\ Forall setup_event pre.
Proof.
  intros run.
  assert (H : snd (result run) = Some 5) by reflexivity.
  split; [exact H |]. split; [reflexivity |].
  exact (proj2 (sequence_number_is_read_first "/snap" kMaxUint64 true "" ""
                  Sim.small_db) 5 H).
Defined.

(** ** The transfer and the suppression of file deletions *)

Section Suppression.
Context {W : Type} {C : Collaborators W}.

Lemma checkpoint_transfer_switches_nothing o staging nwd vl vw log :
  emits (fun e => is_deletion_call e = false)
        (CreateCustomCheckpoint
           (checkpoint_link_file_cb staging nwd)
           (checkpoint_copy_file_cb o staging nwd vl vw)
           (checkpoint_create_file_cb o staging)
           o log default_get_live_table_checksum).
Proof.
  apply checkpoint_transfer_emits;
    [intros e; now destruct e | reflexivity | intros e; now destruct e
    | reflexivity].
Qed.

(** The call of [CreateCustomCheckpoint] that [CreateCheckpoint] makes, with
    its three callbacks, on the options [o] it read. *)
Definition checkpoint_transfer (o : DBOptions) (dir : string)
    (log_size_for_flush : N) (dlog dwal : string) : M W (Status * N) :=
  let target := substr dir 0 (add64 (find_last_not_of dir slash) 1) in
  let staging := target +:+ ".tmp" in
  let nwd := new_wal_dir (strip_slashes dwal) target in
  CreateCustomCheckpoint
    (checkpoint_link_file_cb staging nwd)
    (checkpoint_copy_file_cb o staging nwd
       (value_log_dir (strip_slashes dlog) target)
       (value_wal_dir (strip_slashes dwal) target))
    (checkpoint_create_file_cb o staging)
    o log_size_for_flush default_get_live_table_checksum.

(** X6.  [CreateCheckpoint] lists and places files only after its call to
    [DisableFileDeletions], and before its call to [EnableFileDeletions] when
    there is one.  A run either makes no such call at all, or its calls are:
    the reading of the options and calls that neither list nor place files,
    then [DisableFileDeletions], then the calls of the transfer, then
    [EnableFileDeletions] exactly when [DisableFileDeletions] had succeeded,
    then again calls that neither list nor place files.  When
    [DisableFileDeletions] succeeds, and also when it fails as NotSupported,
    the transfer is made: its calls are those of a whole run of
    [CreateCustomCheckpoint] with the callbacks of [CreateCheckpoint] on the
    options read, none of which switches file deletions.  When
    [DisableFileDeletions] fails otherwise there is no transfer. *)
Theorem files_are_placed_under_suppression dir log_size_for_flush ptr dlog
    dwal (w : W) :
  let t := trace (CreateCheckpoint dir log_size_for_flush ptr dlog dwal w) in
  let transfer_made o mid :=
    exists w',
      mid = trace (checkpoint_transfer o dir log_size_for_flush dlog dwal w')
  in
  Forall setup_event t
  \/ exists o pre sd mid closing post,
       t = EGetDBOptions o :: pre
           ++ EDisableFileDeletions sd :: mid ++ closing ++ post
       /\ Forall setup_event pre /\ Forall setup_event post
       /\ Forall (fun e => is_deletion_call e = false) mid
       /\ ((ok sd = true
            /\ (exists re, closing = [EEnableFileDeletions false re])
            /\ transfer_made o mid)
           \/ (ok sd = false /\ IsNotSupported sd = true /\ closing = []
               /\ transfer_made o mid)
           \/ (ok sd = false /\ IsNotSupported sd = false /\ closing = []
               /\ mid = [])).
Proof.
  intros t transfer_made.
  pose proof (CreateCheckpoint_course
                (fun o _ t =>
                   Forall (fun e => is_deletion_call e = false) t
                   /\ transfer_made o t)
                dir log_size_for_flush ptr dlog dwal
                (fun o =>
                   spec_and _ _ _
                     (checkpoint_transfer_switches_nothing o _ _ _ _ _)
                     (fun w' => ex_intro _ w' eq_refl))
                w) as H.
  fold t in H. cbv beta in H.
  destruct H as [o r0 Hr0 | o r0 Hr0 Hnf | o r0 Hnf Hnpos
                 | o r0 tp s1 tw s2 tm s3 n r tf target staging pw Hnf Hnpos
                     Hp Hw Hm Hf];
    try (left; repeat constructor; fail).
  assert (Hpre : Forall setup_event
                   (EFileExists dir r0 :: tp ++ ECreateDir staging s1 :: tw)).
  { repeat constructor. apply Forall_app.
    split; [eapply purge_trace_setup; eassumption |].
    constructor; [now repeat split |].
    eapply wal_dir_prepared_setup; eassumption. }
  pose proof (finished_setup _ _ _ _ _ _ _ Hf) as Hpost.
  destruct Hm as [Hs2 | sd Hs2 Hsd Hns | sd tc sc n Hs2 Hsd Hns [Hc Hrun]
                  | sd tc sc n re Hs2 Hsd [Hc Hrun]].
  - left. cbn [app]. repeat constructor. apply Forall_app.
    split; [eapply purge_trace_setup; eassumption |].
    constructor; [now repeat split |]. apply Forall_app.
    split; [eapply wal_dir_prepared_setup; eassumption | exact Hpost].
  - right.
    exists o, (EFileExists dir r0 :: tp ++ ECreateDir staging s1 :: tw), sd,
      [], [], tf.
    split; [cbn [app]; rewrite <- !app_assoc; reflexivity |].
    split; [exact Hpre |]. split; [exact Hpost |]. split; [constructor |].
    right. right. auto.
  - right.
    exists o, (EFileExists dir r0 :: tp ++ ECreateDir staging s1 :: tw), sd,
      tc, [], tf.
    split; [cbn [app]; rewrite <- !app_assoc; reflexivity |].
    split; [exact Hpre |]. split; [exact Hpost |]. split; [exact Hc |].
    right. left. auto.
  - right.
    exists o, (EFileExists dir r0 :: tp ++ ECreateDir staging s1 :: tw), sd,
      tc, [EEnableFileDeletions false re], tf.
    split; [cbn [app]; rewrite <- !app_assoc; reflexivity |].
    split; [exact Hpre |]. split; [exact Hpost |]. split; [exact Hc |].
    left. eauto.
Qed.

End Suppression.

(** ** A checkpoint that succeeds *)

Definition is_delete (e : Event) : bool :=
  match e with EDeleteFile _ _ | EDeleteDir _ _ => true | _ => false end.

Section Success.
Context {W : Type} {C : Collaborators W}.

Lemma checkpoint_transfer_keeps_directories o staging nwd vl vw log :
  emits (fun e => is_rename e = false /\ is_delete e = false)
        (CreateCustomCheckpoint
           (checkpoint_link_file_cb staging nwd)
           (checkpoint_copy_file_cb o staging nwd vl vw)
           (checkpoint_create_file_cb o staging)
           o log default_get_live_table_checksum).
Proof.
  apply checkpoint_transfer_emits;
    [intros e; now destruct e | now split | intros e; now destruct e
    | now split].
Qed.

(** X7.  A run of [CreateCheckpoint] that succeeds: probes the target and
    finds nothing; purges what an earlier run may have left at the staging
    directory and creates it; from then on deletes nothing and renames
    nothing, until it renames the staging directory to the normalized
    target, once, as its last change; it ends by opening the target
    directory and, when that gives a directory, by syncing it, the status of
    the sync being the status returned. *)
Theorem successful_checkpoint_course dir log_size_for_flush ptr dlog dwal
    (w : W) :
  let run := CreateCheckpoint dir log_size_for_flush ptr dlog dwal w in
  let target := substr dir 0 (add64 (find_last_not_of dir slash) 1) in
  let staging := target +:+ ".tmp" in
  ok (fst (result run)) = true ->
  exists o r0 tp s1 mid sr sn d tail,
    trace run
    = EGetDBOptions o :: EFileExists dir r0
      :: tp ++ ECreateDir staging s1
      :: mid ++ ERenameFile staging target sr :: ENewDirectory target sn d
      :: tail
    /\ IsNotFound r0 = true /\ purge_trace staging tp
    /\ Forall (fun e => is_rename e = false /\ is_delete e = false) mid
    /\ ok sr = true /\ ok sn = true
    /\ ((d = None /\ tail = [] /\ fst (result run) = sn)
        \/ exists dd sf,
             d = Some dd /\ tail = [EFsync dd sf]
             /\ fst (result run) = sf).
Proof.
  intros run target staging Hok.
  pose proof (CreateCheckpoint_course
                (fun _ _ t =>
                   Forall (fun e => is_rename e = false
                                    /\ is_delete e = false) t)
                dir log_size_for_flush ptr dlog dwal
                (fun o => checkpoint_transfer_keeps_directories o _ _ _ _ _)
                w) as H.
  fold run in H. cbv beta in H. revert Hok.
  destruct H as [o r0 Hr0 | o r0 Hr0 Hnf | o r0 Hnf Hnpos
                 | o r0 tp s1 tw s2 tm s3 n r tf target' staging' pw Hnf
                     Hnpos Hp Hw Hm Hf]; cbn [fst]; try discriminate;
    try congruence.
  subst target' staging'. fold target in Hp, Hw, Hf |- *.
  fold staging in Hp, Hf |- *.
  intros Hok.
  destruct Hf as [tmv sf Hmv Hsf | tmv sf tpf Hmv Hsf Hpf]; cbn [fst] in *;
    [| congruence].
  assert (Hmid : Forall (fun e => is_rename e = false /\ is_delete e = false)
                   (tw ++ tm)).
  { apply Forall_app. split.
    - destruct Hw; repeat constructor.
    - destruct Hm as [Hs2 | sd Hs2 Hsd Hns | sd tc sc n Hs2 Hsd Hns Hc
                      | sd tc sc n re Hs2 Hsd Hc].
      + constructor.
      + repeat constructor.
      + constructor; [now split | exact Hc].
      + constructor; [now split |]. apply Forall_app.
        split; [exact Hc | repeat constructor]. }
  destruct Hmv as [Hs3 | sr Hs3 Hsr | sr sn d Hs3 Hsr Hd
                   | sr sn d sf Hs3 Hsr Hsn].
  - pose proof (moved_ok staging target s3 [] s3
                  (moved_skipped staging target s3 Hs3) Hsf). congruence.
  - congruence.
  - exists o, r0, tp, s1, (tw ++ tm), sr, sn, d, [].
    split; [now rewrite <- !app_assoc |].
    split; [exact Hnf |]. split; [exact Hp |]. split; [exact Hmid |].
    split; [exact Hsr |]. split; [exact Hsf |].
    left. destruct Hd as [-> | Hd]; [auto | congruence].
  - exists o, r0, tp, s1, (tw ++ tm), sr, sn, (Some d), [EFsync d sf].
    split; [now rewrite <- !app_assoc |].
    split; [exact Hnf |]. split; [exact Hp |]. split; [exact Hmid |].
    split; [exact Hsr |]. split; [exact Hsn |].
    right. eauto.
Qed.

End Success.

(** Witness of X7: the checkpoint of [small_db] into [/snap]. *)
Lemma successful_checkpoint_course_witness :
  let run := CreateCheckpoint "/snap" kMaxUint64 false "" "" Sim.small_db in
  ok (fst (result run)) = true
  /\ exists o r0 tp s1 mid sr sn d tail,
       trace run
       = EGetDBOptions o :: EFileExists "/snap" r0
         :: tp ++ ECreateDir "/snap.tmp" s1
         :: mid ++ ERenameFile "/snap.tmp" "/snap" sr
         :: ENewDirectory "/snap" sn d :: tail
       /\ IsNotFound r0 = true /\ purge_trace "/snap.tmp" tp
       /\ Forall (fun e => is_rename e = false /\ is_delete e = false) mid
       /\ ok sr = true /\ ok sn = true
       /\ ((d = None /\ tail = [] /\ fst (result run) = sn)
           \/ exists dd sf,
                d = Some dd /\ tail = [EFsync dd sf]
                /\ fst (result run) = sf).
Proof.
  intros run.
  assert (H : ok (fst (result run)) = true) by reflexivity.
  split; [exact H |].
  exact (successful_checkpoint_course "/snap" kMaxUint64 false "" ""
           Sim.small_db H).
Defined.


(** ** Where CreateCheckpoint writes *)


Section Confinement.
Context {W : Type} {C : Collaborators W}.





End Confinement.


(** ** The course of ExportColumnFamily *)

(** The transfer phase of [ExportColumnFamily], entered with the status [s1]
    of the creation of the temporary directory: the flush of the column
    family, [DisableFileDeletions], the capture of the metadata, the transfer
    and [EnableFileDeletions], each made only when all before it succeeded
    (but [EnableFileDeletions], made whatever the transfer answered).  The
    status left is the one of the step that failed, and of
    [EnableFileDeletions] when none did.  [Qe] relates the captured metadata,
    the status of the transfer and its calls. *)
Inductive export_phase
    (Qe : ColumnFamilyMetaData -> Status -> Trace -> Prop) (cf : string)
    (s1 : Status) : Trace -> Status -> ColumnFamilyMetaData -> Prop :=
| export_not_staged :
    ok s1 = false -> export_phase Qe cf s1 [] s1 (mkCFMeta [])
| export_not_flushed sf :
    ok s1 = true -> ok sf = false ->
    export_phase Qe cf s1 [EFlush cf sf] sf (mkCFMeta [])
| export_refused sf sd :
    ok s1 = true -> ok sf = true -> ok sd = false ->
    export_phase Qe cf s1 [EFlush cf sf; EDisableFileDeletions sd] sd
      (mkCFMeta [])
| export_transferred sf sd md te st re :
    ok s1 = true -> ok sf = true -> ok sd = true -> Qe md st te ->
    export_phase Qe cf s1
      (EFlush cf sf :: EDisableFileDeletions sd
       :: EGetColumnFamilyMetaData cf md
       :: te ++ [EEnableFileDeletions false re])
      (if ok st then re else st) md.

(** The move of the temporary directory [tmp] to [export_dir], entered with
    status [s]; the flag tells whether the rename succeeded. *)
Inductive export_moved (tmp export_dir : string) (s : Status)
  : Trace -> Status -> bool -> Prop :=
| export_move_skipped :
    ok s = false -> export_moved tmp export_dir s [] s false
| export_move_failed sr :
    ok s = true -> ok sr = false ->
    export_moved tmp export_dir s [ERenameFile tmp export_dir sr] sr false
| export_move_unsynced sr sn d :
    ok s = true -> ok sr = true -> d = None \/ ok sn = false ->
    export_moved tmp export_dir s
      [ERenameFile tmp export_dir sr; ENewDirectory export_dir sn d] sn true
| export_move_synced sr sn d sf :
    ok s = true -> ok sr = true -> ok sn = true ->
    export_moved tmp export_dir s
      [ERenameFile tmp export_dir sr; ENewDirectory export_dir sn (Some d);
       EFsync d sf] sf true.

(** The cleanup of directory [d]: its listing, the deletion of every listed
    child, the deletion of [d]. *)
Inductive export_cleaned (d : string) : Trace -> Prop :=
| export_cleaned_intro r children dels rd :
    deletes_children d children dels ->
    export_cleaned d (EGetChildren d r children :: dels ++ [EDeleteDir d rd]).

(** The runs of [ExportColumnFamily] on [export_dir], with the memory found
    and the memory left. *)
Inductive export_run
    (Qe : DBOptions -> ColumnFamilyMetaData -> Status -> Trace -> Prop)
    (handle : ColumnFamilyHandle) (export_dir : string) (mem : Memory)
  : Status * Memory -> Trace -> Prop :=
| export_target_exists o r0 :
    ok r0 = true ->
    export_run Qe handle export_dir mem
      (St.InvalidArgument "Specified export_dir exists", mem)
      [EGetDBOptions o; EFileExists export_dir r0]
| export_probe_failed o r0 :
    ok r0 = false -> IsNotFound r0 = false ->
    export_run Qe handle export_dir mem (r0, mem)
      [EGetDBOptions o; EFileExists export_dir r0]
| export_invalid_name o r0 :
    IsNotFound r0 = true -> find_last_not_of export_dir slash = npos ->
    export_run Qe handle export_dir mem
      (St.InvalidArgument "Specified export_dir invalid", mem)
      [EGetDBOptions o; EFileExists export_dir r0]
| export_done o r0 s1 tph s2 md tmv s3 mv mem' :
    let tmp :=
      substr export_dir 0 (add64 (find_last_not_of export_dir slash) 1)
      +:+ ".tmp" in
    IsNotFound r0 = true -> find_last_not_of export_dir slash <> npos ->
    export_phase (Qe o) (cf_name handle) s1 tph s2 md ->
    export_moved tmp export_dir s2 tmv s3 mv -> ok s3 = true ->
    export_run Qe handle export_dir mem (s3, mem')
      (EGetDBOptions o :: EFileExists export_dir r0 :: ECreateDir tmp s1
       :: tph ++ tmv)
| export_undone o r0 s1 tph s2 md tmv s3 mv tc :
    let tmp :=
      substr export_dir 0 (add64 (find_last_not_of export_dir slash) 1)
      +:+ ".tmp" in
    IsNotFound r0 = true -> find_last_not_of export_dir slash <> npos ->
    export_phase (Qe o) (cf_name handle) s1 tph s2 md ->
    export_moved tmp export_dir s2 tmv s3 mv -> ok s3 = false ->
    export_cleaned (if mv then export_dir else tmp) tc ->
    export_run Qe handle export_dir mem (s3, mem)
      (EGetDBOptions o :: EFileExists export_dir r0 :: ECreateDir tmp s1
       :: tph ++ tmv ++ tc).

Section ExportCourse.
Context {W : Type} {C : Collaborators W}.

Lemma spec_bind_group {A B D} (m : M W A) (f : A -> M W B) (g : B -> M W D)
    (Q : D -> Trace -> Prop) :
  spec (bind (bind m f) g) Q -> spec (bind m (fun a => bind (f a) g)) Q.
Proof.
  intros H w. specialize (H w). unfold bind in *.
  destruct (m w) as [[a w1] t1]. destruct (f a w1) as [[b w2] t2].
  destruct (g b w2) as [[d w3] t3]. cbn in *. now rewrite app_assoc.
Qed.

Lemma export_cleanup_cleaned d :
  spec (export_cleanup d) (fun _ t => export_cleaned d t).
Proof.
  unfold export_cleanup, GetChildren, DeleteDir.
  apply spec_call_bind. intros [r children]. cbn [fst snd].
  eapply spec_bind; [apply for_each_deletes |].
  intros u dels Hdels. cbn beta in Hdels.
  apply spec_call_bind. intros rd. apply spec_ret. now constructor.
Qed.

Variable Qe : DBOptions -> ColumnFamilyMetaData -> Status -> Trace -> Prop.
Variables (handle : ColumnFamilyHandle) (export_dir : string) (mem : Memory).

Let tmp :=
  substr export_dir 0 (add64 (find_last_not_of export_dir slash) 1)
  +:+ ".tmp".

Hypothesis transfer_spec : forall o md,
  spec (ExportFilesInMetaData (export_link_file_cb tmp)
          (export_copy_file_cb o tmp) o md)
       (Qe o md).

(** Every run of [ExportColumnFamily] takes one of these courses. *)
Lemma ExportColumnFamily_course :
  spec (ExportColumnFamily handle export_dir mem)
       (export_run Qe handle export_dir mem).
Proof.
  unfold ExportColumnFamily, GetDBOptions. unfold FileExists, CreateDir.
  apply spec_call_bind. intros o. apply spec_call_bind. intros r0.
  destruct (ok r0) eqn:Hok; [apply spec_ret; now constructor |].
  destruct (IsNotFound r0) eqn:Hnf; cbn [negb];
    [| apply spec_ret; now constructor].
  destruct (N.eqb_spec (find_last_not_of export_dir slash) npos)
    as [Hnpos | Hnpos]; [apply spec_ret; now constructor |].
  cbv zeta. fold tmp.
  apply spec_call_bind. intros s1.
  (* the flush and the transfer, as one step *)
  apply spec_bind_group.
  eapply spec_bind
    with (P := fun r t => export_phase (Qe o) (cf_name handle) s1 t (fst r)
                            (snd r)).
  { unfold Flush, DisableFileDeletions, GetColumnFamilyMetaData,
      EnableFileDeletions.
    destruct (ok s1) eqn:Hs1.
    2:{ apply spec_ret_bind. rewrite Hs1. apply spec_ret. now constructor. }
    apply spec_call_bind. intros sf.
    destruct (ok sf) eqn:Hsf; [| apply spec_ret; now constructor].
    apply spec_call_bind. intros sd.
    destruct (ok sd) eqn:Hsd; [| apply spec_ret; now constructor].
    apply spec_call_bind. intros md.
    eapply spec_bind; [apply transfer_spec |]. intros st te Hte.
    apply spec_call_bind. intros re. apply spec_ret.
    now apply (export_transferred (Qe o) (cf_name handle) s1 sf sd md te st
                 re). }
  intros [s2 md] tph Hph. cbn [fst snd] in Hph.
  apply spec_bind_group.
  eapply spec_bind
    with (P := fun r t => export_moved tmp export_dir s2 t (fst r) (snd r)).
  { unfold RenameFile, NewDirectory, Fsync.
    destruct (ok s2) eqn:Hs2.
    2:{ apply spec_ret_bind. rewrite Hs2. apply spec_ret. now constructor. }
    apply spec_call_bind. intros sr.
    destruct (ok sr) eqn:Hsr; [| apply spec_ret; now constructor].
    apply spec_call_bind. intros [sn d]. cbn [fst snd].
    destruct d as [d |]; [destruct (ok sn) eqn:Hsn |].
    - apply spec_call_bind. intros sf. apply spec_ret.
      now apply export_move_synced.
    - apply spec_ret_bind, spec_ret. apply export_move_unsynced; auto.
    - apply spec_ret_bind, spec_ret. apply export_move_unsynced; auto. }
  intros [s3 mv] tmv Hmv. cbn [fst snd] in Hmv.
  destruct (ok s3) eqn:Hs3.
  - destruct (new_metadata mem) as [p m]. apply spec_ret. rewrite app_nil_r.
    now apply (export_done Qe handle export_dir mem o r0 s1 tph s2 md tmv s3
                 mv).
  - eapply spec_bind; [apply export_cleanup_cleaned |].
    intros u tc Hc. cbn beta in Hc. apply spec_ret. rewrite app_nil_r.
    now apply (export_undone Qe handle export_dir mem o r0 s1 tph s2 md tmv
                 s3 mv tc).
Qed.

End ExportCourse.


Definition is_link_or_copy (e : Event) : bool :=
  match e with
  | ELinkFile _ _ _ | ECopyFile _ _ _ _ _ => true
  | _ => false
  end.

Section ExportProperties.
Context {W : Type} {C : Collaborators W}.

Lemma export_transfer_links_or_copies o tmp md :
  emits (fun e => is_link_or_copy e = true)
        (ExportFilesInMetaData (export_link_file_cb tmp)
           (export_copy_file_cb o tmp) o md).
Proof.
  apply ExportFilesInMetaData_emits; intros d f;
    unfold export_link_file_cb, export_copy_file_cb, LinkFile, CopyFile;
    now apply emits_call.
Qed.

Lemma rename_calls_links_or_copies t :
  Forall (fun e => is_link_or_copy e = true) t -> rename_calls t = [].
Proof.
  intros H. apply rename_calls_none.
  eapply Forall_impl; [exact H |]. intros e He. now destruct e.
Qed.

Lemma export_phase_rename_calls Qe cf s1 t s2 md :
  (forall md st te, Qe md st te ->
                    Forall (fun e => is_link_or_copy e = true) te) ->
  export_phase Qe cf s1 t s2 md -> rename_calls t = [].
Proof.
  intros HQ H. destruct H as [| | | sf sd md te st re _ _ _ Hte];
    try reflexivity.
  change (rename_calls (?a :: ?b :: ?c :: ?l)) with (rename_calls l).
  rewrite rename_calls_app, (rename_calls_links_or_copies te); [reflexivity |].
  eapply HQ; eassumption.
Qed.

(** X9.  A run of [ExportColumnFamily] that fails leaves the caller's
    out-parameter and the metadata objects as they were.  When the failure
    comes after the checks of the argument, the run ends with a cleanup:
    the listing of a directory, the deletion of each listed child and the
    deletion of the directory.  The directory cleaned is the temporary
    directory when the rename was not attempted or failed, and
    [export_dir] itself when the rename had succeeded (and the sync then
    failed): what was moved into place is removed again. *)
Theorem failed_export_cleans_up handle export_dir mem (w : W) :
  let run := ExportColumnFamily handle export_dir mem w in
  let tmp :=
    substr export_dir 0 (add64 (find_last_not_of export_dir slash) 1)
    +:+ ".tmp" in
  ok (fst (result run)) = false ->
  snd (result run) = mem
  /\ ((exists o r0, trace run = [EGetDBOptions o; EFileExists export_dir r0])
      \/ exists t0 d tc,
           trace run = t0 ++ tc /\ export_cleaned d tc
           /\ ((d = tmp
                /\ (rename_calls t0 = []
                    \/ exists sr, rename_calls t0 = [(tmp, export_dir, sr)]
                                  /\ ok sr = false))
               \/ (d = export_dir
                   /\ exists sr, rename_calls t0 = [(tmp, export_dir, sr)]
                                 /\ ok sr = true))).
Proof.
  intros run tmp.
  pose proof (ExportColumnFamily_course
                (fun _ _ _ te => Forall (fun e => is_link_or_copy e = true) te)
                handle export_dir mem
                (fun o md => export_transfer_links_or_copies o _ md) w) as H.
  fold run in H. cbv beta in H.
  destruct H as [o r0 Hr0 | o r0 Hr0 Hnf | o r0 Hnf Hnpos
                 | o r0 s1 tph s2 md tmv s3 mv mem' tmp' Hnf Hnpos Hph Hmv Hs3
                 | o r0 s1 tph s2 md tmv s3 mv tc tmp' Hnf Hnpos Hph Hmv Hs3
                     Hc]; cbn [fst snd]; intros Hbad;
    try (split; [reflexivity | left; eauto]; fail);
    [congruence |].
  subst tmp'. fold tmp in Hmv, Hc |- *.
  split; [reflexivity |]. right.
  exists (EGetDBOptions o :: EFileExists export_dir r0 :: ECreateDir tmp s1
          :: tph ++ tmv), (if mv then export_dir else tmp), tc.
  split; [cbn [app]; now rewrite <- !app_assoc |]. split; [exact Hc |].
  change (rename_calls (?a :: ?b :: ?c :: ?l)) with (rename_calls l).
  rewrite rename_calls_app.
  rewrite (export_phase_rename_calls _ _ _ _ _ _ (fun _ _ _ H => H) Hph).
  cbn [app].
  destruct Hmv as [Hs2 | sr Hs2 Hsr | sr sn d Hs2 Hsr Hd
                   | sr sn d sf Hs2 Hsr Hsn].
  - left. split; [reflexivity | now left].
  - left. split; [reflexivity | right; eauto].
  - right. split; [reflexivity | eauto].
  - right. split; [reflexivity | eauto].
Qed.

End ExportProperties.

(** The directory [/export] cannot be synced. *)
Definition unsyncable_export_db : Sim.World :=
  Sim.set_faults Sim.small_db [] ["/export/"].

(** Witness of X9: the rename to [/export] succeeds and the sync fails; the
    export removes [/export] again. *)
Lemma failed_export_cleans_up_witness :
  let run :=
    ExportColumnFamily Sim.cf "/export" Sim.no_memory unsyncable_export_db in
  ok (fst (result run)) = false
  /\ rename_calls (trace run) = [("/export.tmp", "/export", St.OK)]
  /\ Sim.exists_path (world run) "/export" = false
  /\ snd (result run) = Sim.no_memory
  /\ ((exists o r0, trace run = [EGetDBOptions o; EFileExists "/export" r0])
      \/ exists t0 d tc,
           trace run = t0 ++ tc /\ export_cleaned d tc
           /\ ((d = "/export.tmp"
                /\ (rename_calls t0 = []
                    \/ exists sr,
                         rename_calls t0 = [("/export.tmp", "/export", sr)]
                         /\ ok sr = false))
               \/ (d = "/export"
                   /\ exists sr,
                        rename_calls t0 = [("/export.tmp", "/export", sr)]
                        /\ ok sr = true))).
Proof.
  intros run.
  assert (H : ok (fst (result run)) = false) by reflexivity.
  split; [exact H |]. split; [reflexivity |]. split; [reflexivity |].
  exact (failed_export_cleans_up Sim.cf "/export" Sim.no_memory
           unsyncable_export_db H).
Defined.

(** A call that neither captures the metadata nor places a file, and is not
    [EnableFileDeletions]. *)
Definition export_setup_event (e : Event) : Prop :=
  is_link_or_copy e = false
  /\ match e with
     | EGetColumnFamilyMetaData _ _ | EEnableFileDeletions _ _ => False
     | _ => True
     end.

Lemma export_moved_setup tmp export_dir s t s' mv :
  export_moved tmp export_dir s t s' mv -> Forall export_setup_event t.
Proof. destruct 1; repeat constructor. Qed.

Lemma export_cleaned_setup d t :
  export_cleaned d t -> Forall export_setup_event t.
Proof.
  destruct 1 as [r children dels rd Hdels]. constructor; [now split |].
  apply Forall_app. split; [| repeat constructor].
  induction Hdels as [| c e cs dels (st & ->) _ IH]; constructor;
    [now split | exact IH].
Qed.

Lemma export_cleaned_rename_calls d t :
  export_cleaned d t -> rename_calls t = [].
Proof.
  destruct 1 as [r children dels rd Hdels]. apply rename_calls_none.
  constructor; [reflexivity |]. apply Forall_app.
  split; [| repeat constructor].
  induction Hdels as [| c e cs dels (st & ->) _ IH]; constructor;
    [reflexivity | exact IH].
Qed.

Section ExportOrder.
Context {W : Type} {C : Collaborators W}.

(** X10.  [ExportColumnFamily] captures the metadata and places files only
    with file deletions disabled.  A run either captures and places nothing,
    or its calls are: calls that neither capture nor place, then the flush
    of the column family, [DisableFileDeletions], the capture of the
    metadata, links and copies only, [EnableFileDeletions], and again calls
    that neither capture nor place; the flush and [DisableFileDeletions]
    succeeded.  When [EnableFileDeletions] fails the export fails, and the
    temporary directory is not renamed, even when every file was placed. *)
Theorem export_places_under_suppression handle export_dir mem (w : W) :
  let run := ExportColumnFamily handle export_dir mem w in
  Forall export_setup_event (trace run)
  \/ exists pre sf sd md mid re post,
       trace run
       = pre ++ EFlush (cf_name handle) sf :: EDisableFileDeletions sd
             :: EGetColumnFamilyMetaData (cf_name handle) md
             :: mid ++ EEnableFileDeletions false re :: post
       /\ ok sf = true /\ ok sd = true
       /\ Forall export_setup_event pre /\ Forall export_setup_event post
       /\ Forall (fun e => is_link_or_copy e = true) mid
       /\ (ok re = false ->
           ok (fst (result run)) = false /\ rename_calls (trace run) = []).
Proof.
  intros run.
  pose proof (ExportColumnFamily_course
                (fun _ _ _ te => Forall (fun e => is_link_or_copy e = true) te)
                handle export_dir mem
                (fun o md => export_transfer_links_or_copies o _ md) w) as H.
  fold run in H. cbv beta in H.
  assert (Hcases : forall (r : Status * Memory) o r0 s1 tph s2 md tmv mv tc,
            let tmp :=
              substr export_dir 0
                (add64 (find_last_not_of export_dir slash) 1) +:+ ".tmp" in
            export_phase
              (fun _ _ te => Forall (fun e => is_link_or_copy e = true) te)
              (cf_name handle) s1 tph s2 md ->
            export_moved tmp export_dir s2 tmv (fst r) mv ->
            Forall export_setup_event tc -> rename_calls tc = [] ->
            let t := EGetDBOptions o :: EFileExists export_dir r0
                     :: ECreateDir tmp s1 :: tph ++ tmv ++ tc in
            Forall export_setup_event t
            \/ exists pre sf sd md mid re post,
                 t = pre ++ EFlush (cf_name handle) sf
                         :: EDisableFileDeletions sd
                         :: EGetColumnFamilyMetaData (cf_name handle) md
                         :: mid ++ EEnableFileDeletions false re :: post
                 /\ ok sf = true /\ ok sd = true
                 /\ Forall export_setup_event pre
                 /\ Forall export_setup_event post
                 /\ Forall (fun e => is_link_or_copy e = true) mid
                 /\ (ok re = false ->
                     ok (fst r) = false /\ rename_calls t = [])).
  { intros r o r0 s1 tph s2 md tmv mv tc tmp Hph Hmv Hc Hnr t.
    pose proof (export_moved_setup _ _ _ _ _ _ Hmv) as Hmvq.
    destruct Hph as [Hs1 | sf Hs1 Hsf | sf sd Hs1 Hsf Hsd
                     | sf sd md te st re Hs1 Hsf Hsd Hte].
    - left. unfold t. cbn [app]. repeat constructor. apply Forall_app.
      now split.
    - left. unfold t. cbn [app]. repeat constructor. apply Forall_app.
      now split.
    - left. unfold t. cbn [app]. repeat constructor. apply Forall_app.
      now split.
    - right.
      exists [EGetDBOptions o; EFileExists export_dir r0; ECreateDir tmp s1],
             sf, sd, md, te, re, (tmv ++ tc).
      split; [unfold t; cbn [app]; now rewrite <- !app_assoc |].
      split; [exact Hsf |]. split; [exact Hsd |].
      split; [repeat constructor |].
      split; [apply Forall_app; now split |].
      split; [exact Hte |].
      intros Hre.
      assert (Hs2 : ok (if ok st then re else st) = false)
        by (destruct (ok st) eqn:Hst; assumption).
      inversion Hmv; subst; try congruence.
      split; [congruence |]. unfold t. cbn [app].
      change (rename_calls (?a :: ?b :: ?c :: ?d :: ?e :: ?f :: ?l))
        with (rename_calls l).
      rewrite !rename_calls_app, (rename_calls_links_or_copies te Hte).
      cbn [app]. exact Hnr. }
  destruct H as [o r0 Hr0 | o r0 Hr0 Hnf | o r0 Hnf Hnpos
                 | o r0 s1 tph s2 md tmv s3 mv mem' tmp' Hnf Hnpos Hph Hmv Hs3
                 | o r0 s1 tph s2 md tmv s3 mv tc tmp' Hnf Hnpos Hph Hmv Hs3
                     Hc];
    try (left; repeat constructor; fail).
  - pose proof (Hcases (s3, mem') o r0 s1 tph s2 md tmv mv [] Hph Hmv
                  ltac:(constructor) eq_refl) as Hgoal.
    cbv zeta in Hgoal. rewrite !app_nil_r in Hgoal. exact Hgoal.
  - exact (Hcases (s3, mem) o r0 s1 tph s2 md tmv mv tc Hph Hmv
             (export_cleaned_setup _ _ Hc) (export_cleaned_rename_calls _ _ Hc)).
Qed.

End ExportOrder.

(** ** Where ExportColumnFamily writes *)


Section ExportConfinement.
Context {W : Type} {C : Collaborators W}.


End ExportConfinement.


(** ** An export on one file system *)

(** The files on which the link callback was called. *)
Definition linked (t : Trace) : list (string * string) :=
  omap (fun e => match e with
                 | EExportLinkCb d f _ => Some (d, f)
                 | _ => None
                 end) t.

Definition export_call_succeeded (e : Event) : Prop :=
  match e with
  | EExportLinkCb _ _ r | EExportCopyCb _ _ r => ok r = true
  | _ => True
  end.

Section ExportLinks.
Context {W : Type} {C : Collaborators W}.

Lemma export_level_files_linked fs s n :
  spec (export_level_files export_link_cb export_copy_cb fs (s, true, n))
       (fun st' t =>
          Forall parses fs -> Forall export_call_succeeded t ->
          linked t = sources fs /\ copied t = []
          /\ snd (fst st') = true
          /\ (ok s = true -> ok (fst (fst st')) = true)).
Proof.
  revert s n. induction fs as [| f rest IH]; intros s n;
    cbn [export_level_files].
  - apply spec_ret. cbn. auto.
  - destruct (ParseFileName (sst_name f)) as [[number type] |] eqn:Hp.
    2:{ apply spec_ret. intros Hall.
        apply Forall_cons_iff in Hall as [Hf _]. contradiction. }
    apply spec_bind_assoc, spec_export_link_cb_bind. intros r.
    destruct (ok r) eqn:Hr.
    + rewrite (ok_not_supported r Hr), andb_false_r.
      apply spec_ret_bind. cbn [negb]. apply spec_ret_bind. rewrite Hr.
      cbn [negb].
      eapply spec_weaken; [apply (IH r (n + 1)) |].
      cbn beta. intros st' t Hgood Hall Hok.
      apply Forall_cons_iff in Hall as [_ Hall].
      apply Forall_cons_iff in Hok as [_ Hok].
      destruct (Hgood Hall Hok) as (Hl & Hc & Hh & Hs).
      split; [| split; [exact Hc | split; [exact Hh | auto]]].
      change (linked (?e :: t)) with ((GetName, sst_name f) :: linked t).
      now rewrite Hl.
    + eapply spec_weaken; [apply spec_trivial |].
      cbn beta. intros st' t _ _ Hok.
      apply Forall_cons_iff in Hok as [Hok _]. cbn in Hok. congruence.
Qed.

Lemma export_levels_linked lvls s n :
  spec (export_levels export_link_cb export_copy_cb lvls (s, true, n))
       (fun st' t =>
          Forall parses (all_files lvls) -> Forall export_call_succeeded t ->
          linked t = sources (all_files lvls) /\ copied t = []
          /\ (ok s = true -> ok (fst (fst st')) = true)).
Proof.
  revert s n. induction lvls as [| l rest IH]; intros s n;
    cbn [export_levels].
  - apply spec_ret. cbn. auto.
  - eapply spec_bind; [apply export_level_files_linked |].
    intros [[s1 h1] n1] t1 Hgood1. cbn [fst snd] in Hgood1.
    destruct h1.
    + eapply spec_weaken; [apply (IH s1 n1) |].
      cbn beta. intros st' t2 Hgood2.
      unfold all_files. cbn [flat_map]. intros Hall Hok.
      apply Forall_app in Hall as [Hall1 Hall2].
      apply Forall_app in Hok as [Hok1 Hok2].
      destruct (Hgood1 Hall1 Hok1) as (Hl1 & Hc1 & _ & Hs1).
      destruct (Hgood2 Hall2 Hok2) as (Hl2 & Hc2 & Hs2).
      unfold linked, copied, sources in *. rewrite !omap_app, map_app.
      rewrite Hl1, Hl2, Hc1, Hc2. auto.
    + eapply spec_weaken; [apply spec_trivial |].
      cbn beta. intros st' t2 _.
      unfold all_files. cbn [flat_map]. intros Hall Hok.
      apply Forall_app in Hall as [Hall1 _].
      apply Forall_app in Hok as [Hok1 _].
      destruct (Hgood1 Hall1 Hok1) as (_ & _ & Hh & _). discriminate.
Qed.

(** X12.  [ExportFilesInMetaData] on one file system: when every listed
    file name parses and every call of a callback succeeds, the link
    callback is called on every table file of the captured metadata, once
    and in order (level after level), from the database directory; the copy
    callback is never called; and the status returned is OK. *)
Theorem export_links_every_file o md (w : W) :
  let run := ExportFilesInMetaData export_link_cb export_copy_cb o md w in
  Forall parses (all_files (levels md)) ->
  Forall export_call_succeeded (trace run) ->
  linked (trace run) = sources (all_files (levels md))
  /\ copied (trace run) = []
  /\ ok (result run) = true.
Proof.
  intros run. unfold run. clear run. revert w.
  change (spec (ExportFilesInMetaData export_link_cb export_copy_cb o md)
            (fun r t =>
               Forall parses (all_files (levels md)) ->
               Forall export_call_succeeded t ->
               linked t = sources (all_files (levels md))
               /\ copied t = [] /\ ok r = true)).
  unfold ExportFilesInMetaData.
  eapply spec_bind; [apply export_levels_linked |].
  intros [[s h] n] t Hgood. apply spec_ret. rewrite app_nil_r.
  intros Hall Hok. destruct (Hgood Hall Hok) as (Hl & Hc & Hs).
  split; [exact Hl |]. split; [exact Hc |]. now apply Hs.
Qed.

End ExportLinks.

(** Witness of X12: the two table files of [two_table_db], both of which can
    be hard-linked. *)
Lemma export_links_every_file_witness :
  let run :=
    ExportFilesInMetaData export_link_cb export_copy_cb Sim.default_options
      Sim.two_tables (Sim.two_table_db []) in
  (Forall parses (all_files (levels Sim.two_tables))
   /\ Forall export_call_succeeded (trace run))
  /\ linked (trace run) = [("/db", "/000009.sst"); ("/db", "/000011.sst")]
  /\ copied (trace run) = []
  /\ ok (result run) = true.
Proof.
  intros run.
  assert (H1 : Forall parses (all_files (levels Sim.two_tables)))
    by (repeat constructor; discriminate).
  assert (H2 : Forall export_call_succeeded (trace run))
    by (repeat constructor).
  split; [exact (conj H1 H2) |].
  exact (export_links_every_file Sim.default_options Sim.two_tables
           (Sim.two_table_db []) H1 H2).
Defined.


(** ** The flush threshold: zero, and large WAL files *)

Lemma total_wal_size_from_mod (wals : list LogFile) (acc : N) :
  fold_left (fun total wal => add64 total (SizeFileBytes wal)) wals
            (acc mod two64)
  = (acc + wal_bytes wals) mod two64.
Proof.
  revert acc. induction wals as [| wal wals IH]; intros acc.
  - cbn. now rewrite N.add_0_r.
  - change (wal_bytes (wal :: wals))
      with (SizeFileBytes wal + wal_bytes wals).
    cbn [fold_left]. unfold add64 at 2.
    rewrite N.Div0.add_mod_idemp_l, IH. f_equal. lia.
Qed.

Lemma total_wal_size_mod (wals : list LogFile) :
  total_wal_size wals = wal_bytes wals mod two64.
Proof.
  unfold total_wal_size.
  change 0 with (0 mod two64) at 1. now rewrite total_wal_size_from_mod.
Qed.

Section FlushThreshold.
Context {W : Type} {C : Collaborators W}.

(** X13.  The flush decision of [CreateCustomCheckpoint] without two-phase
    commit, at the edges.  With a threshold of 0 every call to
    [GetLiveFiles] asks for a flush.  With a threshold strictly between 0
    and the largest [uint64_t] the WAL files are listed first and, when the
    listing succeeds, the flush is skipped exactly when the sum of their
    sizes, taken modulo 2^64 as the code adds in [uint64_t], is below the
    threshold: WAL files whose sizes add up to 2^64 or more may count as
    small. *)
Theorem flush_threshold_edges db_options log_size_for_flush glc (w : W) :
  let r := CreateCustomCheckpoint link_cb copy_cb create_cb db_options
             log_size_for_flush glc w in
  let flags := live_files_flags (trace r) in
  allow_2pc db_options = false ->
  (log_size_for_flush = 0 -> flags <> [] /\ Forall (eq true) flags)
  /\ (0 < log_size_for_flush -> log_size_for_flush < kMaxUint64 ->
      exists n s wals tl,
        trace r = EGetLatestSequenceNumber n :: EGetSortedWalFiles s wals :: tl
        /\ (ok s = true ->
            flags <> []
            /\ Forall (eq (negb (wal_bytes wals mod two64
                                 <? log_size_for_flush))) flags)).
Proof.
  intros r flags H2pc.
  pose proof (CreateCustomCheckpoint_flags db_options log_size_for_flush glc
                w) as H.
  fold r in H. cbv beta in H.
  destruct H as (n & sd & flush & td & tl & Hrule & Ht & Hbad & Hgood).
  unfold flush_rule in Hrule. rewrite H2pc in Hrule.
  assert (Hflags : forall b tl',
            live_files_flags tl' = [b] \/ live_files_flags tl' = [b; b] ->
            live_files_flags tl' <> [] /\ Forall (eq b) (live_files_flags tl')).
  { intros b tl' [-> | ->]; split; try discriminate; repeat constructor. }
  split.
  - intros ->. cbn in Hrule. destruct Hrule as (-> & -> & ->).
    unfold flags. rewrite Ht. cbn [app].
    change (live_files_flags (EGetLatestSequenceNumber n :: tl))
      with (live_files_flags tl).
    apply Hflags. now apply Hgood.
  - intros Hpos Hmax.
    destruct (N.eqb_spec log_size_for_flush kMaxUint64) as [-> | _]; [lia |].
    destruct (N.ltb_spec 0 log_size_for_flush) as [_ | ?]; [| lia].
    destruct Hrule as (wals & -> & Hflush).
    exists n, sd, wals, tl. split; [exact Ht |].
    intros Hok. unfold flags. rewrite Ht. cbn [app].
    change (live_files_flags
              (EGetLatestSequenceNumber n :: EGetSortedWalFiles sd wals :: tl))
      with (live_files_flags tl).
    rewrite <- total_wal_size_mod, <- (Hflush Hok).
    apply Hflags. now apply Hgood.
Qed.

End FlushThreshold.

(** Witness of X13: [small_db] with a threshold of 0, and with a threshold of
    50 bytes for its 77 bytes of WAL. *)
Lemma flush_threshold_edges_witness :
  let zero :=
    CreateCustomCheckpoint link_cb copy_cb create_cb Sim.default_options
      0 false Sim.small_db in
  let fifty :=
    CreateCustomCheckpoint link_cb copy_cb create_cb Sim.default_options
      50 false Sim.small_db in
  (allow_2pc Sim.default_options = false /\ 0 < 50 /\ 50 < kMaxUint64)
  /\ Forall (eq true) (live_files_flags (trace zero))
  /\ live_files_flags (trace fifty) <> []
  /\ Forall (eq true) (live_files_flags (trace fifty)).
Proof.
  intros zero fifty.
  assert (H0 : allow_2pc Sim.default_options = false) by reflexivity.
  assert (H1 : 0 < 50) by reflexivity.
  assert (H2 : 50 < kMaxUint64) by reflexivity.
  split; [exact (conj H0 (conj H1 H2)) |]. split.
  - exact (proj2 (proj1 (flush_threshold_edges Sim.default_options 0 false
                           Sim.small_db H0) eq_refl)).
  - destruct (proj2 (flush_threshold_edges Sim.default_options 50 false
                       Sim.small_db H0) H1 H2)
      as (n & s & wals & tl & Ht & Hflags).
    vm_compute in Ht. injection Ht as _ <- <- _.
    exact (Hflags eq_refl).
Defined.


(** ** A staging directory that cannot be created *)

Definition is_create_dir (e : Event) : bool :=
  match e with ECreateDir _ _ => true | _ => false end.

Lemma purge_trace_creates_nothing p t :
  purge_trace p t -> Forall (fun e => is_create_dir e = false) t.
Proof.
  intros H. destruct H as [r Hr | r r' children dels rd Hr Hdels].
  - repeat constructor.
  - repeat constructor. apply Forall_app. split; [| repeat constructor].
    clear Hr. induction Hdels as [| c e cs dels (st & ->) _ IH];
      constructor; [reflexivity | exact IH].
Qed.

Section StagingCreation.
Context {W : Type} {C : Collaborators W}.

Lemma checkpoint_transfer_creates_no_directory o staging nwd vl vw log :
  emits (fun e => is_create_dir e = false)
        (CreateCustomCheckpoint
           (checkpoint_link_file_cb staging nwd)
           (checkpoint_copy_file_cb o staging nwd vl vw)
           (checkpoint_create_file_cb o staging)
           o log default_get_live_table_checksum).
Proof.
  apply checkpoint_transfer_emits;
    [intros e; now destruct e | reflexivity | intros e; now destruct e
    | reflexivity].
Qed.

(** X14.  When [CreateCheckpoint] places the WAL files in the staging
    directory and the creation of the staging directory fails, the call
    returns the status of that creation and stores no sequence number; it
    lists no file, places no file and does not touch the suppression of file
    deletions: its calls are the reading of the options, the probe of the
    target, the purge of the staging directory, the failed creation, and a
    second purge of the staging directory. *)
Theorem staging_creation_failure dir log_size_for_flush ptr dlog dwal s1
    (w : W) :
  let target := substr dir 0 (add64 (find_last_not_of dir slash) 1) in
  let staging := target +:+ ".tmp" in
  let run := CreateCheckpoint dir log_size_for_flush ptr dlog dwal w in
  wal_dir_is_local (strip_slashes dwal) target = true ->
  In (ECreateDir staging s1) (trace run) ->
  ok s1 = false ->
  result run = (s1, None)
  /\ Forall setup_event (trace run)
  /\ exists o r0 tp tp',
       trace run = EGetDBOptions o :: EFileExists dir r0
                   :: tp ++ ECreateDir staging s1 :: tp'
       /\ purge_trace staging tp /\ purge_trace staging tp'.
Proof.
  intros target staging run Hlocal Hin Hs1.
  pose proof (CreateCheckpoint_course
                (fun _ _ t => Forall (fun e => is_create_dir e = false) t)
                dir log_size_for_flush ptr dlog dwal
                (fun o => checkpoint_transfer_creates_no_directory o _ _ _ _ _)
                w) as H.
  fold run in H. cbv beta in H.
  assert (Hno : forall t,
            Forall (fun e => is_create_dir e = false) t ->
            ~ In (ECreateDir staging s1) t).
  { intros t Ht Hi. rewrite List.Forall_forall in Ht.
    specialize (Ht _ Hi). discriminate. }
  destruct H as [o r0 Hr0 | o r0 Hr0 Hnf | o r0 Hnf Hnpos
                 | o r0 tp s1' tw s2 tm s3 n r tf target' staging' pw Hnf
                     Hnpos Hp Hw Hm Hf];
    try (exfalso; revert Hin; apply Hno; repeat constructor; fail).
  subst pw. fold target in target'. subst target'.
  fold staging in staging'. subst staging'.
  fold target in Hw. rewrite Hlocal in Hw.
  destruct Hw as [_ | s ? _ | s s' ? _]; try discriminate.
  cbn [app] in Hin |- *.
  assert (Hmf : Forall (fun e => is_create_dir e = false) (tm ++ tf)).
  { apply Forall_app. split.
    - destruct Hm; repeat constructor; try assumption.
      apply Forall_app. split; [assumption | repeat constructor].
    - destruct Hf as [tm' sf Hmv _ | tm' sf tp' Hmv _ Hp'].
      + destruct Hmv; repeat constructor.
      + apply Forall_app. split; [destruct Hmv; repeat constructor |].
        eapply purge_trace_creates_nothing; eassumption. }
  assert (Heq : s1' = s1).
  { destruct Hin as [Hin | [Hin | Hin]]; try discriminate.
    apply in_app_or in Hin. destruct Hin as [Hin | [Hin | Hin]].
    - exfalso. revert Hin. apply Hno.
      eapply purge_trace_creates_nothing; eassumption.
    - congruence.
    - exfalso. revert Hin. now apply Hno. }
  subst s1'.
  destruct Hm as [_ | sd Hs2 | sd tc sc n Hs2 | sd tc sc n re Hs2];
    try congruence.
  destruct Hf as [tm' sf Hmv Hsf | tm' sf tp' Hmv Hsf Hp'];
    [destruct Hmv; congruence |].
  destruct Hmv as [_ | sr Hs | sr sn d Hs | sr sn d sf Hs]; try congruence.
  cbn [app]. split; [reflexivity |]. split.
  - repeat constructor. apply Forall_app.
    split; [eapply purge_trace_setup; eassumption |].
    constructor; [now repeat split |].
    eapply purge_trace_setup; eassumption.
  - exists o, r0, tp, tp'. auto.
Qed.

End StagingCreation.

(** Witness of X14: on [small_db] the creation of "/snap.tmp" is denied. *)
Definition uncreatable_staging_db : Sim.World :=
  Sim.set_faults Sim.small_db [] ["/snap.tmp"].

Lemma staging_creation_failure_witness :
  let run := CreateCheckpoint "/snap" kMaxUint64 true "" ""
               uncreatable_staging_db in
  (wal_dir_is_local (strip_slashes "") "/snap" = true
   /\ In (ECreateDir "/snap.tmp" (St.IOError "simulated")) (trace run)
   /\ ok (St.IOError "simulated") = false)
  /\ result run = (St.IOError "simulated", None).
Proof.
  intros run.
  assert (H0 : wal_dir_is_local (strip_slashes "") "/snap" = true)
    by reflexivity.
  assert (H1 : In (ECreateDir "/snap.tmp" (St.IOError "simulated"))
                  (trace run)).
  { vm_compute. repeat first [left; reflexivity | right]. }
  assert (H2 : ok (St.IOError "simulated") = false) by reflexivity.
  split; [exact (conj H0 (conj H1 H2)) |].
  exact (proj1 (staging_creation_failure "/snap" kMaxUint64 true "" ""
                  (St.IOError "simulated") uncreatable_staging_db H0 H1 H2)).
Defined.


(** ** What is linked, and which copies carry a checksum *)

Section Discipline.
Context {W : Type} {C : Collaborators W}.

(** A link attempt is on a table or blob file of the database directory or
    on a WAL file of [wal_dir]; a copy carries a checksum only if it is of a
    table or blob file and checksums were asked for; the manifest is read
    for checksums only if they were asked for. *)
Definition disciplined (wal_dir : string) (glc : bool) (e : Event) : Prop :=
  match e with
  | ELinkCb d _ ty _ =>
      (is_table_or_blob ty = true /\ d = GetName)
      \/ (ty = kWalFile /\ d = wal_dir)
  | ECopyCb _ _ _ ty cn cv _ =>
      glc = false \/ is_table_or_blob ty = false ->
      cn = kUnknownFileChecksumFuncName /\ cv = kUnknownFileChecksum
  | EGetFileChecksumsFromManifest _ _ _ _ => glc = true
  | _ => True
  end.

Lemma enumeration_disciplined wal_dir glc t :
  Forall (fun e => is_enumeration_event e = true) t ->
  Forall (disciplined wal_dir glc) t.
Proof.
  intros H. eapply Forall_impl; [exact H |].
  intros e He. destruct e; try discriminate; exact I.
Qed.

Lemma process_live_files_disciplined wal_dir glc msize files st :
  Forall (fun x => is_table_or_blob (snd x) = true) (snd st) ->
  spec (process_live_files copy_cb msize files st)
       (fun st' t =>
          Forall (disciplined wal_dir glc) t
          /\ Forall (fun x => is_table_or_blob (snd x) = true) (snd st')).
Proof.
  revert st. induction files as [| live_file rest IH];
    intros [[[s mf] cf] tb] Htb; cbn [process_live_files snd] in *.
  - apply spec_ret. split; [constructor | exact Htb].
  - destruct (negb (ok s)); [apply spec_ret; split; [constructor | exact Htb] |].
    destruct (ParseFileName live_file) as [[number type] |];
      [| apply spec_ret; split; [constructor | exact Htb]].
    destruct (FileType_eqb type kCurrentFile); [now apply IH |].
    cbv zeta.
    destruct (negb (FileType_eqb type kTableFile)
              && negb (FileType_eqb type kBlobFile)) eqn:Hty.
    + unfold copy_cb at 1. apply spec_call_bind. intros r.
      eapply spec_weaken; [apply IH; exact Htb |].
      cbn beta. intros st' t [H1 H2]. split; [| exact H2].
      constructor; [| exact H1]. cbn. auto.
    + apply IH. cbn [snd]. apply Forall_app. split; [exact Htb |].
      constructor; [| constructor]. cbn [snd]. unfold is_table_or_blob.
      destruct (FileType_eqb type kTableFile),
        (FileType_eqb type kBlobFile); cbn in *; congruence.
Qed.

Lemma try_link_disciplined wal_dir glc d f ty s b :
  (is_table_or_blob ty = true /\ d = GetName)
  \/ (ty = kWalFile /\ d = wal_dir) ->
  emits (disciplined wal_dir glc) (try_link link_cb d f ty s b).
Proof.
  intros H. unfold try_link, link_cb.
  destruct b; [| apply emits_ret].
  apply emits_bind; [apply emits_call; intros r; exact H |].
  intros s'. destruct (IsNotSupported s'); apply emits_ret.
Qed.

Lemma transfer_table_and_blob_files_disciplined wal_dir glc cl tb st :
  Forall (fun x => is_table_or_blob (snd x) = true) tb ->
  emits (disciplined wal_dir glc)
        (transfer_table_and_blob_files link_cb copy_cb glc cl tb st).
Proof.
  intros Htb. revert st.
  induction Htb as [| [[src_fname number] type] rest Hty _ IH]; intros st;
    cbn [transfer_table_and_blob_files snd] in *.
  - apply emits_ret.
  - destruct st as [s same_fs].
    destruct (negb (ok s)); [apply emits_ret |].
    apply emits_bind; [apply try_link_disciplined; now left |].
    intros [s' same_fs'].
    apply emits_bind; [| intros ?; apply IH].
    destruct (negb same_fs'); [| apply emits_ret].
    destruct glc;
      [destruct SearchOneFileChecksum as [[? ?] ?] |];
      unfold copy_cb; apply emits_call; intros r; cbn.
    + intros [? | ?]; congruence.
    + auto.
Qed.

Lemma transfer_wal_files_disciplined wal_dir glc flush mln wal_size i wals
    st :
  emits (disciplined wal_dir glc)
        (transfer_wal_files link_cb copy_cb wal_dir flush mln wal_size i wals
           st).
Proof.
  revert i st. induction wals as [| wal rest IH]; intros i st;
    cbn [transfer_wal_files].
  - apply emits_ret.
  - destruct st as [s same_fs].
    destruct (negb (ok s)); [apply emits_ret |].
    destruct (is_alive wal && _); [| apply IH].
    destruct (i + 1 =? wal_size).
    + apply emits_bind; [| intros ?; apply emits_ret].
      unfold copy_cb. apply emits_call. intros r. cbn. auto.
    + apply emits_bind; [apply try_link_disciplined; now right |].
      intros [s' same_fs'].
      apply emits_bind; [| intros ?; apply IH].
      destruct (negb same_fs'); [| apply emits_ret].
      unfold copy_cb. apply emits_call. intros r. cbn. auto.
Qed.

Lemma transfer_live_files_disciplined db_options glc flush mln msize files
    wals s :
  emits (disciplined (GetWalDir db_options) glc)
        (transfer_live_files link_cb copy_cb create_cb db_options glc flush
           mln msize files wals s).
Proof.
  unfold transfer_live_files, emits.
  eapply spec_bind.
  { apply (process_live_files_disciplined (GetWalDir db_options) glc).
    constructor. }
  intros [[[s1 mf] cf] tb] t1 [Ht1 Htb]. cbn [snd] in Htb.
  assert (Hrest : forall A (m : M W A),
            emits (disciplined (GetWalDir db_options) glc) m ->
            spec m (fun _ t2 =>
                      Forall (disciplined (GetWalDir db_options) glc)
                             (t1 ++ t2))).
  { intros A m Hm. eapply spec_weaken; [exact Hm |].
    cbn beta. intros _ t2 Ht2. apply Forall_app. now split. }
  apply Hrest.
  apply emits_bind.
  { unfold GetFileChecksumsFromManifest.
    destruct (ok s1 && glc) eqn:Hg; [| apply emits_ret].
    apply emits_call. intros [r l]. cbn.
    now apply andb_true_iff in Hg. }
  intros [s2 cl].
  apply emits_bind;
    [now apply transfer_table_and_blob_files_disciplined |].
  intros [s3 b3].
  apply emits_bind.
  { destruct (_ && _); [| apply emits_ret].
    unfold create_cb. apply emits_call. intros r. exact I. }
  intros s4.
  apply emits_bind; [apply transfer_wal_files_disciplined |].
  intros [s5 b5]. apply emits_ret.
Qed.

(** X15.  In a run of [CreateCustomCheckpoint]: a hard link is attempted
    only on a table or blob file of the database directory or on a WAL file
    of the WAL directory, so that CURRENT, the manifest and the options file
    are never linked; a copy callback receives the unknown checksum name and
    value unless checksums were asked for and the file is a table or blob
    file; and the manifest is read for checksums only when they were asked
    for. *)
Theorem links_and_checksums db_options log_size_for_flush glc (w : W) :
  let t := trace (CreateCustomCheckpoint link_cb copy_cb create_cb db_options
                    log_size_for_flush glc w) in
  (forall d f ty r,
     In (ELinkCb d f ty r) t ->
     (is_table_or_blob ty = true /\ d = GetName)
     \/ (ty = kWalFile /\ d = GetWalDir db_options))
  /\ (forall d f l ty cn cv r,
        In (ECopyCb d f l ty cn cv r) t ->
        glc = false \/ is_table_or_blob ty = false ->
        cn = kUnknownFileChecksumFuncName /\ cv = kUnknownFileChecksum)
  /\ (forall p sz r l,
        In (EGetFileChecksumsFromManifest p sz r l) t -> glc = true).
Proof.
  intros t.
  assert (H : Forall (disciplined (GetWalDir db_options) glc) t).
  { pose proof (CreateCustomCheckpoint_run link_cb copy_cb create_cb
                  db_options glc
                  (fun _ _ _ _ _ _ _ tt =>
                     Forall (disciplined (GetWalDir db_options) glc) tt)
                  (transfer_live_files_disciplined db_options glc)
                  log_size_for_flush w) as H.
    cbv beta in H. fold t in H.
    destruct H as [[_ He] | H].
    - now apply enumeration_disciplined.
    - destruct H as (flush & mln & msize & files & wals & s & tg & tt & Hg
                     & -> & Ht).
      apply Forall_app. split; [| exact Ht].
      eapply enumeration_disciplined, enumerated_enumeration, Hg. }
  rewrite List.Forall_forall in H.
  split; [| split]; intros; match goal with
                            | Hi : In _ t |- _ => apply H in Hi
                            end; cbn in *; auto.
Qed.

End Discipline.
